(** * Deal detection and tracking engine: a shallow embedding and its properties

    The development follows the TypeScript sources of the deal monitor:
    the fee calculator, the deal classifier, the deal analyzer, the price
    history manager, the deal filter, the task queue and the deal tracker.

    Conventions of the embedding.
    - [Decimal] values are rationals with exact arithmetic (see [Decimal]),
      and "equal" on them is numeric equality [==].  JavaScript [number]s
      that hold percentages and ratings are rationals as well: NaN, the
      infinities and binary rounding are not represented.  Counters, ranks,
      priorities and timestamps in milliseconds are integers [Z].
    - [uuidv4()] is a counter: the n-th identifier issued is [n].  Only the
      distinctness of issued identifiers is used.
    - [new Date()] reads a clock; the k-th reading is [clock k], for a
      [clock] that every operation takes as a parameter.
    - An optional field [f?: T] is an [option T].
    - A property access [table[key]] on an object literal finds the table's
      own property or else the member of that name that the table inherits
      from [Object.prototype].
    - A call that can throw returns a sum: [inl] the error thrown, [inr] the
      value returned.
    - [logger] calls are kept where a property speaks of side effects (the
      analyzer) and left out elsewhere. *)

From Stdlib Require Import QArith Qminmax Lqa.
From stdpp Require Import gmap strings list fin_maps sorting.

(** ** decimal.js *)

(** Modelled from the spec: decimal.js, the library behind [Decimal], is a
    dependency and not part of the sources.  The specification calls these
    values exact decimals, so they are rationals here and the operations are
    the exact ones; the library's own rounding to 20 significant digits is
    not represented. *)
Module Decimal.

Definition t : Type := Q.

Definition add (x y : t) : t := (x + y)%Q.
Definition minus (x y : t) : t := (x - y)%Q.
Definition mul (x y : t) : t := (x * y)%Q.
Definition div (x y : t) : t := (x / y)%Q.

Definition gt (x y : t) : bool := negb (Qle_bool x y).
Definition lt (x y : t) : bool := negb (Qle_bool y x).
Definition lte (x y : t) : bool := Qle_bool x y.
Definition equals (x y : t) : bool := Qeq_bool x y.

Definition max3 (x y z : t) : t := Qmax (Qmax x y) z.

(** [toNumber]: the value as a JavaScript number. *)
Definition toNumber (x : t) : Q := x.

Definition zero : t := 0%Q.

End Decimal.

(** JavaScript [number] comparisons on rationals. *)
Definition num_lt (x y : Q) : bool := negb (Qle_bool y x).
Definition num_gt (x y : Q) : bool := negb (Qle_bool x y).
Definition num_ge (x y : Q) : bool := Qle_bool y x.

(** ** models/product.ts and models/deal.ts *)

Inductive MarketplaceCode := DE | FR | IT | ES.

#[global] Instance MarketplaceCode_eq_dec : EqDecision MarketplaceCode.
Proof. solve_decision. Defined.

Inductive DealTier := low | medium | high.

Inductive FulfillmentType := FBA | FBM.

#[global] Instance FulfillmentType_eq_dec : EqDecision FulfillmentType.
Proof. solve_decision. Defined.

(** [productDimensions]: the three edges in centimetres. *)
Module Dimensions.
Record t := mk { length : Decimal.t; width : Decimal.t; height : Decimal.t }.
End Dimensions.

Module ProductData.
Record t := mk {
  asin : string;
  marketplace : MarketplaceCode;
  title : string;
  price : Decimal.t;
  currency : string;
  availability : bool;
  rating : Q;
  reviewCount : Z;
  salesRank : Z;
  seller : string;
  isPrime : bool;
  imageUrl : option string;
  productUrl : string;
  timestamp : Z
}.
End ProductData.

Module FeeBreakdown.
Record t := mk {
  referralFee : Decimal.t;
  fulfillmentFee : Decimal.t;
  storageFee : Decimal.t;
  vat : Decimal.t;
  shippingCost : Decimal.t;
  total : Decimal.t
}.
End FeeBreakdown.

Module DealMetrics.
Record t := mk {
  salePrice : Decimal.t;
  costPrice : Decimal.t;
  totalFees : Decimal.t;
  profit : Decimal.t;
  margin : Q;
  roi : Q
}.
End DealMetrics.

Module Deal.
Record t := mk {
  id : nat;
  product : ProductData.t;
  metrics : DealMetrics.t;
  feeBreakdown : FeeBreakdown.t;
  tier : DealTier;
  fulfillmentType : FulfillmentType;
  detectedAt : Z
}.
End Deal.

Module DealFilter.
Record t := mk {
  minMargin : Q;
  minRoi : Q;
  minProfit : Decimal.t;
  maxPrice : Decimal.t;
  minRating : Q;
  maxSalesRank : Z;
  marketplaces : list MarketplaceCode
}.
End DealFilter.

Module DealTierConfig.
Record t := mk {
  minMargin : Q;
  maxMargin : option Q;
  minRoi : Q;
  maxRoi : option Q;
  role : string;
  color : Z
}.
End DealTierConfig.

(** ** analyzer/fee-calculator.ts *)

Module FeeCalculator.

Local Open Scope Q_scope.

Record FeeCalculationParams := mkParams {
  salePrice : Decimal.t;
  category : string;
  fulfillmentType : FulfillmentType;
  marketplace : MarketplaceCode;
  productWeight : option Decimal.t;
  productDimensions : option Dimensions.t;
  isMedia : option bool
}.

Record fbaFees := mkFba {
  smallStandard : Decimal.t;
  standard : Decimal.t;
  largeStandard : Decimal.t;
  specialOversize : Decimal.t
}.

Definition REFERRAL_FEES : list (string * Q) :=
  [ ("default", 15 # 100);
    ("Consumer Electronics", 8 # 100);
    ("Computers", 7 # 100);
    ("Camera & Photo", 8 # 100);
    ("Home & Garden", 15 # 100);
    ("Toys & Games", 15 # 100);
    ("Sports & Outdoors", 15 # 100);
    ("Books", 15 # 100);
    ("Music", 15 # 100);
    ("DVD & Blu-ray", 15 # 100);
    ("Software", 15 # 100);
    ("Video Games", 15 # 100);
    ("Kitchen", 15 # 100);
    ("Pet Supplies", 15 # 100);
    ("Baby", 15 # 100);
    ("Health & Personal Care", 15 # 100);
    ("Beauty", 15 # 100);
    ("Clothing", 17 # 100);
    ("Shoes & Jewelry", 17 # 100);
    ("Watches", 16 # 100);
    ("Automotive", 12 # 100);
    ("Tools & Home Improvement", 15 # 100);
    ("Grocery", 15 # 100) ].

(** The table's own property of that name, if it has one. *)
Fixpoint lookup_rate (table : list (string * Q)) (key : string) : option Q :=
  match table with
  | [] => None
  | (k, r) :: rest => if String.eqb k key then Some r else lookup_rate rest key
  end.

(** The names that an object literal inherits from [Object.prototype]:
    eleven functions and, under [__proto__], the prototype itself. *)
Definition Object_prototype : list string :=
  [ "constructor"; "__defineGetter__"; "__defineSetter__"; "hasOwnProperty";
    "__lookupGetter__"; "__lookupSetter__"; "isPrototypeOf";
    "propertyIsEnumerable"; "toString"; "valueOf"; "__proto__";
    "toLocaleString" ].

Definition inherited_name (key : string) : bool :=
  existsb (String.eqb key) Object_prototype.

(** What a property access on the table can yield: a rate, the inherited
    member of that name (truthy, and not a number), or [undefined]. *)
Inductive Value :=
  | Number (r : Q)
  | Inherited (name : string)
  | Undefined.

(** Property access [table[key]]: the table's own property first, then the
    prototype. *)
Definition get (table : list (string * Q)) (key : string) : Value :=
  match lookup_rate table key with
  | Some r => Number r
  | None => if inherited_name key then Inherited key else Undefined
  end.

Definition REFERRAL_FEES_default : Q := 15 # 100.

(** [REFERRAL_FEES[category] || REFERRAL_FEES.default]: [undefined] and [0]
    are falsy, an inherited member is truthy. *)
Definition getReferralFeeRate (category : string) : Value :=
  match get REFERRAL_FEES category with
  | Number r => if Qeq_bool r 0 then Number REFERRAL_FEES_default else Number r
  | Inherited name => Inherited name
  | Undefined => Number REFERRAL_FEES_default
  end.

Definition VAT_RATES (m : MarketplaceCode) : Q :=
  match m with
  | DE => 19 # 100
  | FR => 20 # 100
  | IT => 22 # 100
  | ES => 21 # 100
  end.

Definition getVATRate (m : MarketplaceCode) : Q := VAT_RATES m.

Definition CLOSING_FEES (m : MarketplaceCode) : Decimal.t :=
  match m with
  | DE => 99 # 100
  | FR => 99 # 100
  | IT => 99 # 100
  | ES => 99 # 100
  end.

Definition FBA_FEES (m : MarketplaceCode) : fbaFees :=
  match m with
  | DE | FR | IT | ES =>
      {| smallStandard := 250 # 100;
         standard := 322 # 100;
         largeStandard := 475 # 100;
         specialOversize := 850 # 100 |}
  end.

Definition FBA_WEIGHT_FEE : Decimal.t := 42 # 100.

(** [Array.prototype.sort((a, b) => a.minus(b).toNumber())]: a stable
    ascending sort, here by insertion. *)
Fixpoint insert_asc (x : Decimal.t) (l : list Decimal.t) : list Decimal.t :=
  match l with
  | [] => [x]
  | y :: rest => if Decimal.lt x y then x :: l else y :: insert_asc x rest
  end.

Definition sort_asc (l : list Decimal.t) : list Decimal.t :=
  foldl (fun acc x => insert_asc x acc) [] l.

Definition calculateFBAFee (marketplace : MarketplaceCode)
    (weight : option Decimal.t) (dimensions : option Dimensions.t) : Decimal.t :=
  let fees := FBA_FEES marketplace in
  let baseFee :=
    match dimensions with
    | Some d =>
        let l := Dimensions.length d in
        let w := Dimensions.width d in
        let h := Dimensions.height d in
        let volume := Decimal.mul (Decimal.mul l w) h in
        let longestSide := Decimal.max3 l w h in
        let medianSide := nth 1 (sort_asc [l; w; h]) Decimal.zero in
        let shortestSide := nth 0 (sort_asc [l; w; h]) Decimal.zero in
        if Decimal.lte volume 1600 && Decimal.lte longestSide 45
           && Decimal.lte medianSide 35 && Decimal.lte shortestSide 20
           && match weight with Some wt => Decimal.lte wt 1 | None => true end
        then smallStandard fees
        else if Decimal.lte longestSide 61 && Decimal.lte medianSide 46
                && Decimal.lte shortestSide 46
        then standard fees
        else if Decimal.lte longestSide 120 && Decimal.lte medianSide 60
                && Decimal.lte shortestSide 60
        then largeStandard fees
        else specialOversize fees
    | None => standard fees
    end in
  let weightFee :=
    match weight with
    | Some wt =>
        if Decimal.gt wt 1
        then Decimal.mul (Decimal.minus wt 1) FBA_WEIGHT_FEE
        else Decimal.zero
    | None => Decimal.zero
    end in
  Decimal.add baseFee weightFee.

Definition calculateStorageFee (fulfillmentType : FulfillmentType)
    (dimensions : option Dimensions.t) : Decimal.t :=
  match fulfillmentType with
  | FBM => Decimal.zero
  | FBA =>
      let baseStorageFee : Decimal.t := 26 # 100 in
      match dimensions with
      | Some d =>
          let volume :=
            Decimal.div
              (Decimal.mul (Decimal.mul (Dimensions.length d) (Dimensions.width d))
                 (Dimensions.height d))
              1000000 in
          Decimal.mul volume baseStorageFee
      | None => 10 # 100
      end
  end.

Definition calculateShippingCost (weight : option Decimal.t)
    (dimensions : option Dimensions.t) : Decimal.t :=
  let baseShipping : Decimal.t := 350 # 100 in
  match weight with
  | Some wt =>
      if Decimal.gt wt (5 # 10)
      then Decimal.add baseShipping (Decimal.mul (Decimal.minus wt (5 # 10)) (150 # 100))
      else baseShipping
  | None => baseShipping
  end.

(** Truthiness of the optional flag [isMedia]. *)
Definition truthy (b : option bool) : bool :=
  match b with Some true => true | _ => false end.

Definition closingFee (params : FeeCalculationParams) : Decimal.t :=
  if truthy (isMedia params) then CLOSING_FEES (marketplace params) else Decimal.zero.

(** decimal.js is not part of the sources.  That its arithmetic rejects an
    argument that is neither a number, a numeric string nor a [Decimal] by
    throwing a [DecimalError] is the library's contract for its
    constructor; the argument is kept with the error. *)
Inductive DecimalError := InvalidArgument (v : Value).

(** [salePrice.mul(referralFeeRate)] is the first use of the rate: with a
    rate that is no number the call throws there, before anything else is
    computed. *)
Definition calculateFees (params : FeeCalculationParams)
    : DecimalError + FeeBreakdown.t :=
  match getReferralFeeRate (category params) with
  | Number referralFeeRate =>
      let referralFee := Decimal.mul (salePrice params) referralFeeRate in
      let closingFee := closingFee params in
      let fulfillmentFee :=
        match fulfillmentType params with
        | FBA => calculateFBAFee (marketplace params) (productWeight params)
                   (productDimensions params)
        | FBM => Decimal.zero
        end in
      let storageFee :=
        calculateStorageFee (fulfillmentType params) (productDimensions params) in
      let vatRate := VAT_RATES (marketplace params) in
      let vat := Decimal.mul (salePrice params) vatRate in
      let shippingCost :=
        match fulfillmentType params with
        | FBM => calculateShippingCost (productWeight params)
                   (productDimensions params)
        | FBA => Decimal.zero
        end in
      let total :=
        Decimal.add
          (Decimal.add
             (Decimal.add
                (Decimal.add (Decimal.add referralFee closingFee) fulfillmentFee)
                storageFee)
             vat)
          shippingCost in
      inr {| FeeBreakdown.referralFee := referralFee;
             FeeBreakdown.fulfillmentFee := fulfillmentFee;
             FeeBreakdown.storageFee := storageFee;
             FeeBreakdown.vat := vat;
             FeeBreakdown.shippingCost := shippingCost;
             FeeBreakdown.total := total |}
  | v => inl (InvalidArgument v)
  end.

End FeeCalculator.

(** ** The ambient world: [uuidv4()] and [new Date()]

    [uuids] counts the identifiers issued so far and [dates] the clock
    readings taken so far; the k-th reading of the clock is [clock k]. *)

Module World.
Record t := mk { uuids : nat; dates : nat }.

Definition uuidv4 (w : t) : nat * t :=
  (uuids w, {| uuids := S (uuids w); dates := dates w |}).

Definition newDate (clock : nat -> Z) (w : t) : Z * t :=
  (clock (dates w), {| uuids := uuids w; dates := S (dates w) |}).
End World.

(** ** analyzer/deal-classifier.ts *)

Module DealClassifier.

(** The message texts of [reasons], kept as data: which bound was met or
    missed, at which value. *)
Inductive Reason :=
  | MarginMeetsMinimum (margin minMargin : Q)
  | RoiMeetsMinimum (roi minRoi : Q)
  | MarginBelowMinimum (margin minMargin : Q)
  | RoiBelowMinimum (roi minRoi : Q).

Record ClassificationResult := mkResult {
  tier : DealTier;
  qualifies : bool;
  reasons : list Reason
}.

Section Classifier.

Variable tierConfigs : DealTier -> DealTierConfig.t.

Definition checkTier (deal : Deal.t) (tier : DealTier) : bool :=
  let config := tierConfigs tier in
  let margin := DealMetrics.margin (Deal.metrics deal) in
  let roi := DealMetrics.roi (Deal.metrics deal) in
  if num_lt margin (DealTierConfig.minMargin config) then false
  else if match DealTierConfig.maxMargin config with
          | Some mx => num_gt margin mx
          | None => false
          end then false
  else if num_lt roi (DealTierConfig.minRoi config) then false
  else if match DealTierConfig.maxRoi config with
          | Some mx => num_gt roi mx
          | None => false
          end then false
  else true.

Definition getTierReasons (tier : DealTier) (margin roi : Q) : list Reason :=
  let config := tierConfigs tier in
  (if num_ge margin (DealTierConfig.minMargin config)
   then [MarginMeetsMinimum margin (DealTierConfig.minMargin config)]
   else [])
  ++ (if num_ge roi (DealTierConfig.minRoi config)
      then [RoiMeetsMinimum roi (DealTierConfig.minRoi config)]
      else []).

Definition getDisqualificationReasons (margin roi : Q) : list Reason :=
  let lowestTier := tierConfigs low in
  (if num_lt margin (DealTierConfig.minMargin lowestTier)
   then [MarginBelowMinimum margin (DealTierConfig.minMargin lowestTier)]
   else [])
  ++ (if num_lt roi (DealTierConfig.minRoi lowestTier)
      then [RoiBelowMinimum roi (DealTierConfig.minRoi lowestTier)]
      else []).

Definition classify (deal : Deal.t) : ClassificationResult :=
  let margin := DealMetrics.margin (Deal.metrics deal) in
  let roi := DealMetrics.roi (Deal.metrics deal) in
  if checkTier deal high then
    {| tier := high; qualifies := true; reasons := getTierReasons high margin roi |}
  else if checkTier deal medium then
    {| tier := medium; qualifies := true; reasons := getTierReasons medium margin roi |}
  else if checkTier deal low then
    {| tier := low; qualifies := true; reasons := getTierReasons low margin roi |}
  else
    {| tier := low; qualifies := false;
       reasons := getDisqualificationReasons margin roi |}.

End Classifier.

End DealClassifier.

(** ** analyzer/analyzer.ts *)

Module DealAnalyzer.

Local Open Scope Q_scope.

Record AnalysisOptions := mkOptions {
  costPrice : Decimal.t;
  fulfillmentType : FulfillmentType;
  category : option string;
  productWeight : option Decimal.t;
  productDimensions : option Dimensions.t;
  isMedia : option bool
}.

(** One line of [logger.debug] output of [analyze]. *)
Record LogLine := mkLog {
  log_asin : string;
  log_tier : DealTier;
  log_margin : Q;
  log_roi : Q
}.

(** What [analyze] acts on: the world and the debug log. *)
Record Env := mkEnv { world : World.t; log : list LogLine }.

(** What is thrown: an [Error] with its message, or the [DecimalError] of
    the fee calculator. *)
Inductive Error :=
  | ErrorMessage (message : string)
  | FeeError (e : FeeCalculator.DecimalError).

Definition calculateMetrics (salePrice costPrice totalFees : Decimal.t)
    : DealMetrics.t :=
  let profit := Decimal.minus (Decimal.minus salePrice costPrice) totalFees in
  let margin :=
    if Decimal.gt salePrice 0
    then Decimal.toNumber (Decimal.mul (Decimal.div profit salePrice) 100)
    else 0 in
  let roi :=
    if Decimal.gt costPrice 0
    then Decimal.toNumber (Decimal.mul (Decimal.div profit costPrice) 100)
    else 0 in
  {| DealMetrics.salePrice := salePrice;
     DealMetrics.costPrice := costPrice;
     DealMetrics.totalFees := totalFees;
     DealMetrics.profit := profit;
     DealMetrics.margin := margin;
     DealMetrics.roi := roi |}.

Section Analyzer.

Variable clock : nat -> Z.
Variable tierConfigs : DealTier -> DealTierConfig.t.

(** [calculateFees] comes first: when it throws, no identifier has been
    drawn, the clock has not been read and nothing has been logged. *)
Definition analyze (env : Env) (product : ProductData.t) (options : AnalysisOptions)
    : Env * (Error + Deal.t) :=
  let category := default "default"%string (category options) in
  let isMedia := default false (isMedia options) in
  let feeParams :=
    {| FeeCalculator.salePrice := ProductData.price product;
       FeeCalculator.category := category;
       FeeCalculator.fulfillmentType := fulfillmentType options;
       FeeCalculator.marketplace := ProductData.marketplace product;
       FeeCalculator.productWeight := productWeight options;
       FeeCalculator.productDimensions := productDimensions options;
       FeeCalculator.isMedia := Some isMedia |} in
  match FeeCalculator.calculateFees feeParams with
  | inl e => (env, inl (FeeError e))
  | inr feeBreakdown =>
      let metrics :=
        calculateMetrics (ProductData.price product) (costPrice options)
          (FeeBreakdown.total feeBreakdown) in
      let '(uuid, w1) := World.uuidv4 (world env) in
      let '(now, w2) := World.newDate clock w1 in
      let deal :=
        {| Deal.id := uuid;
           Deal.product := product;
           Deal.metrics := metrics;
           Deal.feeBreakdown := feeBreakdown;
           Deal.tier := low;
           Deal.fulfillmentType := fulfillmentType options;
           Deal.detectedAt := now |} in
      let classification := DealClassifier.classify tierConfigs deal in
      let deal' :=
        {| Deal.id := Deal.id deal;
           Deal.product := Deal.product deal;
           Deal.metrics := Deal.metrics deal;
           Deal.feeBreakdown := Deal.feeBreakdown deal;
           Deal.tier := DealClassifier.tier classification;
           Deal.fulfillmentType := Deal.fulfillmentType deal;
           Deal.detectedAt := Deal.detectedAt deal |} in
      let line :=
        {| log_asin := ProductData.asin product;
           log_tier := Deal.tier deal';
           log_margin := DealMetrics.margin metrics;
           log_roi := DealMetrics.roi metrics |} in
      ({| world := w2; log := log env ++ [line] |}, inr deal')
  end.

(** [products.map((product, index) => this.analyze(product, optionsList[index]))],
    left to right, stopping at the first call that throws;
    [optionsList[index]] out of range is [undefined], on which the
    destructuring in [analyze] throws a TypeError. *)
Fixpoint map_analyze (env : Env) (products : list ProductData.t)
    (optionsList : list AnalysisOptions) (index : nat)
    : Env * (Error + list Deal.t) :=
  match products with
  | [] => (env, inr [])
  | product :: rest =>
      match optionsList !! index with
      | None => (env, inl (ErrorMessage "TypeError"))
      | Some options =>
          match analyze env product options with
          | (env1, inl e) => (env1, inl e)
          | (env1, inr deal) =>
              match map_analyze env1 rest optionsList (S index) with
              | (env2, inr deals) => (env2, inr (deal :: deals))
              | (env2, inl e) => (env2, inl e)
              end
          end
      end
  end.

Definition analyzeBatch (env : Env) (products : list ProductData.t)
    (optionsList : list AnalysisOptions) : Env * (Error + list Deal.t) :=
  if negb (Nat.eqb (length products) (length optionsList)) then
    (env, inl (ErrorMessage "Products and options lists must have the same length"))
  else map_analyze env products optionsList 0.

End Analyzer.

End DealAnalyzer.

(** ** tracker/types.ts and tracker/price-history.ts *)

Module PriceHistoryManager.

Local Open Scope Q_scope.

Record PriceHistoryEntry := mkEntry {
  asin : string;
  marketplace : MarketplaceCode;
  price : Decimal.t;
  timestamp : Z
}.

Record PriceChangeAlert := mkAlert {
  alert_asin : string;
  alert_marketplace : MarketplaceCode;
  oldPrice : Decimal.t;
  newPrice : Decimal.t;
  changeAmount : Decimal.t;
  changePercentage : Q;
  alert_timestamp : Z
}.

Record t := mk {
  history : gmap string (list PriceHistoryEntry);
  lastPrices : gmap string Decimal.t
}.

(** [new PriceHistoryManager()]. *)
Definition empty : t := {| history := ∅; lastPrices := ∅ |}.

(** The marketplace code as it appears in a template string. *)
Definition code (m : MarketplaceCode) : string :=
  match m with
  | DE => "DE"
  | FR => "FR"
  | IT => "IT"
  | ES => "ES"
  end.

Definition getKey (asin : string) (marketplace : MarketplaceCode) : string :=
  asin +:+ ":" +:+ code marketplace.

Definition MAX_HISTORY : nat := 1000.

(** [history.push(entry)], then [history.shift()] when the length exceeds
    the cap. *)
Definition push_capped (cap : nat) (h : list PriceHistoryEntry)
    (entry : PriceHistoryEntry) : list PriceHistoryEntry :=
  let h1 := h ++ [entry] in
  if Nat.ltb cap (length h1) then tail h1 else h1.

Definition addPriceEntry (st : t) (entry : PriceHistoryEntry)
    : option PriceChangeAlert * t :=
  let key := getKey (asin entry) (marketplace entry) in
  let lastPrice := lastPrices st !! key in
  let alert :=
    match lastPrice with
    | Some lp =>
        if negb (Decimal.equals lp (price entry)) then
          let changeAmount := Decimal.minus (price entry) lp in
          let changePercentage :=
            if Decimal.gt lp 0
            then Decimal.toNumber (Decimal.mul (Decimal.div changeAmount lp) 100)
            else 0 in
          Some {| alert_asin := asin entry;
                  alert_marketplace := marketplace entry;
                  oldPrice := lp;
                  newPrice := price entry;
                  changeAmount := changeAmount;
                  changePercentage := changePercentage;
                  alert_timestamp := timestamp entry |}
        else None
    | None => None
    end in
  let h := default [] (history st !! key) in
  let h' := push_capped MAX_HISTORY h entry in
  (alert,
   {| history := <[key := h']> (history st);
      lastPrices := <[key := price entry]> (lastPrices st) |}).

Definition getPriceHistory (st : t) (asin : string) (marketplace : MarketplaceCode)
    : list PriceHistoryEntry :=
  default [] (history st !! getKey asin marketplace).

Definition getLastPrice (st : t) (asin : string) (marketplace : MarketplaceCode)
    : option Decimal.t :=
  lastPrices st !! getKey asin marketplace.

(** A sequence of [addPriceEntry] calls on one manager: the alerts returned,
    in call order, and the final state. *)
Fixpoint addPriceEntries (st : t) (entries : list PriceHistoryEntry)
    : list (option PriceChangeAlert) * t :=
  match entries with
  | [] => ([], st)
  | e :: rest =>
      let '(a, st1) := addPriceEntry st e in
      let '(alerts, st2) := addPriceEntries st1 rest in
      (a :: alerts, st2)
  end.

End PriceHistoryManager.

(** ** tracker/deal-filter.ts *)

Module DealFilterManager.

Definition includes (l : list MarketplaceCode) (m : MarketplaceCode) : bool :=
  bool_decide (m ∈ l).

Definition passesFilter (deal : Deal.t) (f : DealFilter.t) : bool :=
  let metrics := Deal.metrics deal in
  let product := Deal.product deal in
  if num_lt (DealMetrics.margin metrics) (DealFilter.minMargin f) then false
  else if num_lt (DealMetrics.roi metrics) (DealFilter.minRoi f) then false
  else if Decimal.lt (DealMetrics.profit metrics) (DealFilter.minProfit f) then false
  else if Decimal.gt (ProductData.price product) (DealFilter.maxPrice f) then false
  else if num_lt (ProductData.rating product) (DealFilter.minRating f) then false
  else if (0 <? DealFilter.maxSalesRank f)%Z
          && (DealFilter.maxSalesRank f <? ProductData.salesRank product)%Z then false
  else if negb (includes (DealFilter.marketplaces f) (ProductData.marketplace product))
  then false
  else true.

Definition filter (deals : list Deal.t) (f : DealFilter.t) : list Deal.t :=
  List.filter (fun deal => passesFilter deal f) deals.

End DealFilterManager.

(** ** scheduler/types.ts and scheduler/task-queue.ts

    [Task] objects are mutable and shared by reference between the queue,
    the running map and the callers that [getNextTask] hands them to.  The
    embedding keeps them in an object store [objects], indexed by allocation
    order; the pending queue and the running map hold references into it. *)

Module TaskQueue.

Inductive TaskType := product | category.

Inductive TaskStatus := pending | running | completed | failed.

Record Task := mkTask {
  id : nat;
  type : TaskType;
  target : string;
  marketplace : MarketplaceCode;
  priority : Z;
  createdAt : Z;
  scheduledAt : option Z;
  startedAt : option Z;
  completedAt : option Z;
  status : TaskStatus;
  retryCount : Z;
  maxRetries : Z;
  error : option string
}.

(** [Omit<Task, 'id' | 'createdAt' | 'status' | 'retryCount'>]. *)
Record TaskSpec := mkSpec {
  spec_type : TaskType;
  spec_target : string;
  spec_marketplace : MarketplaceCode;
  spec_priority : Z;
  spec_scheduledAt : option Z;
  spec_startedAt : option Z;
  spec_completedAt : option Z;
  spec_maxRetries : Z;
  spec_error : option string
}.

Record TaskResult := mkTaskResult {
  taskId : nat;
  success : bool;
  data : option string;
  result_error : option string;
  duration : Z
}.

(** [Omit<TaskResult, 'taskId'>]. *)
Record TaskOutcome := mkOutcome {
  outcome_success : bool;
  outcome_data : option string;
  outcome_error : option string;
  outcome_duration : Z
}.

Definition set_status (s : TaskStatus) (t : Task) : Task :=
  mkTask (id t) (type t) (target t) (marketplace t) (priority t) (createdAt t)
    (scheduledAt t) (startedAt t) (completedAt t) s (retryCount t)
    (maxRetries t) (error t).

Definition set_startedAt (d : option Z) (t : Task) : Task :=
  mkTask (id t) (type t) (target t) (marketplace t) (priority t) (createdAt t)
    (scheduledAt t) d (completedAt t) (status t) (retryCount t)
    (maxRetries t) (error t).

Definition set_completedAt (d : option Z) (t : Task) : Task :=
  mkTask (id t) (type t) (target t) (marketplace t) (priority t) (createdAt t)
    (scheduledAt t) (startedAt t) d (status t) (retryCount t)
    (maxRetries t) (error t).

Definition set_retryCount (n : Z) (t : Task) : Task :=
  mkTask (id t) (type t) (target t) (marketplace t) (priority t) (createdAt t)
    (scheduledAt t) (startedAt t) (completedAt t) (status t) n
    (maxRetries t) (error t).

Definition set_error (e : option string) (t : Task) : Task :=
  mkTask (id t) (type t) (target t) (marketplace t) (priority t) (createdAt t)
    (scheduledAt t) (startedAt t) (completedAt t) (status t) (retryCount t)
    (maxRetries t) e.

Record t := mk {
  objects : gmap nat Task;
  queue : list nat;
  runningTasks : gmap nat nat;
  completedTasks : gmap nat TaskResult;
  taskDurations : list Z;
  world : World.t
}.

(** [new TaskQueue()] in a world [w]. *)
Definition create (w : World.t) : t :=
  {| objects := ∅; queue := []; runningTasks := ∅; completedTasks := ∅;
     taskDurations := []; world := w |}.

(** The reference of the next [Task] object to be allocated. *)
Definition fresh_ref (objs : gmap nat Task) : nat := fresh (dom objs).

Definition priorityOf (objs : gmap nat Task) (r : nat) : Z :=
  match objs !! r with
  | Some task => priority task
  | None => 0
  end.

(** [this.queue.sort((a, b) => b.priority - a.priority)]: a stable sort by
    descending priority, here by insertion. *)
Fixpoint insert_desc (objs : gmap nat Task) (r : nat) (l : list nat) : list nat :=
  match l with
  | [] => [r]
  | y :: rest =>
      if (priorityOf objs y <? priorityOf objs r)%Z then r :: l
      else y :: insert_desc objs r rest
  end.

Definition sort_desc (objs : gmap nat Task) (l : list nat) : list nat :=
  foldl (fun acc r => insert_desc objs r acc) [] l.

(** [completedAt.getTime() - (startedAt?.getTime() || createdAt.getTime())];
    a start time of [0] is falsy. *)
Definition elapsed (completed : Z) (task : Task) : Z :=
  let start :=
    match startedAt task with
    | Some s => if (s =? 0)%Z then createdAt task else s
    | None => createdAt task
    end in
  (completed - start)%Z.

Definition MAX_DURATIONS : nat := 100.

Definition push_duration (ds : list Z) (d : Z) : list Z :=
  let ds1 := ds ++ [d] in
  if Nat.ltb MAX_DURATIONS (length ds1) then tail ds1 else ds1.

Section Operations.

Variable clock : nat -> Z.

Definition addTask (q : t) (task : TaskSpec) : nat * t :=
  let '(uuid, w1) := World.uuidv4 (world q) in
  let '(now, w2) := World.newDate clock w1 in
  let newTask :=
    {| id := uuid;
       type := spec_type task;
       target := spec_target task;
       marketplace := spec_marketplace task;
       priority := spec_priority task;
       createdAt := now;
       scheduledAt := spec_scheduledAt task;
       startedAt := spec_startedAt task;
       completedAt := spec_completedAt task;
       status := pending;
       retryCount := 0;
       maxRetries := spec_maxRetries task;
       error := spec_error task |} in
  let r := fresh_ref (objects q) in
  let objs := <[r := newTask]> (objects q) in
  (uuid,
   {| objects := objs;
      queue := sort_desc objs (queue q ++ [r]);
      runningTasks := runningTasks q;
      completedTasks := completedTasks q;
      taskDurations := taskDurations q;
      world := w2 |}).

Fixpoint addTasks (q : t) (tasks : list TaskSpec) : list nat * t :=
  match tasks with
  | [] => ([], q)
  | task :: rest =>
      let '(i, q1) := addTask q task in
      let '(ids, q2) := addTasks q1 rest in
      (i :: ids, q2)
  end.

(** Returns the reference of the task handed out, if any.  A queued
    reference always points to an allocated object (see
    [inv_queue_allocated]); the branch for a dangling one is never taken. *)
Definition getNextTask (q : t) : option nat * t :=
  match queue q with
  | [] => (None, q)
  | r :: rest =>
      match objects q !! r with
      | None => (None, q)
      | Some task =>
          let '(now, w1) := World.newDate clock (world q) in
          let task' := set_startedAt (Some now) (set_status running task) in
          (Some r,
           {| objects := <[r := task']> (objects q);
              queue := rest;
              runningTasks := <[id task' := r]> (runningTasks q);
              completedTasks := completedTasks q;
              taskDurations := taskDurations q;
              world := w1 |})
      end
  end.

(** [for (let i = 0; i < count && this.queue.length > 0; i++)]. *)
Fixpoint getNextTasks (q : t) (count : nat) : list nat * t :=
  match count with
  | O => ([], q)
  | S count' =>
      match queue q with
      | [] => ([], q)
      | _ :: _ =>
          let '(task, q1) := getNextTask q in
          let '(tasks, q2) := getNextTasks q1 count' in
          (match task with Some r => r :: tasks | None => tasks end, q2)
      end
  end.

Definition completeTask (q : t) (taskId : nat) (result : TaskOutcome) : t :=
  match runningTasks q !! taskId with
  | None => q
  | Some r =>
      match objects q !! r with
      | None => q
      | Some task =>
          let '(now, w1) := World.newDate clock (world q) in
          let task' := set_completedAt (Some now) (set_status completed task) in
          let duration := elapsed now task' in
          {| objects := <[r := task']> (objects q);
             queue := queue q;
             runningTasks := delete taskId (runningTasks q);
             completedTasks :=
               <[taskId := {| taskId := taskId;
                              success := outcome_success result;
                              data := outcome_data result;
                              result_error := outcome_error result;
                              duration := duration |}]> (completedTasks q);
             taskDurations := push_duration (taskDurations q) duration;
             world := w1 |}
      end
  end.

Definition failTask (q : t) (taskId : nat) (err : string) : t :=
  match runningTasks q !! taskId with
  | None => q
  | Some r =>
      match objects q !! r with
      | None => q
      | Some task =>
          let task1 := set_retryCount (retryCount task + 1)%Z task in
          if (retryCount task1 <? maxRetries task1)%Z then
            let task2 :=
              set_error (Some err) (set_startedAt None (set_status pending task1)) in
            let objs := <[r := task2]> (objects q) in
            {| objects := objs;
               queue := sort_desc objs (queue q ++ [r]);
               runningTasks := delete taskId (runningTasks q);
               completedTasks := completedTasks q;
               taskDurations := taskDurations q;
               world := world q |}
          else
            let '(now, w1) := World.newDate clock (world q) in
            let task2 :=
              set_error (Some err)
                (set_completedAt (Some now) (set_status failed task1)) in
            let duration := elapsed now task2 in
            {| objects := <[r := task2]> (objects q);
               queue := queue q;
               runningTasks := delete taskId (runningTasks q);
               completedTasks :=
                 <[taskId := {| taskId := taskId;
                                success := false;
                                data := None;
                                result_error := Some err;
                                duration := duration |}]> (completedTasks q);
               taskDurations := taskDurations q;
               world := w1 |}
      end
  end.

Definition clearCompleted (q : t) : t :=
  {| objects := objects q; queue := queue q; runningTasks := runningTasks q;
     completedTasks := ∅; taskDurations := taskDurations q; world := world q |}.

Definition clearAll (q : t) : t :=
  {| objects := objects q; queue := []; runningTasks := ∅;
     completedTasks := ∅; taskDurations := []; world := world q |}.

(** The calls a client can make, and a queue driven by a sequence of them. *)
Inductive Call :=
  | AddTask (task : TaskSpec)
  | AddTasks (tasks : list TaskSpec)
  | GetNextTask
  | GetNextTasks (count : nat)
  | CompleteTask (taskId : nat) (result : TaskOutcome)
  | FailTask (taskId : nat) (err : string)
  | ClearCompleted
  | ClearAll.

Definition call (q : t) (c : Call) : t :=
  match c with
  | AddTask task => snd (addTask q task)
  | AddTasks tasks => snd (addTasks q tasks)
  | GetNextTask => snd (getNextTask q)
  | GetNextTasks count => snd (getNextTasks q count)
  | CompleteTask i result => completeTask q i result
  | FailTask i err => failTask q i err
  | ClearCompleted => clearCompleted q
  | ClearAll => clearAll q
  end.

(** The references a call hands out to its caller. *)
Definition dispatched (q : t) (c : Call) : list nat :=
  match c with
  | GetNextTask => match fst (getNextTask q) with Some r => [r] | None => [] end
  | GetNextTasks count => fst (getNextTasks q count)
  | _ => []
  end.

Definition calls (q : t) (cs : list Call) : t := foldl call q cs.

(** The states of a queue created in some world and driven by calls. *)
Inductive reachable : t -> Prop :=
  | reachable_create w : reachable (create w)
  | reachable_call q c : reachable q -> reachable (call q c).

End Operations.

End TaskQueue.

(** ** JavaScript arrays: [slice] and [sort] *)

Module JsArray.

(** [Array.prototype.slice(start)]: a negative [start] counts from the end. *)
Definition slice_from {A} (start : Z) (l : list A) : list A :=
  if (start <? 0)%Z
  then drop (Z.to_nat (Z.max (Z.of_nat (length l) + start) 0)) l
  else drop (Z.to_nat start) l.

(** [Array.prototype.slice(0, stop)]: a negative [stop] counts from the end. *)
Definition slice_to {A} (stop : Z) (l : list A) : list A :=
  if (stop <? 0)%Z
  then take (Z.to_nat (Z.max (Z.of_nat (length l) + stop) 0)) l
  else take (Z.to_nat stop) l.

(** [Array.prototype.sort(compareFn)]: a stable sort.  By insertion: an
    element goes behind every element already placed, except those that
    [compareFn] puts after it. *)
Fixpoint insert_sorted {A} (compareFn : A -> A -> Q) (x : A) (l : list A)
    : list A :=
  match l with
  | [] => [x]
  | y :: rest =>
      if num_gt (compareFn y x) 0 then x :: l
      else y :: insert_sorted compareFn x rest
  end.

Definition sort {A} (compareFn : A -> A -> Q) (l : list A) : list A :=
  foldl (fun acc x => insert_sorted compareFn x acc) [] l.

End JsArray.

(** ** tracker/price-history.ts: queries and clearing

    A marketplace is taken here as the string it is at run time (the tracker
    passes arbitrary strings, cast with [as any]); a typed call passes
    [PriceHistoryManager.code m]. *)

Module PriceHistoryQueries.

Import PriceHistoryManager.

Local Open Scope Q_scope.

(** The template string of [getKey] on the run-time values. *)
Definition getKey (asin marketplace : string) : string :=
  asin +:+ ":" +:+ marketplace.

(** [limit] is falsy when absent and when 0. *)
Definition getPriceHistory (st : t) (asin marketplace : string)
    (limit : option Z) : list PriceHistoryEntry :=
  let key := getKey asin marketplace in
  let history := default [] (history st !! key) in
  match limit with
  | Some n => if (n =? 0)%Z then history else JsArray.slice_from (- n) history
  | None => history
  end.

Definition getLastPrice (st : t) (asin marketplace : string) : option Decimal.t :=
  lastPrices st !! getKey asin marketplace.

Definition clearHistory (st : t) (asin marketplace : string) : t :=
  let key := getKey asin marketplace in
  {| history := delete key (history st);
     lastPrices := delete key (lastPrices st) |}.

Definition clearAllHistory (st : t) : t :=
  {| history := ∅; lastPrices := ∅ |}.

Definition getTrackedProductsCount (st : t) : nat := size (history st).

Section Windowed.

Variable clock : nat -> Z.

(** [d.setDate(d.getDate() - days)]: the instant [days] calendar days before
    the instant [d], in local time. *)
Variable daysBefore : Z -> Z -> Z.

(** [history.filter((entry) => entry.timestamp >= cutoffDate)]. *)
Definition recentEntries (cutoffDate : Z) (history : list PriceHistoryEntry)
    : list PriceHistoryEntry :=
  List.filter (fun entry => (cutoffDate <=? timestamp entry)%Z) history.

Definition getAveragePrice (w : World.t) (st : t) (asin marketplace : string)
    (days : option Z) : option Decimal.t * World.t :=
  let key := getKey asin marketplace in
  match history st !! key with
  | None => (None, w)
  | Some [] => (None, w)
  | Some history =>
      let '(now, w1) := World.newDate clock w in
      let cutoffDate := daysBefore now (default 30%Z days) in
      let recent := recentEntries cutoffDate history in
      match recent with
      | [] => (None, w1)
      | _ :: _ =>
          let sum :=
            foldl (fun acc entry => Decimal.add acc (price entry)) Decimal.zero
              recent in
          (Some (Decimal.div sum (inject_Z (Z.of_nat (length recent)))), w1)
      end
  end.

Definition getLowestPrice (w : World.t) (st : t) (asin marketplace : string)
    (days : option Z) : option Decimal.t * World.t :=
  let key := getKey asin marketplace in
  match history st !! key with
  | None => (None, w)
  | Some [] => (None, w)
  | Some history =>
      let '(now, w1) := World.newDate clock w in
      let cutoffDate := daysBefore now (default 30%Z days) in
      let recent := recentEntries cutoffDate history in
      match recent with
      | [] => (None, w1)
      | first :: _ =>
          (Some (foldl (fun min entry =>
                          if Decimal.lt (price entry) min then price entry else min)
                   (price first) recent), w1)
      end
  end.

Definition getHighestPrice (w : World.t) (st : t) (asin marketplace : string)
    (days : option Z) : option Decimal.t * World.t :=
  let key := getKey asin marketplace in
  match history st !! key with
  | None => (None, w)
  | Some [] => (None, w)
  | Some history =>
      let '(now, w1) := World.newDate clock w in
      let cutoffDate := daysBefore now (default 30%Z days) in
      let recent := recentEntries cutoffDate history in
      match recent with
      | [] => (None, w1)
      | first :: _ =>
          (Some (foldl (fun max entry =>
                          if Decimal.gt (price entry) max then price entry else max)
                   (price first) recent), w1)
      end
  end.

End Windowed.

(** The calls that change a manager, and a manager driven by a sequence of
    them. *)
Inductive Call :=
  | AddPriceEntry (entry : PriceHistoryEntry)
  | ClearHistory (asin marketplace : string)
  | ClearAllHistory.

Definition call (st : t) (c : Call) : t :=
  match c with
  | AddPriceEntry entry => snd (addPriceEntry st entry)
  | ClearHistory asin marketplace => clearHistory st asin marketplace
  | ClearAllHistory => clearAllHistory st
  end.

Definition calls (st : t) (cs : list Call) : t := foldl call st cs.

End PriceHistoryQueries.

(** ** tracker/deal-filter.ts: ordering and selection *)

Module DealRanking.

Local Open Scope Q_scope.

#[global] Instance DealTier_eq_dec : EqDecision DealTier.
Proof. solve_decision. Defined.

(** A direction flag with default [true]. *)
Definition flag (b : option bool) : bool := default true b.

Definition sortByMargin (deals : list Deal.t) (descending : option bool)
    : list Deal.t :=
  JsArray.sort
    (fun a b =>
       if flag descending
       then DealMetrics.margin (Deal.metrics b) - DealMetrics.margin (Deal.metrics a)
       else DealMetrics.margin (Deal.metrics a) - DealMetrics.margin (Deal.metrics b))
    deals.

Definition sortByRoi (deals : list Deal.t) (descending : option bool)
    : list Deal.t :=
  JsArray.sort
    (fun a b =>
       if flag descending
       then DealMetrics.roi (Deal.metrics b) - DealMetrics.roi (Deal.metrics a)
       else DealMetrics.roi (Deal.metrics a) - DealMetrics.roi (Deal.metrics b))
    deals.

Definition sortByProfit (deals : list Deal.t) (descending : option bool)
    : list Deal.t :=
  JsArray.sort
    (fun a b =>
       if flag descending
       then Decimal.toNumber
              (Decimal.minus (DealMetrics.profit (Deal.metrics b))
                 (DealMetrics.profit (Deal.metrics a)))
       else Decimal.toNumber
              (Decimal.minus (DealMetrics.profit (Deal.metrics a))
                 (DealMetrics.profit (Deal.metrics b))))
    deals.

Definition sortByPrice (deals : list Deal.t) (descending : option bool)
    : list Deal.t :=
  JsArray.sort
    (fun a b =>
       if flag descending
       then Decimal.toNumber
              (Decimal.minus (ProductData.price (Deal.product b))
                 (ProductData.price (Deal.product a)))
       else Decimal.toNumber
              (Decimal.minus (ProductData.price (Deal.product a))
                 (ProductData.price (Deal.product b))))
    deals.

Definition sortBySalesRank (deals : list Deal.t) (ascending : option bool)
    : list Deal.t :=
  JsArray.sort
    (fun a b =>
       if flag ascending
       then inject_Z (ProductData.salesRank (Deal.product a)
                      - ProductData.salesRank (Deal.product b))
       else inject_Z (ProductData.salesRank (Deal.product b)
                      - ProductData.salesRank (Deal.product a)))
    deals.

Definition sortByRating (deals : list Deal.t) (descending : option bool)
    : list Deal.t :=
  JsArray.sort
    (fun a b =>
       if flag descending
       then ProductData.rating (Deal.product b) - ProductData.rating (Deal.product a)
       else ProductData.rating (Deal.product a) - ProductData.rating (Deal.product b))
    deals.

(** ['margin' | 'roi' | 'profit']. *)
Inductive SortBy := by_margin | by_roi | by_profit.

Definition getTopDeals (deals : list Deal.t) (count : Z) (sortBy : option SortBy)
    : list Deal.t :=
  let sorted :=
    match default by_margin sortBy with
    | by_margin => sortByMargin deals None
    | by_roi => sortByRoi deals None
    | by_profit => sortByProfit deals None
    end in
  JsArray.slice_to count sorted.

Definition getDealsByTier (deals : list Deal.t) (tier : DealTier) : list Deal.t :=
  List.filter (fun deal => bool_decide (Deal.tier deal = tier)) deals.

Definition getDealsByMarketplace (deals : list Deal.t) (marketplace : string)
    : list Deal.t :=
  List.filter
    (fun deal =>
       String.eqb
         (PriceHistoryManager.code (ProductData.marketplace (Deal.product deal)))
         marketplace)
    deals.

End DealRanking.

(** ** scheduler/task-queue.ts: queries *)

Module TaskQueueQueries.

Import TaskQueue.

Local Open Scope Q_scope.

Definition getQueueLength (q : t) : nat := length (queue q).

Definition getRunningTaskCount (q : t) : nat := size (runningTasks q).

Definition getCompletedTaskCount (q : t) : nat := size (completedTasks q).

(** [this.queue.find((t) => t.id === taskId)], on references. *)
Definition has_id (q : t) (taskId : nat) (r : nat) : bool :=
  match objects q !! r with
  | Some task => Nat.eqb (id task) taskId
  | None => false
  end.

(** Returns the reference of the task, running or pending. *)
Definition getTask (q : t) (taskId : nat) : option nat :=
  match runningTasks q !! taskId with
  | Some r => Some r
  | None => List.find (has_id q taskId) (queue q)
  end.

Definition getTaskResult (q : t) (taskId : nat) : option TaskResult :=
  completedTasks q !! taskId.

Definition getAverageTaskDuration (q : t) : Q :=
  match taskDurations q with
  | [] => 0
  | _ :: _ =>
      let sum := foldl Z.add 0%Z (taskDurations q) in
      inject_Z sum / inject_Z (Z.of_nat (length (taskDurations q)))
  end.

Record Stats := mkStats {
  queueLength : nat;
  stats_runningTasks : nat;
  stats_completedTasks : nat;
  averageDuration : Q
}.

Definition getStats (q : t) : Stats :=
  {| queueLength := length (queue q);
     stats_runningTasks := size (runningTasks q);
     stats_completedTasks := size (completedTasks q);
     averageDuration := getAverageTaskDuration q |}.

End TaskQueueQueries.

(** ** JavaScript [Map], with its entries in insertion order *)

Module JsMap.

Section Operations.

Context {V : Type}.

Definition has_key (key : string) (kv : string * V) : bool :=
  String.eqb (fst kv) key.

Definition get (m : list (string * V)) (key : string) : option V :=
  snd <$> List.find (has_key key) m.

(** [set] on a key that is present replaces the value where it stands; a new
    key goes to the end. *)
Fixpoint set (m : list (string * V)) (key : string) (v : V)
    : list (string * V) :=
  match m with
  | [] => [(key, v)]
  | kv :: rest =>
      if has_key key kv then (fst kv, v) :: rest else kv :: set rest key v
  end.

Definition delete (m : list (string * V)) (key : string) : list (string * V) :=
  List.filter (fun kv => negb (has_key key kv)) m.

Definition values (m : list (string * V)) : list V := snd <$> m.

End Operations.

End JsMap.

(** ** tracker/tracker.ts

    The tracker owns a price history manager and a [Map] of deals.  Its
    configuration is stored by the constructor and never read, and its
    marketplace arguments are plain strings. *)

Module DealTracker.

Import PriceHistoryManager.

Record t := mk {
  priceHistoryManager : PriceHistoryManager.t;
  trackedDeals : list (string * Deal.t)
}.

(** [new DealTracker(config)]. *)
Definition create : t :=
  {| priceHistoryManager := PriceHistoryManager.empty; trackedDeals := [] |}.

Definition getDealKey (deal : Deal.t) : string :=
  ProductData.asin (Deal.product deal) +:+ ":"
  +:+ code (ProductData.marketplace (Deal.product deal)).

Definition trackProduct (tr : t) (product : ProductData.t)
    : option PriceChangeAlert * t :=
  let entry :=
    {| asin := ProductData.asin product;
       marketplace := ProductData.marketplace product;
       price := ProductData.price product;
       timestamp := ProductData.timestamp product |} in
  let '(alert, manager) := addPriceEntry (priceHistoryManager tr) entry in
  (alert, {| priceHistoryManager := manager; trackedDeals := trackedDeals tr |}).

Definition trackDeal (tr : t) (deal : Deal.t) : t :=
  let key := getDealKey deal in
  let tr1 :=
    {| priceHistoryManager := priceHistoryManager tr;
       trackedDeals := JsMap.set (trackedDeals tr) key deal |} in
  snd (trackProduct tr1 (Deal.product deal)).

Definition getDeal (tr : t) (asin marketplace : string) : option Deal.t :=
  let key := asin +:+ ":" +:+ marketplace in
  JsMap.get (trackedDeals tr) key.

Definition getAllDeals (tr : t) : list Deal.t := JsMap.values (trackedDeals tr).

Definition getPriceHistory (tr : t) (asin marketplace : string)
    (limit : option Z) : list PriceHistoryEntry :=
  PriceHistoryQueries.getPriceHistory (priceHistoryManager tr) asin marketplace
    limit.

Definition getLastPrice (tr : t) (asin marketplace : string)
    : option Decimal.t :=
  PriceHistoryQueries.getLastPrice (priceHistoryManager tr) asin marketplace.

Definition filterDeals (tr : t) (filter : DealFilter.t) : list Deal.t :=
  DealFilterManager.filter (getAllDeals tr) filter.

(** [sortBy] defaults to ['margin']. *)
Definition getTopDeals (tr : t) (count : Z) (sortBy : option DealRanking.SortBy)
    : list Deal.t :=
  DealRanking.getTopDeals (getAllDeals tr) count
    (Some (default DealRanking.by_margin sortBy)).

Definition getDealsByTier (tr : t) (tier : DealTier) : list Deal.t :=
  DealRanking.getDealsByTier (getAllDeals tr) tier.

Definition getDealsByMarketplace (tr : t) (marketplace : string)
    : list Deal.t :=
  DealRanking.getDealsByMarketplace (getAllDeals tr) marketplace.

Definition clearDeal (tr : t) (asin marketplace : string) : t :=
  let key := asin +:+ ":" +:+ marketplace in
  {| priceHistoryManager :=
       PriceHistoryQueries.clearHistory (priceHistoryManager tr) asin marketplace;
     trackedDeals := JsMap.delete (trackedDeals tr) key |}.

Definition clearAllDeals (tr : t) : t :=
  {| priceHistoryManager :=
       PriceHistoryQueries.clearAllHistory (priceHistoryManager tr);
     trackedDeals := [] |}.

Definition getTrackedDealsCount (tr : t) : nat := length (trackedDeals tr).

Definition getTrackedProductsCount (tr : t) : nat :=
  PriceHistoryQueries.getTrackedProductsCount (priceHistoryManager tr).

Section Windowed.

Variable clock : nat -> Z.
Variable daysBefore : Z -> Z -> Z.

(** [days] defaults to 30. *)
Definition getAveragePrice (w : World.t) (tr : t) (asin marketplace : string)
    (days : option Z) : option Decimal.t * World.t :=
  PriceHistoryQueries.getAveragePrice clock daysBefore w (priceHistoryManager tr)
    asin marketplace (Some (default 30%Z days)).

Definition getLowestPrice (w : World.t) (tr : t) (asin marketplace : string)
    (days : option Z) : option Decimal.t * World.t :=
  PriceHistoryQueries.getLowestPrice clock daysBefore w (priceHistoryManager tr)
    asin marketplace (Some (default 30%Z days)).

Definition getHighestPrice (w : World.t) (tr : t) (asin marketplace : string)
    (days : option Z) : option Decimal.t * World.t :=
  PriceHistoryQueries.getHighestPrice clock daysBefore w (priceHistoryManager tr)
    asin marketplace (Some (default 30%Z days)).

End Windowed.

(** The calls that change a tracker, and a tracker driven by a sequence of
    them. *)
Inductive Call :=
  | TrackProduct (product : ProductData.t)
  | TrackDeal (deal : Deal.t)
  | ClearDeal (asin marketplace : string)
  | ClearAllDeals.

Definition call (tr : t) (c : Call) : t :=
  match c with
  | TrackProduct product => snd (trackProduct tr product)
  | TrackDeal deal => trackDeal tr deal
  | ClearDeal asin marketplace => clearDeal tr asin marketplace
  | ClearAllDeals => clearAllDeals tr
  end.

Definition calls (tr : t) (cs : list Call) : t := foldl call tr cs.

End DealTracker.

(** * The vocabulary of the properties

    What the statements below are written in: the specification's own
    notions, stated next to the code they are compared with, and the
    concrete inputs of the examples. *)

Section FeeCalculatorTerms.

Local Open Scope Q_scope.
Import FeeCalculator.

(** The five itemized fields of a breakdown, summed. *)
Definition itemized_sum (fb : FeeBreakdown.t) : Q :=
  FeeBreakdown.referralFee fb + FeeBreakdown.fulfillmentFee fb
  + FeeBreakdown.storageFee fb + FeeBreakdown.vat fb
  + FeeBreakdown.shippingCost fb.

(** The media listing of the unit test "should include closing fee for media
    products". *)
Definition media_listing : FeeCalculationParams :=
  {| salePrice := 100; category := "default"; fulfillmentType := FBA;
     marketplace := DE; productWeight := None; productDimensions := None;
     isMedia := Some true |}.

End FeeCalculatorTerms.

Section DealClassifierTerms.

Local Open Scope Q_scope.
Import DealClassifier.

(** A band in the specification's words: both lower bounds are reached and
    no configured upper bound is exceeded. *)
Definition band_satisfied (config : DealTierConfig.t) (margin roi : Q) : Prop :=
  DealTierConfig.minMargin config <= margin
  /\ (forall mx, DealTierConfig.maxMargin config = Some mx -> margin <= mx)
  /\ DealTierConfig.minRoi config <= roi
  /\ (forall mx, DealTierConfig.maxRoi config = Some mx -> roi <= mx).

Definition band_satisfiedb (config : DealTierConfig.t) (margin roi : Q) : bool :=
  Qle_bool (DealTierConfig.minMargin config) margin
  && match DealTierConfig.maxMargin config with
     | Some mx => Qle_bool margin mx
     | None => true
     end
  && Qle_bool (DealTierConfig.minRoi config) roi
  && match DealTierConfig.maxRoi config with
     | Some mx => Qle_bool roi mx
     | None => true
     end.

(** The first tier, in the order high, medium, low, whose band is satisfied. *)
Definition first_satisfied (tierConfigs : DealTier -> DealTierConfig.t)
    (margin roi : Q) : option DealTier :=
  List.find (fun tier => band_satisfiedb (tierConfigs tier) margin roi)
    [high; medium; low].

Definition mk_deal (margin roi : Q) : Deal.t :=
  {| Deal.id := 0;
     Deal.product :=
       ProductData.mk "B08N5WRWNW" DE "Test Product" 100 "EUR" true (45 # 10)
         100 1000 "Amazon" true None "https://www.amazon.de/dp/B08N5WRWNW" 0;
     Deal.metrics := DealMetrics.mk 100 50 20 30 margin roi;
     Deal.feeBreakdown := FeeBreakdown.mk 15 3 (5 # 10) 19 0 20;
     Deal.tier := low;
     Deal.fulfillmentType := FBA;
     Deal.detectedAt := 0 |}.

(** Overlapping bands: every tier accepts margin 60 and ROI 200, and the
    highest tier wins. *)
Definition overlapping_bands (tier : DealTier) : DealTierConfig.t :=
  match tier with
  | high => DealTierConfig.mk 50 None 150 None "high-role" 65280
  | medium => DealTierConfig.mk 35 None 100 None "medium-role" 16776960
  | low => DealTierConfig.mk 25 None 50 None "low-role" 16711680
  end.

End DealClassifierTerms.

Section DealFilterTerms.

Local Open Scope Q_scope.
Import DealFilterManager.

(** The seven criteria, each as a proposition about one deal. *)
Definition meets_criteria (deal : Deal.t) (f : DealFilter.t) : Prop :=
  DealFilter.minMargin f <= DealMetrics.margin (Deal.metrics deal)
  /\ DealFilter.minRoi f <= DealMetrics.roi (Deal.metrics deal)
  /\ DealFilter.minProfit f <= DealMetrics.profit (Deal.metrics deal)
  /\ ProductData.price (Deal.product deal) <= DealFilter.maxPrice f
  /\ DealFilter.minRating f <= ProductData.rating (Deal.product deal)
  /\ ((DealFilter.maxSalesRank f <= 0)%Z
      \/ (ProductData.salesRank (Deal.product deal) <= DealFilter.maxSalesRank f)%Z)
  /\ ProductData.marketplace (Deal.product deal) ∈ DealFilter.marketplaces f.

(** [f'] is [f] with a single criterion weakened: a lower bound lowered, the
    price bound raised, the rank bound raised or lifted (any value [<= 0],
    in particular 0, is "unbounded"), or marketplaces added. *)
Inductive weakens (f : DealFilter.t) : DealFilter.t -> Prop :=
  | weaken_minMargin m :
      m <= DealFilter.minMargin f ->
      weakens f
        (DealFilter.mk m (DealFilter.minRoi f) (DealFilter.minProfit f)
           (DealFilter.maxPrice f) (DealFilter.minRating f)
           (DealFilter.maxSalesRank f) (DealFilter.marketplaces f))
  | weaken_minRoi m :
      m <= DealFilter.minRoi f ->
      weakens f
        (DealFilter.mk (DealFilter.minMargin f) m (DealFilter.minProfit f)
           (DealFilter.maxPrice f) (DealFilter.minRating f)
           (DealFilter.maxSalesRank f) (DealFilter.marketplaces f))
  | weaken_minProfit m :
      m <= DealFilter.minProfit f ->
      weakens f
        (DealFilter.mk (DealFilter.minMargin f) (DealFilter.minRoi f) m
           (DealFilter.maxPrice f) (DealFilter.minRating f)
           (DealFilter.maxSalesRank f) (DealFilter.marketplaces f))
  | weaken_maxPrice m :
      DealFilter.maxPrice f <= m ->
      weakens f
        (DealFilter.mk (DealFilter.minMargin f) (DealFilter.minRoi f)
           (DealFilter.minProfit f) m (DealFilter.minRating f)
           (DealFilter.maxSalesRank f) (DealFilter.marketplaces f))
  | weaken_minRating m :
      m <= DealFilter.minRating f ->
      weakens f
        (DealFilter.mk (DealFilter.minMargin f) (DealFilter.minRoi f)
           (DealFilter.minProfit f) (DealFilter.maxPrice f) m
           (DealFilter.maxSalesRank f) (DealFilter.marketplaces f))
  | weaken_maxSalesRank n :
      (n <= 0 \/ 0 < DealFilter.maxSalesRank f <= n)%Z ->
      weakens f
        (DealFilter.mk (DealFilter.minMargin f) (DealFilter.minRoi f)
           (DealFilter.minProfit f) (DealFilter.maxPrice f)
           (DealFilter.minRating f) n (DealFilter.marketplaces f))
  | weaken_marketplaces l :
      DealFilter.marketplaces f ⊆ l ->
      weakens f
        (DealFilter.mk (DealFilter.minMargin f) (DealFilter.minRoi f)
           (DealFilter.minProfit f) (DealFilter.maxPrice f)
           (DealFilter.minRating f) (DealFilter.maxSalesRank f) l).

(** The filter of the unit test "should filter deals by maximum sales rank"
    and the same filter with the rank criterion removed. *)
Definition rank_filter : DealFilter.t :=
  DealFilter.mk 0 0 0 1000 0 1000 [DE; FR; IT; ES].

Definition no_rank_filter : DealFilter.t :=
  DealFilter.mk 0 0 0 1000 0 0 [DE; FR; IT; ES].

Definition ranked_deal (salesRank : Z) : Deal.t :=
  {| Deal.id := 0;
     Deal.product :=
       ProductData.mk "B08N5WRWNW" DE "Test Product" 100 "EUR" true (45 # 10)
         100 salesRank "Amazon" true None "https://www.amazon.de/dp/B08N5WRWNW" 0;
     Deal.metrics := DealMetrics.mk 100 50 20 30 30 150;
     Deal.feeBreakdown := FeeBreakdown.mk 15 3 (5 # 10) 19 0 20;
     Deal.tier := high;
     Deal.fulfillmentType := FBA;
     Deal.detectedAt := 0 |}.

End DealFilterTerms.

Section AnalyzeBatchTerms.

Import DealAnalyzer.
Variable clock : nat -> Z.
Variable tierConfigs : DealTier -> DealTierConfig.t.

(** [analyze] applied to each product with its options, one after the other,
    each call in the environment its predecessors left, up to the first
    call that throws. *)
Fixpoint analyze_each (env : Env) (pairs : list (ProductData.t * AnalysisOptions))
    : Env * (Error + list Deal.t) :=
  match pairs with
  | [] => (env, inr [])
  | (product, options) :: rest =>
      match analyze clock tierConfigs env product options with
      | (env1, inl e) => (env1, inl e)
      | (env1, inr deal) =>
          match analyze_each env1 rest with
          | (env2, inr deals) => (env2, inr (deal :: deals))
          | (env2, inl e) => (env2, inl e)
          end
      end
  end.

(** The category that [analyze] reads from the options. *)
Definition category_of (options : AnalysisOptions) : string :=
  default "default"%string (category options).

(** The options whose category names no property inherited from
    [Object.prototype]. *)
Definition plain_category (options : AnalysisOptions) : Prop :=
  FeeCalculator.inherited_name (category_of options) = false.

End AnalyzeBatchTerms.

Section PriceHistoryTerms.

Local Open Scope Q_scope.
Import PriceHistoryManager.

(** The entries recorded for one (asin, marketplace), in call order. *)
Definition entries_for (a : string) (m : MarketplaceCode)
    (entries : list PriceHistoryEntry) : list PriceHistoryEntry :=
  base.filter (fun e => asin e = a /\ marketplace e = m) entries.

(** The price of the latest earlier observation of (asin, marketplace). *)
Definition prior_price (entries : list PriceHistoryEntry) (a : string)
    (m : MarketplaceCode) : option Decimal.t :=
  price <$> last (entries_for a m entries).

(** The [n] most recent elements of a series, oldest first. *)
Definition most_recent {A} (n : nat) (l : list A) : list A :=
  drop (length l - n) l.

End PriceHistoryTerms.

Section TaskQueueTerms.

Import TaskQueue.

(** The identifiers of the pending tasks, in queue order. *)
Definition pending_ids (q : t) : list nat :=
  omap (fun r => id <$> objects q !! r) (queue q).

Definition allocated (q : t) (r : nat) : Prop := is_Some (objects q !! r).

(** A reference is live when the queue still holds it, pending or running. *)
Definition live (q : t) (r : nat) : Prop :=
  r ∈ queue q \/ exists i, runningTasks q !! i = Some r.

(** The invariant of the queue: pending references are distinct and point
    to pending tasks whose identifier is not running; the running map sends
    an identifier to a running task that carries it and is not pending;
    identifiers come from the world's generator and are distinct. *)
Record inv (q : t) : Prop := mk_inv {
  inv_queue_nodup : NoDup (queue q);
  inv_queue_allocated : forall r,
    r ∈ queue q ->
    exists task, objects q !! r = Some task /\ status task = pending
                 /\ runningTasks q !! id task = None;
  inv_running : forall i r,
    runningTasks q !! i = Some r ->
    exists task, objects q !! r = Some task /\ id task = i
                 /\ status task = running /\ r ∉ queue q;
  inv_ids_issued : forall r task,
    objects q !! r = Some task -> id task < World.uuids (world q);
  inv_ids_distinct : forall r1 r2 t1 t2,
    objects q !! r1 = Some t1 -> objects q !! r2 = Some t2 ->
    id t1 = id t2 -> r1 = r2
}.

(** [q'] continues [q]: the invariant holds, no object is lost, and every
    live reference was live before or is newly allocated. *)
Definition continues (q q' : t) : Prop :=
  inv q'
  /\ (forall r, allocated q r -> allocated q' r)
  /\ (forall r, live q' r -> live q r \/ ~ allocated q r).

(** The calls that dequeue. *)
Definition is_dequeue (c : Call) : bool :=
  match c with
  | GetNextTask | GetNextTasks _ => true
  | _ => false
  end.

End TaskQueueTerms.

Section ScenarioTerms.

Import TaskQueue.

(** A clock that ticks one second per reading, starting at one second. *)
Definition sample_clock (n : nat) : Z := 1000 * Z.of_nat (S n).

Definition sample_task (priority maxRetries : Z) : TaskSpec :=
  mkSpec product "B08N5WRWNW" DE priority None None None maxRetries None.

(** A queue whose single task, allowed [maxRetries] retries, has been
    dequeued and is running under identifier 0. *)
Definition one_running (maxRetries : Z) : t :=
  calls sample_clock (create (World.mk 0 0))
    [AddTask (sample_task 1 maxRetries); GetNextTask].

(** Two pending tasks and one running. *)
Definition busy_queue : t :=
  calls sample_clock (create (World.mk 0 0))
    [AddTask (sample_task 1 3); AddTask (sample_task 5 3);
     AddTask (sample_task 5 3); GetNextTask].

Definition sample_product (p : Decimal.t) : ProductData.t :=
  ProductData.mk "B08N5WRWNW" DE "Test Product" p "EUR" true (45 # 10)%Q
    100 1000 "Amazon" true None "https://www.amazon.de/dp/B08N5WRWNW" 0.

Definition sample_options (cost : Decimal.t) : DealAnalyzer.AnalysisOptions :=
  DealAnalyzer.mkOptions cost FBA (Some "default"%string) None None None.

(** Options whose category is the name of an inherited property. *)
Definition inherited_options (cost : Decimal.t) : DealAnalyzer.AnalysisOptions :=
  DealAnalyzer.mkOptions cost FBA (Some "constructor"%string) None None None.

Definition sample_env : DealAnalyzer.Env :=
  DealAnalyzer.mkEnv (World.mk 0 0) [].

End ScenarioTerms.

Section FeeCalculatorMoreTerms.

Local Open Scope Q_scope.

(** No edge of the package is negative. *)
Definition dims_nonneg (dimensions : option Dimensions.t) : Prop :=
  match dimensions with
  | Some d =>
      0 <= Dimensions.length d /\ 0 <= Dimensions.width d
      /\ 0 <= Dimensions.height d
  | None => True
  end.

(** A package of 30 x 20 x 10 cm. *)
Definition sample_box : Dimensions.t := Dimensions.mk 30 20 10.

End FeeCalculatorMoreTerms.

Section AnalyzeMoreTerms.

Import DealAnalyzer.

(** The debug line that [analyze] writes for the deal it returns. *)
Definition line_of (deal : Deal.t) : LogLine :=
  mkLog (ProductData.asin (Deal.product deal)) (Deal.tier deal)
    (DealMetrics.margin (Deal.metrics deal)) (DealMetrics.roi (Deal.metrics deal)).

(** How many options come before the first one whose category names an
    inherited property. *)
Fixpoint plain_prefix (optionsList : list AnalysisOptions) : nat :=
  match optionsList with
  | [] => 0
  | options :: rest =>
      if FeeCalculator.inherited_name (category_of options) then 0
      else S (plain_prefix rest)
  end.

End AnalyzeMoreTerms.

Section PriceHistoryMoreTerms.

Import PriceHistoryManager.

Local Open Scope Q_scope.

(** The distinct (asin, marketplace) pairs observed, in order of first
    appearance from the end. *)
Definition observed_keys (entries : list PriceHistoryEntry)
    : list (string * MarketplaceCode) :=
  remove_dups ((fun e => (asin e, marketplace e)) <$> entries).

(** Every key with a stored series has a last price, the price of the last
    entry of the series, and no stored series is empty. *)
Definition coherent (st : t) : Prop :=
  forall key,
    lastPrices st !! key = (history st !! key) ≫= (fun h => price <$> last h)
    /\ history st !! key <> Some [].

(** The prices, by timestamp, of a series. *)
Definition sample_series : list PriceHistoryEntry :=
  [mkEntry "B08N5WRWNW" DE 100 1%Z; mkEntry "B08N5WRWNW" DE 90 2%Z;
   mkEntry "B08N5WRWNW" DE 95 3%Z].

End PriceHistoryMoreTerms.

Section DealRankingTerms.

Local Open Scope Q_scope.

Import DealRanking.

(** The six orderings of deals, and the number each one compares. *)
Inductive Metric := Margin | Roi | Profit | Price | SalesRank | Rating.

Definition metric_value (metric : Metric) (deal : Deal.t) : Q :=
  match metric with
  | Margin => DealMetrics.margin (Deal.metrics deal)
  | Roi => DealMetrics.roi (Deal.metrics deal)
  | Profit => DealMetrics.profit (Deal.metrics deal)
  | Price => ProductData.price (Deal.product deal)
  | SalesRank => inject_Z (ProductData.salesRank (Deal.product deal))
  | Rating => ProductData.rating (Deal.product deal)
  end.

Definition sortBy (metric : Metric) (deals : list Deal.t) (direction : option bool)
    : list Deal.t :=
  match metric with
  | Margin => sortByMargin deals direction
  | Roi => sortByRoi deals direction
  | Profit => sortByProfit deals direction
  | Price => sortByPrice deals direction
  | SalesRank => sortBySalesRank deals direction
  | Rating => sortByRating deals direction
  end.

(** Whether the result runs from the largest value to the smallest: the
    flag of [sortBySalesRank] asks for ascending order, the flag of the
    others for descending order, and both default to [true]. *)
Definition runs_descending (metric : Metric) (direction : option bool) : bool :=
  match metric with
  | SalesRank => negb (flag direction)
  | _ => flag direction
  end.

(** [a] may stand before [b]. *)
Definition in_order (metric : Metric) (descending : bool) (a b : Deal.t) : Prop :=
  if descending then metric_value metric b <= metric_value metric a
  else metric_value metric a <= metric_value metric b.

(** The deals whose value is [v], in list order. *)
Definition with_value (metric : Metric) (v : Q) (deals : list Deal.t)
    : list Deal.t :=
  List.filter (fun deal => Qeq_bool (metric_value metric deal) v) deals.

Definition metric_of (sortBy : option SortBy) : Metric :=
  match default by_margin sortBy with
  | by_margin => Margin
  | by_roi => Roi
  | by_profit => Profit
  end.

(** The rank a sort works with: the value, negated for a descending run. *)
Definition rank_of (metric : Metric) (descending : bool) (deal : Deal.t) : Q :=
  if descending then - metric_value metric deal else metric_value metric deal.

(** The deals of the ranking examples: margins 20, 40, 30 and 40. *)
Definition sample_deals : list Deal.t :=
  [mk_deal 20 100; mk_deal 40 250; mk_deal 30 150; mk_deal 40 200].

End DealRankingTerms.

Section TaskQueueMoreTerms.

Import TaskQueue.

(** What can happen to a queue, one task at a time. *)
Inductive Event :=
  | Added | Started | Completed | Requeued | Failed
  | ClearedCompleted | ClearedAll.

Definition is_clear (ev : Event) : bool :=
  match ev with
  | ClearedCompleted | ClearedAll => true
  | _ => false
  end.

Definition is_clear_call (c : Call) : bool :=
  match c with
  | ClearCompleted | ClearAll => true
  | _ => false
  end.

Section Transitions.

Variable clock : nat -> Z.

(** One effective step of a queue: a call that found its task. *)
Inductive transition : t -> Event -> t -> Prop :=
  | tr_added q task :
      transition q Added (snd (addTask clock q task))
  | tr_started q r rest task :
      queue q = r :: rest -> objects q !! r = Some task ->
      transition q Started (snd (getNextTask clock q))
  | tr_completed q i r task result :
      runningTasks q !! i = Some r -> objects q !! r = Some task ->
      transition q Completed (completeTask clock q i result)
  | tr_requeued q i r task err :
      runningTasks q !! i = Some r -> objects q !! r = Some task ->
      (retryCount task + 1 < maxRetries task)%Z ->
      transition q Requeued (failTask clock q i err)
  | tr_failed q i r task err :
      runningTasks q !! i = Some r -> objects q !! r = Some task ->
      (maxRetries task <= retryCount task + 1)%Z ->
      transition q Failed (failTask clock q i err)
  | tr_clearedCompleted q :
      transition q ClearedCompleted (clearCompleted q)
  | tr_clearedAll q :
      transition q ClearedAll (clearAll q).

Inductive trace : t -> list Event -> t -> Prop :=
  | trace_nil q : trace q [] q
  | trace_cons q ev q1 evs q2 :
      transition q ev q1 -> trace q1 evs q2 -> trace q (ev :: evs) q2.

End Transitions.

(** [this.queue.sort((a, b) => b.priority - a.priority)]: the comparator on
    references, and the rank it orders by. *)
Definition priority_compare (objs : gmap nat Task) (a b : nat) : Q :=
  inject_Z (priorityOf objs b - priorityOf objs a).

Definition priority_rank (objs : gmap nat Task) (r : nat) : Q :=
  (- inject_Z (priorityOf objs r))%Q.

(** A task with higher priority stands before one with lower priority. *)
Definition by_priority (q : t) (r1 r2 : nat) : Prop :=
  (priorityOf (objects q) r2 <= priorityOf (objects q) r1)%Z.

(** The tasks the queue holds or has a result for are as many as the
    [Task] objects it has created. *)
Definition accounted (q : t) : Prop :=
  length (queue q) + size (runningTasks q) + size (completedTasks q)
  = size (objects q).

(** A stored result belongs to an identifier that has been issued and is
    neither running nor pending. *)
Definition settled (q : t) : Prop :=
  forall i,
    is_Some (completedTasks q !! i) ->
    i < World.uuids (world q) /\ runningTasks q !! i = None
    /\ i ∉ pending_ids q.

(** One [Task] object has been created per identifier issued since the
    world [w]. *)
Definition issued_since (w : World.t) (q : t) : Prop :=
  World.uuids (world q) = World.uuids w + size (objects q).

(** A pending or running task has never failed or has failed fewer than
    [maxRetries] times. *)
Definition retries_left (q : t) : Prop :=
  forall r task,
    live q r -> objects q !! r = Some task ->
    (0 <= retryCount task)%Z
    /\ (retryCount task = 0 \/ retryCount task < maxRetries task)%Z.

End TaskQueueMoreTerms.

Section DealTrackerTerms.

Import DealTracker.

(** The keys of the tracked deals, in insertion order. *)
Definition tracked_keys (tr : t) : list string := fst <$> trackedDeals tr.

(** Every tracked deal stands under its own key, once, and its product has
    a price series. *)
Record well_keyed (tr : t) : Prop := mk_well_keyed {
  wk_coherent : coherent (priceHistoryManager tr);
  wk_nodup : NoDup (tracked_keys tr);
  wk_own_key : forall key deal,
    (key, deal) ∈ trackedDeals tr ->
    key = getDealKey deal
    /\ is_Some (PriceHistoryManager.history (priceHistoryManager tr) !! key)
}.

End DealTrackerTerms.

Section FurtherScenarioTerms.

Import TaskQueue.

Definition sample_outcome : TaskOutcome := mkOutcome true None None 0.

(** A task that has failed once of its three tries and is pending again. *)
Definition retried_queue : t :=
  calls sample_clock (create (World.mk 0 0))
    [AddTask (sample_task 1 3); GetNextTask; FailTask 0 "timeout"].

Definition retried_task : Task :=
  mkTask 0 product "B08N5WRWNW" DE 1 1000 None None None pending 1 3
    (Some "timeout"%string).

(** The i-th task added, dequeued and completed. *)
Definition round (i : nat) : list Call :=
  [AddTask (sample_task 1 3); GetNextTask; CompleteTask i sample_outcome].

(** A queue that has completed a hundred tasks and runs one more. *)
Definition worked_queue : t :=
  calls sample_clock (create (World.mk 0 0))
    (flat_map round (seq 0 100) ++ [AddTask (sample_task 1 3); GetNextTask]).

End FurtherScenarioTerms.

(** * Properties *)

(** ** Comparisons on decimals and numbers *)

Section ComparisonFacts.

Local Open Scope Q_scope.

Lemma Decimal_gt_spec x y : Decimal.gt x y = true <-> y < x.
Proof.
  unfold Decimal.gt. rewrite negb_true_iff, <- not_true_iff_false, Qle_bool_iff.
  split; [apply Qnot_le_lt | apply Qlt_not_le].
Qed.

Lemma Decimal_gt_false x y : Decimal.gt x y = false <-> x <= y.
Proof. unfold Decimal.gt. rewrite negb_false_iff. apply Qle_bool_iff. Qed.

Lemma Decimal_lt_spec x y : Decimal.lt x y = true <-> x < y.
Proof. apply (Decimal_gt_spec y x). Qed.

Lemma Decimal_lt_false x y : Decimal.lt x y = false <-> y <= x.
Proof. apply (Decimal_gt_false y x). Qed.

Lemma Decimal_equals_spec x y : Decimal.equals x y = true <-> x == y.
Proof. apply Qeq_bool_iff. Qed.

Lemma Decimal_equals_false x y : Decimal.equals x y = false <-> ~ x == y.
Proof. rewrite <- not_true_iff_false, Decimal_equals_spec. tauto. Qed.

Lemma num_lt_spec x y : num_lt x y = true <-> x < y.
Proof. apply Decimal_lt_spec. Qed.

Lemma num_lt_false x y : num_lt x y = false <-> y <= x.
Proof. apply Decimal_lt_false. Qed.

Lemma num_gt_spec x y : num_gt x y = true <-> y < x.
Proof. apply Decimal_gt_spec. Qed.

Lemma num_gt_false x y : num_gt x y = false <-> x <= y.
Proof. apply Decimal_gt_false. Qed.

End ComparisonFacts.

(** ** Fee calculator *)

Section FeeCalculatorFacts.

Local Open Scope Q_scope.

Import FeeCalculator.

Lemma lookup_rate_In table key r :
  lookup_rate table key = Some r -> In r (List.map snd table).
Proof.
  induction table as [|[k r0] rest IH]; simpl; [discriminate|].
  destruct (String.eqb k key); [intros [= ->]; by left | auto].
Qed.

Lemma REFERRAL_FEES_range r :
  In r (List.map snd REFERRAL_FEES) ->
  7 # 100 <= r /\ r <= 17 # 100 /\ Qeq_bool r 0 = false.
Proof.
  cbn [List.map REFERRAL_FEES snd In]. intros H.
  repeat (destruct H as [<-|H];
          [repeat apply conj; [lra | lra | reflexivity]|]).
  contradiction.
Qed.

(** No inherited name is a key of the table. *)
Lemma lookup_rate_inherited key :
  inherited_name key = true -> lookup_rate REFERRAL_FEES key = None.
Proof.
  unfold inherited_name. rewrite existsb_exists. intros (name & Hin & Heq).
  apply String.eqb_eq in Heq. subst name.
  cbn [Object_prototype In] in Hin.
  repeat (destruct Hin as [<-|Hin]; [reflexivity|]). contradiction.
Qed.

(** On a category that names no inherited property the expression yields a
    number: the listed rate, or the default. *)
Lemma getReferralFeeRate_own category :
  inherited_name category = false ->
  getReferralFeeRate category
  = Number (default (15 # 100) (lookup_rate REFERRAL_FEES category)).
Proof.
  intros Hown. unfold getReferralFeeRate, get. rewrite Hown.
  destruct (lookup_rate REFERRAL_FEES category) as [r|] eqn:E; [|reflexivity].
  destruct (REFERRAL_FEES_range r (lookup_rate_In _ _ _ E)) as (_ & _ & ->).
  reflexivity.
Qed.

(** On an inherited name it yields the inherited member. *)
Lemma getReferralFeeRate_inherited category :
  inherited_name category = true ->
  getReferralFeeRate category = Inherited category.
Proof.
  intros Hinh. unfold getReferralFeeRate, get.
  by rewrite (lookup_rate_inherited _ Hinh), Hinh.
Qed.

(** [calculateFees] returns a breakdown exactly on the categories that name
    no inherited property. *)
Lemma calculateFees_returns params :
  inherited_name (category params) = false ->
  exists fb, calculateFees params = inr fb.
Proof.
  intros Hown. unfold calculateFees.
  rewrite (getReferralFeeRate_own _ Hown). eauto.
Qed.

Lemma calculateFees_throws params :
  inherited_name (category params) = true ->
  calculateFees params = inl (InvalidArgument (Inherited (category params))).
Proof.
  intros Hinh. unfold calculateFees.
  by rewrite (getReferralFeeRate_inherited _ Hinh).
Qed.

(** C1, as stated, fails: for a media product the total of the breakdown
    returned exceeds the sum of its five itemized fields by the closing
    fee. *)
Lemma calculateFees_total_media_counterexample :
  ~ (forall (params : FeeCalculationParams) (fb : FeeBreakdown.t),
       calculateFees params = inr fb ->
       FeeBreakdown.total fb == itemized_sum fb).
Proof.
  intros H. specialize (H media_listing _ eq_refl).
  vm_compute in H. discriminate H.
Qed.

(** C1, amended: the total of every breakdown returned is the sum of the
    five itemized fields plus the closing fee, which is 0.99 for a media
    product and 0 otherwise. *)
Theorem calculateFees_total_with_closing_fee (params : FeeCalculationParams)
    (fb : FeeBreakdown.t) (Hfb : calculateFees params = inr fb) :
  FeeBreakdown.total fb
  == itemized_sum fb + (if truthy (isMedia params) then 99 # 100 else 0).
Proof.
  unfold calculateFees in Hfb.
  destruct (getReferralFeeRate (category params)) as [rate| |];
    [|discriminate..].
  injection Hfb as <-.
  unfold itemized_sum, closingFee, Decimal.add, Decimal.zero.
  simpl. destruct (truthy (isMedia params)).
  - destruct (marketplace params); simpl; ring.
  - ring.
Qed.

Lemma calculateFees_total_with_closing_fee_witness :
  exists fb,
    calculateFees media_listing = inr fb
    /\ FeeBreakdown.total fb == itemized_sum fb + (99 # 100).
Proof.
  eexists. split; [reflexivity|].
  apply (calculateFees_total_with_closing_fee media_listing). reflexivity.
Defined.

End FeeCalculatorFacts.

(** ** Deal classifier *)

Section DealClassifierFacts.

Local Open Scope Q_scope.

Import DealClassifier.

Lemma band_satisfiedb_spec config margin roi :
  band_satisfiedb config margin roi = true <-> band_satisfied config margin roi.
Proof.
  unfold band_satisfiedb, band_satisfied.
  rewrite !andb_true_iff, !Qle_bool_iff.
  destruct (DealTierConfig.maxMargin config) as [mm|],
           (DealTierConfig.maxRoi config) as [mr|];
    rewrite ?Qle_bool_iff; split.
  all: try (intros [[[H1 H2] H3] H4]; repeat split; try assumption;
            intros ? [= <-]; assumption).
  all: try (intros [[[H1 H2] H3] H4]; repeat split; try assumption;
            intros ? [=]).
  all: intros (H1 & H2 & H3 & H4); repeat split; auto.
Qed.

Lemma checkTier_band tierConfigs deal tier :
  checkTier tierConfigs deal tier
  = band_satisfiedb (tierConfigs tier)
      (DealMetrics.margin (Deal.metrics deal)) (DealMetrics.roi (Deal.metrics deal)).
Proof.
  unfold checkTier, band_satisfiedb, num_lt, num_gt.
  destruct (Qle_bool (DealTierConfig.minMargin (tierConfigs tier)) _); simpl;
    [|reflexivity].
  destruct (DealTierConfig.maxMargin (tierConfigs tier)) as [mm|]; simpl.
  - destruct (Qle_bool _ mm); simpl; [|reflexivity].
    destruct (Qle_bool (DealTierConfig.minRoi (tierConfigs tier)) _); simpl;
      [|reflexivity].
    destruct (DealTierConfig.maxRoi (tierConfigs tier)) as [mr|]; simpl;
      [destruct (Qle_bool _ mr)|]; reflexivity.
  - destruct (Qle_bool (DealTierConfig.minRoi (tierConfigs tier)) _); simpl;
      [|reflexivity].
    destruct (DealTierConfig.maxRoi (tierConfigs tier)) as [mr|]; simpl;
      [destruct (Qle_bool _ mr)|]; reflexivity.
Qed.

(** C3: [classify] returns the first tier in the order high, medium, low
    whose band is satisfied, with [qualifies = true]; when no band is
    satisfied it returns tier low with [qualifies = false].  [checkTier]
    decides exactly the band of the specification, which is what
    [first_satisfied] tests. *)
Theorem classify_first_satisfied_band
    (tierConfigs : DealTier -> DealTierConfig.t) (deal : Deal.t) :
  let margin := DealMetrics.margin (Deal.metrics deal) in
  let roi := DealMetrics.roi (Deal.metrics deal) in
  let result := classify tierConfigs deal in
  (forall tier,
     checkTier tierConfigs deal tier = true
     <-> band_satisfied (tierConfigs tier) margin roi)
  /\ (forall tier,
        band_satisfiedb (tierConfigs tier) margin roi = true
        <-> band_satisfied (tierConfigs tier) margin roi)
  /\ (tier result, qualifies result)
     = match first_satisfied tierConfigs margin roi with
       | Some tier => (tier, true)
       | None => (low, false)
       end.
Proof.
  intros margin roi result. split; [|split].
  - intros tier. rewrite checkTier_band. apply band_satisfiedb_spec.
  - intros tier. apply band_satisfiedb_spec.
  - subst result. unfold classify, first_satisfied. simpl.
    rewrite !checkTier_band. fold margin roi.
    destruct (band_satisfiedb (tierConfigs high) margin roi); [reflexivity|].
    destruct (band_satisfiedb (tierConfigs medium) margin roi); [reflexivity|].
    destruct (band_satisfiedb (tierConfigs low) margin roi); reflexivity.
Qed.

Example classify_overlapping_high_wins :
  tier (classify overlapping_bands (mk_deal 60 200)) = high
  /\ checkTier overlapping_bands (mk_deal 60 200) medium = true
  /\ checkTier overlapping_bands (mk_deal 60 200) low = true.
Proof. vm_compute. auto. Qed.

End DealClassifierFacts.

(** ** Deal analyzer: metrics *)

Section MetricsFacts.

Local Open Scope Q_scope.

Import DealAnalyzer.

(** C4: profit is the sale price less cost and fees; margin and ROI are the
    profit as a percentage of the sale price and of the cost price when
    that price is positive, and 0 otherwise.  [calculateMetrics] is total:
    zero or negative prices give a result like any other. *)
Theorem calculateMetrics_formulas (salePrice costPrice totalFees : Decimal.t) :
  let m := calculateMetrics salePrice costPrice totalFees in
  let profit := salePrice - costPrice - totalFees in
  DealMetrics.profit m = profit
  /\ (0 < salePrice -> DealMetrics.margin m = profit / salePrice * 100)
  /\ (salePrice <= 0 -> DealMetrics.margin m = 0)
  /\ (0 < costPrice -> DealMetrics.roi m = profit / costPrice * 100)
  /\ (costPrice <= 0 -> DealMetrics.roi m = 0)
  /\ DealMetrics.salePrice m = salePrice
  /\ DealMetrics.costPrice m = costPrice
  /\ DealMetrics.totalFees m = totalFees.
Proof.
  simpl. unfold calculateMetrics. simpl.
  repeat apply conj; try reflexivity.
  - intros H. apply Decimal_gt_spec in H. rewrite H. reflexivity.
  - intros H. apply Decimal_gt_false in H. rewrite H. reflexivity.
  - intros H. apply Decimal_gt_spec in H. rewrite H. reflexivity.
  - intros H. apply Decimal_gt_false in H. rewrite H. reflexivity.
Qed.

Lemma calculateMetrics_formulas_witness :
  DealMetrics.margin (calculateMetrics 100 50 (3831 # 100))
  = (100 - 50 - (3831 # 100)) / 100 * 100
  /\ DealMetrics.roi (calculateMetrics 100 0 (3831 # 100)) = 0.
Proof.
  split.
  - destruct (calculateMetrics_formulas 100 50 (3831 # 100)) as (_ & Hm & _).
    apply Hm. reflexivity.
  - destruct (calculateMetrics_formulas 100 0 (3831 # 100)) as (_ & _ & _ & _ & Hr & _).
    apply Hr. discriminate.
Defined.

End MetricsFacts.

(** ** Deal filter *)

Section DealFilterFacts.

Local Open Scope Q_scope.

Import DealFilterManager.

(** [passesFilter] is the conjunction of the seven criteria. *)
Lemma passesFilter_spec deal f :
  passesFilter deal f = true <-> meets_criteria deal f.
Proof.
  unfold passesFilter, meets_criteria, includes.
  destruct (num_lt _ (DealFilter.minMargin f)) eqn:E1.
  { apply num_lt_spec, Qlt_not_le in E1. split; [discriminate | tauto]. }
  destruct (num_lt _ (DealFilter.minRoi f)) eqn:E2.
  { apply num_lt_spec, Qlt_not_le in E2. split; [discriminate | tauto]. }
  destruct (Decimal.lt _ (DealFilter.minProfit f)) eqn:E3.
  { apply Decimal_lt_spec, Qlt_not_le in E3. split; [discriminate | tauto]. }
  destruct (Decimal.gt _ (DealFilter.maxPrice f)) eqn:E4.
  { apply Decimal_gt_spec, Qlt_not_le in E4. split; [discriminate | tauto]. }
  destruct (num_lt _ (DealFilter.minRating f)) eqn:E5.
  { apply num_lt_spec, Qlt_not_le in E5. split; [discriminate | tauto]. }
  apply num_lt_false in E1, E2, E5. apply Decimal_lt_false in E3.
  apply Decimal_gt_false in E4.
  destruct (0 <? DealFilter.maxSalesRank f)%Z eqn:E6;
    destruct (DealFilter.maxSalesRank f <? ProductData.salesRank _)%Z eqn:E7;
    simpl; rewrite ?Z.ltb_lt, ?Z.ltb_ge in E6, E7.
  1: { split; [discriminate | intros (_ & _ & _ & _ & _ & [H|H] & _)];
       clear E1 E2 E3 E4 E5; lia. }
  all: case_bool_decide as E8; simpl.
  all: split;
    [ first [ discriminate
            | intros _; repeat apply conj; auto; clear E1 E2 E3 E4 E5; lia ]
    | first [ reflexivity | intros (_ & _ & _ & _ & _ & _ & H); tauto ] ].
Qed.

Lemma weakens_meets_criteria deal f f' :
  weakens f f' -> meets_criteria deal f -> meets_criteria deal f'.
Proof.
  intros Hw (H1 & H2 & H3 & H4 & H5 & H6 & H7).
  destruct Hw; unfold meets_criteria; simpl; repeat apply conj; auto.
  - eapply Qle_trans; eauto.
  - eapply Qle_trans; eauto.
  - eapply Qle_trans; eauto.
  - eapply Qle_trans; eauto.
  - eapply Qle_trans; eauto.
  - lia.
Qed.

(** Removing the rank criterion (bound 0) and the marketplace criterion
    (all four marketplaces) are weakenings. *)
Lemma weakens_rank_removed f :
  weakens f
    (DealFilter.mk (DealFilter.minMargin f) (DealFilter.minRoi f)
       (DealFilter.minProfit f) (DealFilter.maxPrice f)
       (DealFilter.minRating f) 0 (DealFilter.marketplaces f)).
Proof. apply weaken_maxSalesRank. left. reflexivity. Qed.

Lemma weakens_marketplaces_removed f :
  weakens f
    (DealFilter.mk (DealFilter.minMargin f) (DealFilter.minRoi f)
       (DealFilter.minProfit f) (DealFilter.maxPrice f)
       (DealFilter.minRating f) (DealFilter.maxSalesRank f) [DE; FR; IT; ES]).
Proof.
  apply weaken_marketplaces. intros m _.
  destruct m; repeat (first [apply list_elem_of_here | apply list_elem_of_further]).
Qed.

(** C6: [filter] keeps, in their order and as often as they occur, exactly
    the deals that meet all seven criteria, so that filtering is their
    conjunction; and weakening any single criterion can only grow the
    result on a fixed collection of deals: every deal kept by the original
    filter is kept, in the same order, by the weakened one. *)
Theorem filter_conjunction_grows (deals : list Deal.t) (f : DealFilter.t) :
  (forall deal, passesFilter deal f = true <-> meets_criteria deal f)
  /\ filter [] f = []
  /\ (forall deal rest,
        (meets_criteria deal f ->
         filter (deal :: rest) f = deal :: filter rest f)
        /\ (~ meets_criteria deal f ->
            filter (deal :: rest) f = filter rest f))
  /\ (forall deal,
        deal ∈ filter deals f <-> deal ∈ deals /\ meets_criteria deal f)
  /\ (forall f',
        weakens f f' ->
        filter deals f ⊆ filter deals f'
        /\ sublist (filter deals f) (filter deals f')).
Proof.
  split; [intros deal; apply passesFilter_spec|]. split; [reflexivity|].
  split; [|split].
  - intros deal rest. unfold filter. cbn [List.filter]. split.
    + intros Hm%passesFilter_spec. by rewrite Hm.
    + intros Hm. destruct (passesFilter deal f) eqn:E; [|reflexivity].
      by apply passesFilter_spec in E.
  - intros deal. unfold filter.
    by rewrite list_elem_of_In, filter_In, <- list_elem_of_In, passesFilter_spec.
  - intros f' Hw.
    assert (Hp : forall deal,
               passesFilter deal f = true -> passesFilter deal f' = true).
    { intros deal. rewrite !passesFilter_spec. apply weakens_meets_criteria, Hw. }
    unfold filter. split.
    + intros deal. rewrite !list_elem_of_In, !filter_In. intros [Hin Hpass]. auto.
    + induction deals as [|d ds IH]; simpl; [constructor|].
      destruct (passesFilter d f) eqn:E.
      * rewrite (Hp d E). by constructor.
      * destruct (passesFilter d f'); [by constructor | exact IH].
Qed.

Lemma filter_conjunction_grows_witness :
  filter [ranked_deal 500; ranked_deal 5000] rank_filter = [ranked_deal 500]
  /\ filter [ranked_deal 500; ranked_deal 5000] rank_filter
     ⊆ filter [ranked_deal 500; ranked_deal 5000] no_rank_filter.
Proof.
  destruct (filter_conjunction_grows [ranked_deal 500; ranked_deal 5000]
              rank_filter) as (_ & Hnil & _ & _ & Hgrows).
  destruct (filter_conjunction_grows [ranked_deal 5000] rank_filter)
    as (_ & _ & Hcons & _).
  split.
  - destruct (filter_conjunction_grows [] rank_filter) as (_ & _ & Hcons' & _).
    destruct (Hcons' (ranked_deal 500) [ranked_deal 5000]) as [Hkeep _].
    rewrite Hkeep by (apply passesFilter_spec; reflexivity).
    destruct (Hcons (ranked_deal 5000) []) as [_ Hdrop].
    rewrite Hdrop, Hnil; [reflexivity|].
    intros Hm%passesFilter_spec. vm_compute in Hm. discriminate Hm.
  - apply Hgrows.
    apply (weaken_maxSalesRank rank_filter 0). left. discriminate.
Defined.

End DealFilterFacts.

(** ** Deal analyzer: batches *)

Section AnalyzeBatchFacts.

Import DealAnalyzer.

Variable clock : nat -> Z.
Variable tierConfigs : DealTier -> DealTierConfig.t.

(** On arrays of fitting lengths the [map] of [analyzeBatch] is [analyze]
    applied to each pair in turn. *)
Lemma map_analyze_each products : forall optionsList index env,
  length products + index <= length optionsList ->
  map_analyze clock tierConfigs env products optionsList index
  = analyze_each clock tierConfigs env (zip products (drop index optionsList)).
Proof.
  induction products as [|product rest IH]; intros optionsList index env Hlen.
  - reflexivity.
  - simpl in Hlen.
    destruct (lookup_lt_is_Some_2 optionsList index) as [options Ho]; [lia|].
    cbn [map_analyze]. rewrite Ho.
    rewrite (drop_S _ _ _ Ho). cbn [zip zip_with analyze_each].
    destruct (analyze clock tierConfigs env product options) as [env1 [e|deal]];
      [reflexivity|].
    rewrite IH by lia. reflexivity.
Qed.

(** [analyze] returns a deal on a plain category and throws, leaving the
    environment as it was, on an inherited one. *)
Lemma analyze_plain env product options :
  plain_category options ->
  exists deal env1,
    analyze clock tierConfigs env product options = (env1, inr deal).
Proof.
  intros Hplain. unfold analyze.
  edestruct calculateFees_returns as [fb ->]; [exact Hplain|].
  eauto.
Qed.

Lemma analyze_inherited env product options :
  ~ plain_category options ->
  analyze clock tierConfigs env product options
  = (env,
     inl (FeeError
            (FeeCalculator.InvalidArgument
               (FeeCalculator.Inherited (category_of options))))).
Proof.
  intros Hinh. apply not_false_is_true in Hinh. unfold analyze.
  rewrite calculateFees_throws by exact Hinh. reflexivity.
Qed.

Lemma analyze_each_plain pairs : forall env,
  Forall (fun pair => plain_category (snd pair)) pairs ->
  exists deals env',
    analyze_each clock tierConfigs env pairs = (env', inr deals).
Proof.
  induction pairs as [|[product options] rest IH]; intros env Hall.
  - cbn. eauto.
  - apply Forall_cons in Hall as [Hplain Hall]. cbn [analyze_each].
    destruct (analyze_plain env product options Hplain) as (deal & env1 & ->).
    destruct (IH env1 Hall) as (deals & env2 & ->). eauto.
Qed.

Lemma analyze_each_inr pairs : forall env env' deals,
  analyze_each clock tierConfigs env pairs = (env', inr deals) ->
  length deals = length pairs
  /\ forall i product options,
       pairs !! i = Some (product, options) ->
       exists deal,
         deals !! i = Some deal
         /\ snd (analyze clock tierConfigs
                   (fst (analyze_each clock tierConfigs env (take i pairs)))
                   product options)
            = inr deal.
Proof.
  induction pairs as [|[p o] rest IH]; intros env env' deals Hrun.
  - injection Hrun as _ <-. split; [reflexivity|]. intros i ? ? Hi. discriminate.
  - cbn [analyze_each] in Hrun.
    destruct (analyze clock tierConfigs env p o) as [env1 [e|deal]] eqn:Ea;
      [discriminate|].
    destruct (analyze_each clock tierConfigs env1 rest) as [env2 [e|ds]] eqn:Er;
      [discriminate|].
    injection Hrun as _ <-. destruct (IH _ _ _ Er) as [Hlen Hith].
    split; [cbn; by rewrite Hlen|].
    intros [|i] product options Hi.
    + injection Hi as -> ->. exists deal. cbn. by rewrite Ea.
    + cbn [take analyze_each]. rewrite Ea.
      destruct (Hith i product options Hi) as (d & Hd & Hrun').
      exists d. split; [exact Hd|].
      destruct (analyze_each clock tierConfigs env1 (take i rest))
        as [env3 [e|ds']]; exact Hrun'.
Qed.

Lemma analyze_each_inl pairs : forall env env' e,
  analyze_each clock tierConfigs env pairs = (env', inl e) ->
  exists i product options,
    pairs !! i = Some (product, options)
    /\ analyze clock tierConfigs
         (fst (analyze_each clock tierConfigs env (take i pairs)))
         product options
       = (env', inl e).
Proof.
  induction pairs as [|[p o] rest IH]; intros env env' e Hrun; [discriminate|].
  cbn [analyze_each] in Hrun.
  destruct (analyze clock tierConfigs env p o) as [env1 [e1|deal]] eqn:Ea.
  - injection Hrun as <- <-. exists 0, p, o. split; [reflexivity | exact Ea].
  - destruct (analyze_each clock tierConfigs env1 rest) as [env2 [e2|ds]] eqn:Er;
      [|discriminate].
    injection Hrun as <- <-.
    destruct (IH _ _ _ Er) as (i & product & options & Hi & Hrun').
    exists (S i), product, options. split; [exact Hi|].
    cbn [take analyze_each]. rewrite Ea.
    destruct (analyze_each clock tierConfigs env1 (take i rest))
      as [env3 [e3|ds']]; exact Hrun'.
Qed.

(** C8: the code breaks the claim on options whose category is the name of
    a property inherited from [Object.prototype].  On one product and one
    such options, arrays of equal length, [analyzeBatch] does not return
    one deal: the rate that [calculateFees] reads is the inherited member,
    [salePrice.mul] rejects it, and the batch throws that error, with the
    environment as it was. *)
Theorem analyzeBatch_inherited_category_throws :
  length [sample_product 100%Q] = length [inherited_options 40%Q]
  /\ analyzeBatch sample_clock overlapping_bands sample_env
       [sample_product 100%Q] [inherited_options 40%Q]
     = (sample_env,
        inl (FeeError
               (FeeCalculator.InvalidArgument
                  (FeeCalculator.Inherited "constructor"))))
  /\ ~ exists deals env',
        analyzeBatch sample_clock overlapping_bands sample_env
          [sample_product 100%Q] [inherited_options 40%Q]
        = (env', inr deals).
Proof.
  split; [reflexivity|]. split; [reflexivity|].
  intros (deals & env' & H). vm_compute in H. discriminate H.
Qed.

End AnalyzeBatchFacts.

(** ** Price history *)

Section PriceHistoryFacts.

Local Open Scope Q_scope.

Import PriceHistoryManager.

Lemma string_length_app (s t : string) :
  String.length (s +:+ t) = (String.length s + String.length t)%nat.
Proof. induction s as [|c s IH]; simpl; [reflexivity | by rewrite IH]. Qed.

Lemma string_app_suffix_inj (s s' t t' : string) :
  String.length t = String.length t' ->
  s +:+ t = s' +:+ t' -> s = s' /\ t = t'.
Proof.
  revert s'. induction s as [|c s IH]; intros [|c' s'] Hlen Heq; simpl in Heq.
  - auto.
  - exfalso. apply (f_equal String.length) in Heq.
    cbn [String.length] in Heq. rewrite !string_length_app in Heq.
    cbn [String.length] in Heq. lia.
  - exfalso. apply (f_equal String.length) in Heq.
    cbn [String.length] in Heq. rewrite !string_length_app in Heq.
    cbn [String.length] in Heq. lia.
  - injection Heq as -> Heq. destruct (IH s' Hlen Heq) as [-> ->]. auto.
Qed.

(** Distinct (asin, marketplace) pairs have distinct keys. *)
Lemma getKey_inj a m a' m' : getKey a m = getKey a' m' -> a = a' /\ m = m'.
Proof.
  unfold getKey. intros Heq.
  apply string_app_suffix_inj in Heq as [-> Heq].
  - split; [reflexivity|]. destruct m, m'; vm_compute in Heq; congruence.
  - destruct m, m'; reflexivity.
Qed.

Lemma getKey_eq_iff a m e :
  getKey (asin e) (marketplace e) = getKey a m
  <-> asin e = a /\ marketplace e = m.
Proof.
  split; [apply getKey_inj | intros [-> ->]; reflexivity].
Qed.

Lemma addPriceEntries_snoc st es e :
  addPriceEntries st (es ++ [e])
  = (fst (addPriceEntries st es)
       ++ [fst (addPriceEntry (snd (addPriceEntries st es)) e)],
     snd (addPriceEntry (snd (addPriceEntries st es)) e)).
Proof.
  revert st. induction es as [|e0 es IH]; intros st.
  - reflexivity.
  - cbn [app addPriceEntries].
    destruct (addPriceEntry st e0) as [a st1]. rewrite IH.
    destruct (addPriceEntries st1 es) as [alerts st2]. reflexivity.
Qed.

Lemma entries_for_snoc a m es e :
  entries_for a m (es ++ [e])
  = entries_for a m es
    ++ (if decide (asin e = a /\ marketplace e = m) then [e] else []).
Proof.
  unfold entries_for. rewrite filter_app. reflexivity.
Qed.

Lemma lastPrices_addPriceEntry st e a m :
  lastPrices (snd (addPriceEntry st e)) !! getKey a m
  = if decide (asin e = a /\ marketplace e = m) then Some (price e)
    else lastPrices st !! getKey a m.
Proof.
  unfold addPriceEntry. cbn [snd lastPrices].
  destruct (decide (asin e = a /\ marketplace e = m)) as [[<- <-]|Hne].
  - apply lookup_insert_eq.
  - apply lookup_insert_ne. by rewrite getKey_eq_iff.
Qed.

Lemma history_addPriceEntry st e a m :
  history (snd (addPriceEntry st e)) !! getKey a m
  = if decide (asin e = a /\ marketplace e = m)
    then Some (push_capped MAX_HISTORY
                 (default [] (history st !! getKey a m)) e)
    else history st !! getKey a m.
Proof.
  unfold addPriceEntry. cbn [snd history].
  destruct (decide (asin e = a /\ marketplace e = m)) as [[<- <-]|Hne].
  - apply lookup_insert_eq.
  - apply lookup_insert_ne. by rewrite getKey_eq_iff.
Qed.

(** The last-price cache holds, per key, the latest price recorded for it. *)
Lemma lastPrices_addPriceEntries es a m :
  lastPrices (snd (addPriceEntries empty es)) !! getKey a m
  = prior_price es a m.
Proof.
  unfold prior_price. induction es as [|e es IH] using rev_ind.
  - apply lookup_empty.
  - rewrite addPriceEntries_snoc. cbn [snd].
    rewrite lastPrices_addPriceEntry, entries_for_snoc, IH.
    destruct (decide (asin e = a /\ marketplace e = m)).
    + by rewrite last_snoc.
    + by rewrite app_nil_r.
Qed.

Lemma push_capped_most_recent cap (l : list PriceHistoryEntry) e :
  push_capped cap (most_recent cap l) e = most_recent cap (l ++ [e]).
Proof.
  unfold push_capped, most_recent.
  rewrite !length_app, length_drop. simpl.
  destruct (Nat.ltb_spec cap (length l - (length l - cap) + 1)) as [Hlt|Hge].
  - replace (length l + 1 - cap)%nat with (length l - cap + 1)%nat by lia.
    rewrite <- drop_drop. rewrite (drop_app_le l) by lia. reflexivity.
  - replace (length l - cap)%nat with 0%nat by lia.
    replace (length l + 1 - cap)%nat with 0%nat by lia. reflexivity.
Qed.

(** The stored series of a key is the most recent part of what was recorded
    for it. *)
Lemma history_addPriceEntries es a m :
  default [] (history (snd (addPriceEntries empty es)) !! getKey a m)
  = most_recent MAX_HISTORY (entries_for a m es).
Proof.
  induction es as [|e es IH] using rev_ind.
  - reflexivity.
  - rewrite addPriceEntries_snoc. cbn [snd].
    rewrite history_addPriceEntry, entries_for_snoc.
    destruct (decide (asin e = a /\ marketplace e = m)).
    + cbn [default]. rewrite IH. apply push_capped_most_recent.
    + by rewrite app_nil_r.
Qed.

Lemma push_capped_within cap (h : list PriceHistoryEntry) e :
  (length h <= cap)%nat ->
  push_capped cap h e = most_recent cap (h ++ [e]).
Proof.
  intros Hlen. unfold push_capped, most_recent. rewrite !length_app. simpl.
  destruct (Nat.ltb_spec cap (length h + 1)) as [Hlt|Hge].
  - replace (length h + 1 - cap)%nat with 1%nat by lia.
    destruct (h ++ [e]); reflexivity.
  - replace (length h + 1 - cap)%nat with 0%nat by lia. reflexivity.
Qed.

Lemma most_recent_length {A} n (l : list A) : (length (most_recent n l) <= n)%nat.
Proof. unfold most_recent. rewrite length_drop. lia. Qed.

(** C5: after any sequence of [addPriceEntry] calls on a new manager, a
    further call returns an alert exactly when a price was recorded before
    for the same (asin, marketplace) and the new price is not equal to the
    latest such price [p0]; the alert then carries [p0], the new price,
    their difference, and the difference as a percentage of [p0] when
    [p0 > 0] and 0 otherwise.  A first observation and a repeated price
    return no alert. *)
Theorem addPriceEntry_alert_iff_changed
    (entries : list PriceHistoryEntry) (e : PriceHistoryEntry) :
  let st := snd (addPriceEntries empty entries) in
  let alert := fst (addPriceEntry st e) in
  let prior := prior_price entries (asin e) (marketplace e) in
  (is_Some alert <-> exists p0, prior = Some p0 /\ ~ price e == p0)
  /\ (forall a, alert = Some a ->
        exists p0, prior = Some p0
          /\ oldPrice a = p0
          /\ newPrice a = price e
          /\ changeAmount a = price e - p0
          /\ (0 < p0 -> changePercentage a = (price e - p0) / p0 * 100)
          /\ (p0 <= 0 -> changePercentage a = 0)
          /\ alert_asin a = asin e
          /\ alert_marketplace a = marketplace e
          /\ alert_timestamp a = timestamp e)
  /\ (prior = None -> alert = None)
  /\ (forall p0, prior = Some p0 -> price e == p0 -> alert = None).
Proof.
  intros st alert prior. subst alert. unfold addPriceEntry. cbn [fst].
  subst st. rewrite lastPrices_addPriceEntries. fold prior.
  destruct prior as [p0|].
  - destruct (Decimal.equals p0 (price e)) eqn:E; cbn [negb].
    + apply Decimal_equals_spec in E. repeat apply conj.
      * intros [a Ha]. discriminate Ha.
      * intros (p & [= <-] & Hne). exfalso. apply Hne. symmetry. exact E.
      * intros a Ha. discriminate Ha.
      * discriminate.
      * reflexivity.
    + apply Decimal_equals_false in E. repeat apply conj.
      * intros _. exists p0. split; [reflexivity|].
        intros Heq. apply E. symmetry. exact Heq.
      * intros _. eexists. reflexivity.
      * intros a [= <-]. exists p0. cbn.
        repeat apply conj; try reflexivity.
        -- intros Hpos. apply Decimal_gt_spec in Hpos. rewrite Hpos. reflexivity.
        -- intros Hneg. apply Decimal_gt_false in Hneg. rewrite Hneg. reflexivity.
      * discriminate.
      * intros p [= <-] Heq. exfalso. apply E. symmetry. exact Heq.
  - repeat apply conj.
    + intros [a Ha]. discriminate Ha.
    + intros (p & Hp & _). discriminate Hp.
    + intros a Ha. discriminate Ha.
    + reflexivity.
    + intros p Hp. discriminate Hp.
Qed.

(** C7: the stored series of a key never exceeds 1,000 entries; it is the
    most recent 1,000 (or fewer) of the entries recorded for that key, in
    insertion order; and each insertion appends the entry and keeps the
    most recent 1,000, so that the oldest is the one evicted. *)
Theorem history_capped_fifo (entries : list PriceHistoryEntry)
    (a : string) (m : MarketplaceCode) :
  let st := snd (addPriceEntries empty entries) in
  (length (getPriceHistory st a m) <= 1000)%nat
  /\ getPriceHistory st a m = most_recent 1000 (entries_for a m entries)
  /\ forall e,
       getPriceHistory (snd (addPriceEntry st e)) (asin e) (marketplace e)
       = most_recent 1000 (getPriceHistory st (asin e) (marketplace e) ++ [e]).
Proof.
  intros st. change 1000%nat with MAX_HISTORY.
  assert (Hh : forall a' m',
             getPriceHistory st a' m'
             = most_recent MAX_HISTORY (entries_for a' m' entries)).
  { intros a' m'. apply history_addPriceEntries. }
  repeat apply conj.
  - rewrite Hh. apply most_recent_length.
  - apply Hh.
  - intros e. unfold getPriceHistory at 1. rewrite history_addPriceEntry.
    rewrite decide_True by auto. cbn [default].
    apply push_capped_within.
    fold (getPriceHistory st (asin e) (marketplace e)).
    rewrite Hh. apply most_recent_length.
Qed.

(** The scenario 100, 90, 95 for one key: no alert, then -10%, then
    +5.55...% (50/9). *)
Example addPriceEntries_scenario :
  let e p t := mkEntry "B08N5WRWNW" DE p t in
  List.map (option_map changePercentage)
    (fst (addPriceEntries empty [e 100 1%Z; e 90 2%Z; e 95 3%Z]))
  = [None; Some (-1000 # 100); Some (500 # 90)].
Proof. vm_compute. reflexivity. Qed.

End PriceHistoryFacts.

(** ** Task queue *)

Section TaskQueueFacts.

Import TaskQueue.

Variable clock : nat -> Z.

Lemma insert_desc_perm objs r l : insert_desc objs r l ≡ₚ r :: l.
Proof.
  induction l as [|y l IH]; simpl; [reflexivity|].
  destruct (priorityOf objs y <? priorityOf objs r)%Z; [reflexivity|].
  rewrite IH. apply Permutation_swap.
Qed.

Lemma sort_desc_perm objs l : sort_desc objs l ≡ₚ l.
Proof.
  unfold sort_desc.
  assert (H : forall acc, foldl (fun acc r => insert_desc objs r acc) acc l ≡ₚ acc ++ l).
  { induction l as [|x l IH]; intros acc; simpl.
    - by rewrite app_nil_r.
    - rewrite IH, insert_desc_perm. by rewrite <- Permutation_middle. }
  apply (H []).
Qed.

Lemma elem_of_sort_desc objs l r : r ∈ sort_desc objs l <-> r ∈ l.
Proof. by rewrite sort_desc_perm. Qed.

Lemma elem_of_requeue objs l r0 r :
  r ∈ sort_desc objs (l ++ [r0]) <-> r ∈ l \/ r = r0.
Proof. rewrite elem_of_sort_desc, elem_of_app, list_elem_of_singleton. tauto. Qed.

Lemma NoDup_requeue objs l r0 :
  NoDup l -> r0 ∉ l -> NoDup (sort_desc objs (l ++ [r0])).
Proof.
  intros Hnd Hnotin. rewrite sort_desc_perm.
  apply NoDup_app. split; [assumption|]. split; [|apply NoDup_singleton].
  intros x Hx ->%list_elem_of_singleton. contradiction.
Qed.

Lemma continues_refl q : inv q -> continues q q.
Proof. intros H. split; [assumption|]. split; auto. Qed.

Lemma continues_trans q1 q2 q3 :
  continues q1 q2 -> continues q2 q3 -> continues q1 q3.
Proof.
  intros (_ & Ha12 & Hl12) (Hinv & Ha23 & Hl23).
  split; [assumption|]. split; [auto|].
  intros r Hr. destruct (Hl23 r Hr) as [H|H].
  - auto.
  - right. intros Hal. apply H, Ha12, Hal.
Qed.

Lemma fresh_ref_unallocated objs : objs !! fresh_ref objs = None.
Proof.
  apply (not_elem_of_dom (D := gset nat)). unfold fresh_ref. apply is_fresh.
Qed.

Lemma addTask_continues q task :
  inv q -> continues q (snd (addTask clock q task)).
Proof.
  intros [Hnd Hq Hr Hi Hd]. unfold addTask. cbn.
  pose proof (fresh_ref_unallocated (objects q)) as Hfresh.
  set (r := fresh_ref (objects q)) in *.
  split; [|split].
  - constructor; cbn.
    + apply NoDup_requeue; [assumption|].
      intros Hin. destruct (Hq r Hin) as (t0 & Ht0 & _). congruence.
    + intros r' [Hin | ->]%elem_of_requeue.
      * destruct (Hq r' Hin) as (t0 & Ht0 & Hs & Hrun).
        exists t0. rewrite lookup_insert_ne by congruence. auto.
      * eexists. rewrite lookup_insert_eq. split; [reflexivity|].
        split; [reflexivity|]. cbn.
        destruct (runningTasks q !! World.uuids (world q)) as [r0|] eqn:E;
          [|reflexivity].
        destruct (Hr _ _ E) as (t0 & Ht0 & Hid & _).
        apply Hi in Ht0. lia.
    + intros i r0 Hrun. destruct (Hr i r0 Hrun) as (t0 & Ht0 & Hid & Hs & Hnq).
      exists t0. rewrite lookup_insert_ne by congruence.
      repeat apply conj; auto.
      rewrite elem_of_requeue. intros [Hin | ->]; [contradiction | congruence].
    + intros r0 t0. destruct (decide (r = r0)) as [<-|Hne].
      * rewrite lookup_insert_eq. intros [= <-]. cbn. lia.
      * rewrite lookup_insert_ne by assumption. intros Ht0%Hi. lia.
    + intros r1 r2 t1 t2.
      destruct (decide (r = r1)) as [<-|Hne1], (decide (r = r2)) as [<-|Hne2];
        rewrite ?lookup_insert_eq, ?lookup_insert_ne by assumption.
      * reflexivity.
      * intros [= <-] Ht2%Hi. cbn. lia.
      * intros Ht1%Hi [= <-]. cbn. lia.
      * apply Hd.
  - intros r0 [t0 Ht0]. unfold allocated. cbn.
    rewrite lookup_insert_ne by congruence. eauto.
  - intros r0 [[Hin | ->]%elem_of_requeue | [i Hrun]]; cbn in *.
    + left. by left.
    + right. intros [t0 Ht0]. congruence.
    + left. right. eauto.
Qed.

(** Overwriting an object by one with the same identifier keeps the
    identifiers of all objects. *)
Lemma ids_preserved (objs : gmap nat Task) r task task' :
  objs !! r = Some task -> id task' = id task ->
  forall r0 t0, <[r := task']> objs !! r0 = Some t0 ->
                exists t1, objs !! r0 = Some t1 /\ id t1 = id t0.
Proof.
  intros Ht Hid r0 t0. destruct (decide (r = r0)) as [<-|Hne].
  - rewrite lookup_insert_eq. intros [= <-]. eauto.
  - rewrite lookup_insert_ne by assumption. eauto.
Qed.

Lemma ids_issued_preserved (objs : gmap nat Task) r task task' (n : nat) :
  objs !! r = Some task -> id task' = id task ->
  (forall r0 t0, objs !! r0 = Some t0 -> id t0 < n) ->
  forall r0 t0, <[r := task']> objs !! r0 = Some t0 -> id t0 < n.
Proof.
  intros Ht Hid Hi r0 t0 H0.
  destruct (ids_preserved _ _ _ _ Ht Hid _ _ H0) as (t1 & H1 & <-). eauto.
Qed.

Lemma ids_distinct_preserved (objs : gmap nat Task) r task task' :
  objs !! r = Some task -> id task' = id task ->
  (forall r1 r2 t1 t2, objs !! r1 = Some t1 -> objs !! r2 = Some t2 ->
                       id t1 = id t2 -> r1 = r2) ->
  forall r1 r2 t1 t2,
    <[r := task']> objs !! r1 = Some t1 -> <[r := task']> objs !! r2 = Some t2 ->
    id t1 = id t2 -> r1 = r2.
Proof.
  intros Ht Hid Hd r1 r2 t1 t2 H1 H2 Heq.
  destruct (ids_preserved _ _ _ _ Ht Hid _ _ H1) as (u1 & Hu1 & E1).
  destruct (ids_preserved _ _ _ _ Ht Hid _ _ H2) as (u2 & Hu2 & E2).
  eapply Hd; eauto. congruence.
Qed.

Lemma allocated_insert (objs : gmap nat Task) r task' r0 :
  is_Some (objs !! r0) -> is_Some (<[r := task']> objs !! r0).
Proof.
  intros H. destruct (decide (r = r0)) as [<-|Hne].
  - rewrite lookup_insert_eq. eauto.
  - by rewrite lookup_insert_ne.
Qed.

Lemma getNextTask_continues q :
  inv q -> continues q (snd (getNextTask clock q)).
Proof.
  intros Hinv. pose proof Hinv as [Hnd Hq Hr Hi Hd]. unfold getNextTask.
  destruct (queue q) as [|r rest] eqn:Eq; [by apply continues_refl|].
  destruct (objects q !! r) as [task|] eqn:Et; [|by apply continues_refl].
  cbn. apply NoDup_cons in Hnd as [Hnotin Hnd].
  destruct (Hq r) as (t0 & Ht0 & Hs & Hrun); [by left|].
  assert (t0 = task) as -> by congruence.
  split; [|split].
  - constructor; cbn.
    + assumption.
    + intros r' Hin. destruct (Hq r') as (t1 & Ht1 & Hs1 & Hrun1); [by right|].
      assert (r <> r') by (intros ->; contradiction).
      exists t1. rewrite lookup_insert_ne by assumption.
      repeat apply conj; auto.
      rewrite lookup_insert_ne; [assumption|].
      intros Heq. eauto.
    + intros i r0. destruct (decide (id task = i)) as [<-|Hne].
      * rewrite lookup_insert_eq. intros [= <-].
        eexists. rewrite lookup_insert_eq. repeat apply conj; auto.
      * rewrite lookup_insert_ne by assumption. intros Hrun0.
        destruct (Hr i r0 Hrun0) as (t1 & Ht1 & Hid & Hs1 & Hnq).
        assert (r <> r0) by (intros ->; apply Hnq; by left).
        exists t1. rewrite lookup_insert_ne by assumption.
        repeat apply conj; auto. intros Hin. apply Hnq. by right.
    + eapply ids_issued_preserved; eauto.
    + eapply ids_distinct_preserved; eauto.
  - intros r0. apply allocated_insert.
  - intros r0 [Hin | [i Hrun0]]; cbn in *.
    + left. left. rewrite Eq. by right.
    + left. destruct (decide (id task = i)) as [<-|Hne].
      * rewrite lookup_insert_eq in Hrun0. injection Hrun0 as <-.
        left. rewrite Eq. by left.
      * rewrite lookup_insert_ne in Hrun0 by assumption. right. eauto.
Qed.

(** A task leaves the running map and its object is overwritten by one with
    the same identifier; the pending queue stays as it is. *)
Lemma retire_continues q i r task task' completed' durations' w' :
  inv q ->
  runningTasks q !! i = Some r ->
  objects q !! r = Some task ->
  id task' = id task ->
  World.uuids w' = World.uuids (world q) ->
  continues q
    {| objects := <[r := task']> (objects q);
       queue := queue q;
       runningTasks := delete i (runningTasks q);
       completedTasks := completed';
       taskDurations := durations';
       world := w' |}.
Proof.
  intros Hinv Hrun Ht Hid Hw. pose proof Hinv as [Hnd Hq Hr Hi Hd].
  destruct (Hr i r Hrun) as (t0 & Ht0 & Hid0 & Hs0 & Hnq0).
  assert (t0 = task) as -> by congruence.
  split; [|split].
  - constructor; cbn.
    + assumption.
    + intros r' Hin. destruct (Hq r' Hin) as (t1 & Ht1 & Hs1 & Hrun1).
      assert (r <> r') by (intros ->; contradiction).
      exists t1. rewrite lookup_insert_ne by assumption.
      repeat apply conj; auto.
      destruct (decide (i = id t1)) as [->|Hne].
      * apply lookup_delete_eq.
      * by rewrite lookup_delete_ne.
    + intros j r0. destruct (decide (i = j)) as [<-|Hne].
      * rewrite lookup_delete_eq. discriminate.
      * rewrite lookup_delete_ne by assumption. intros Hrun0.
        destruct (Hr j r0 Hrun0) as (t1 & Ht1 & Hid1 & Hs1 & Hnq1).
        assert (r <> r0) by (intros ->; congruence).
        exists t1. rewrite lookup_insert_ne by assumption. auto.
    + rewrite Hw. eapply ids_issued_preserved; eauto.
    + eapply ids_distinct_preserved; eauto.
  - intros r0. apply allocated_insert.
  - intros r0 [Hin | [j Hrun0]]; cbn in *.
    + left. by left.
    + left. right. exists j.
      destruct (decide (i = j)) as [<-|Hne].
      * rewrite lookup_delete_eq in Hrun0. discriminate.
      * by rewrite lookup_delete_ne in Hrun0.
Qed.

Lemma completeTask_continues q i result :
  inv q -> continues q (completeTask clock q i result).
Proof.
  intros Hinv. unfold completeTask.
  destruct (runningTasks q !! i) as [r|] eqn:Hrun; [|by apply continues_refl].
  destruct (objects q !! r) as [task|] eqn:Ht; [|by apply continues_refl].
  cbn. eapply retire_continues; eauto.
Qed.

Lemma failTask_continues q i err :
  inv q -> continues q (failTask clock q i err).
Proof.
  intros Hinv. unfold failTask.
  destruct (runningTasks q !! i) as [r|] eqn:Hrun; [|by apply continues_refl].
  destruct (objects q !! r) as [task|] eqn:Ht; [|by apply continues_refl].
  cbn [retryCount maxRetries set_retryCount].
  destruct (retryCount task + 1 <? maxRetries task)%Z.
  - pose proof Hinv as [Hnd Hq Hr Hi Hd].
    destruct (Hr i r Hrun) as (t0 & Ht0 & Hid0 & Hs0 & Hnq0).
    assert (t0 = task) as -> by congruence.
    set (task2 := set_error _ _).
    assert (Hid2 : id task2 = id task) by reflexivity.
    split; [|split].
    + constructor; cbn.
      * by apply NoDup_requeue.
      * intros r' [Hin | ->]%elem_of_requeue.
        -- destruct (Hq r' Hin) as (t1 & Ht1 & Hs1 & Hrun1).
           assert (r <> r') by (intros ->; contradiction).
           exists t1. rewrite lookup_insert_ne by assumption.
           repeat apply conj; auto.
           destruct (decide (i = id t1)) as [->|Hne].
           ++ apply lookup_delete_eq.
           ++ by rewrite lookup_delete_ne.
        -- exists task2. rewrite lookup_insert_eq.
           repeat apply conj; auto.
           rewrite Hid2, Hid0. apply lookup_delete_eq.
      * intros j r0. destruct (decide (i = j)) as [<-|Hne].
        -- rewrite lookup_delete_eq. discriminate.
        -- rewrite lookup_delete_ne by assumption. intros Hrun0.
           destruct (Hr j r0 Hrun0) as (t1 & Ht1 & Hid1 & Hs1 & Hnq1).
           assert (r <> r0) by (intros ->; congruence).
           exists t1. rewrite lookup_insert_ne by assumption.
           repeat apply conj; auto.
           rewrite elem_of_requeue. intros [Hin | ->]; [contradiction | congruence].
      * eapply ids_issued_preserved; eauto.
      * eapply ids_distinct_preserved; eauto.
    + intros r0. apply allocated_insert.
    + intros r0 [[Hin | ->]%elem_of_requeue | [j Hrun0]]; cbn in *.
      * left. by left.
      * left. right. eauto.
      * left. right. exists j.
        destruct (decide (i = j)) as [<-|Hne].
        -- rewrite lookup_delete_eq in Hrun0. discriminate.
        -- by rewrite lookup_delete_ne in Hrun0.
  - cbn. eapply retire_continues; eauto.
Qed.

Lemma clearCompleted_continues q : inv q -> continues q (clearCompleted q).
Proof.
  intros [Hnd Hq Hr Hi Hd]. split; [|split].
  - constructor; assumption.
  - auto.
  - auto.
Qed.

Lemma clearAll_continues q : inv q -> continues q (clearAll q).
Proof.
  intros [Hnd Hq Hr Hi Hd]. split; [|split].
  - constructor; cbn.
    + constructor.
    + intros r Hin. by apply not_elem_of_nil in Hin.
    + intros i r Hrun. by rewrite lookup_empty in Hrun.
    + assumption.
    + assumption.
  - auto.
  - intros r [Hin | [i Hrun]]; cbn in *.
    + by apply not_elem_of_nil in Hin.
    + by rewrite lookup_empty in Hrun.
Qed.

Lemma addTasks_continues tasks : forall q,
  inv q -> continues q (snd (addTasks clock q tasks)).
Proof.
  induction tasks as [|task rest IH]; intros q Hinv; cbn [addTasks].
  - by apply continues_refl.
  - pose proof (addTask_continues q task Hinv) as H1.
    destruct (addTask clock q task) as [i q1]. cbn [snd] in H1.
    pose proof (IH q1 (proj1 H1)) as H2.
    destruct (addTasks clock q1 rest) as [ids q2]. cbn [snd] in *.
    eapply continues_trans; eauto.
Qed.

Lemma getNextTasks_continues count : forall q,
  inv q -> continues q (snd (getNextTasks clock q count)).
Proof.
  induction count as [|count IH]; intros q Hinv; cbn [getNextTasks].
  - by apply continues_refl.
  - destruct (queue q) as [|r rest] eqn:Eq; [by apply continues_refl|].
    pose proof (getNextTask_continues q Hinv) as H1.
    destruct (getNextTask clock q) as [task q1]. cbn [snd] in H1.
    pose proof (IH q1 (proj1 H1)) as H2.
    destruct (getNextTasks clock q1 count) as [tasks q2]. cbn [snd] in *.
    eapply continues_trans; eauto.
Qed.

Lemma call_continues q c : inv q -> continues q (call clock q c).
Proof.
  intros Hinv. destruct c; cbn [call].
  - by apply addTask_continues.
  - by apply addTasks_continues.
  - by apply getNextTask_continues.
  - by apply getNextTasks_continues.
  - by apply completeTask_continues.
  - by apply failTask_continues.
  - by apply clearCompleted_continues.
  - by apply clearAll_continues.
Qed.

Lemma calls_continues cs : forall q,
  inv q -> continues q (calls clock q cs).
Proof.
  induction cs as [|c cs IH]; intros q Hinv; cbn.
  - by apply continues_refl.
  - pose proof (call_continues q c Hinv) as H1.
    eapply continues_trans; [exact H1|]. apply IH, H1.
Qed.

Lemma create_inv w : inv (create w).
Proof.
  constructor; cbn.
  - constructor.
  - intros r Hin. by apply not_elem_of_nil in Hin.
  - intros i r Hrun. by rewrite lookup_empty in Hrun.
  - intros r task Ht. by rewrite lookup_empty in Ht.
  - intros r1 r2 t1 t2 Ht. by rewrite lookup_empty in Ht.
Qed.

Lemma reachable_inv q : reachable clock q -> inv q.
Proof.
  induction 1 as [w|q c _ IH]; [apply create_inv|].
  apply (call_continues q c IH).
Qed.

Lemma reachable_calls q cs : reachable clock q -> reachable clock (calls clock q cs).
Proof.
  revert q. induction cs as [|c cs IH]; intros q Hq; cbn; [assumption|].
  apply IH. by constructor.
Qed.

(** A reference that is allocated and no longer live never becomes live
    again. *)
Lemma continues_retired q q' r :
  continues q q' -> allocated q r -> ~ live q r -> allocated q' r /\ ~ live q' r.
Proof.
  intros (_ & Ha & Hl) Hal Hnl. split; [auto|].
  intros Hlive. destruct (Hl r Hlive); contradiction.
Qed.

(** What [getNextTask] does on a non-empty queue. *)
Lemma getNextTask_pending q r rest :
  inv q -> queue q = r :: rest ->
  exists task,
    objects q !! r = Some task /\ status task = pending
    /\ getNextTask clock q
       = (Some r,
          {| objects :=
               <[r := set_startedAt (Some (clock (World.dates (world q))))
                        (set_status running task)]> (objects q);
             queue := rest;
             runningTasks := <[id task := r]> (runningTasks q);
             completedTasks := completedTasks q;
             taskDurations := taskDurations q;
             world := World.mk (World.uuids (world q)) (S (World.dates (world q))) |}).
Proof.
  intros Hinv Eq. destruct (inv_queue_allocated q Hinv r) as (task & Ht & Hs & _).
  { rewrite Eq. by left. }
  exists task. repeat apply conj; auto.
  unfold getNextTask. rewrite Eq, Ht. reflexivity.
Qed.

Lemma getNextTasks_take count : forall q,
  inv q -> fst (getNextTasks clock q count) = take count (queue q).
Proof.
  induction count as [|count IH]; intros q Hinv; cbn [getNextTasks].
  - reflexivity.
  - destruct (queue q) as [|r rest] eqn:Eq; [reflexivity|].
    destruct (getNextTask_pending q r rest Hinv Eq) as (task & _ & _ & Hget).
    pose proof (getNextTask_continues q Hinv) as [Hinv1 _].
    rewrite Hget in *. cbn [snd] in Hinv1.
    specialize (IH _ Hinv1).
    destruct (getNextTasks clock _ count) as [tasks q2].
    cbn in *. by rewrite IH.
Qed.

Lemma dispatched_pending q c r :
  inv q -> r ∈ dispatched clock q c -> r ∈ queue q.
Proof.
  intros Hinv. destruct c; cbn [dispatched]; try (intros H; by apply not_elem_of_nil in H).
  - destruct (queue q) as [|r0 rest] eqn:Eq.
    + unfold getNextTask. rewrite Eq. cbn. intros H. by apply not_elem_of_nil in H.
    + destruct (getNextTask_pending q r0 rest Hinv Eq) as (task & _ & _ & ->).
      cbn. intros ->%list_elem_of_singleton. by left.
  - rewrite getNextTasks_take by assumption. apply subseteq_take.
Qed.

Lemma pending_ids_spec q i :
  i ∈ pending_ids q
  <-> exists r task, r ∈ queue q /\ objects q !! r = Some task /\ id task = i.
Proof.
  unfold pending_ids. rewrite list_elem_of_omap. split.
  - intros (r & Hin & Hi). destruct (objects q !! r) as [task|] eqn:Ht;
      [|discriminate]. injection Hi as <-. eauto.
  - intros (r & task & Hin & Ht & <-). exists r. by rewrite Ht.
Qed.

Lemma pending_ids_NoDup q : inv q -> NoDup (pending_ids q).
Proof.
  intros Hinv. unfold pending_ids.
  pose proof (inv_queue_nodup q Hinv) as Hnd.
  induction Hnd as [|r l Hnotin Hnd IH]; cbn; [constructor|].
  destruct (objects q !! r) as [task|] eqn:Ht; cbn; [|exact IH].
  constructor; [|exact IH].
  rewrite list_elem_of_omap. intros (r' & Hin & Hi).
  destruct (objects q !! r') as [task'|] eqn:Ht'; [|discriminate].
  injection Hi as Hi.
  assert (r' = r) as -> by (eapply (inv_ids_distinct q Hinv); eauto).
  contradiction.
Qed.

Lemma pending_ids_length q : inv q -> length (pending_ids q) = length (queue q).
Proof.
  intros Hinv. unfold pending_ids.
  pose proof (inv_queue_allocated q Hinv) as Hq.
  induction (queue q) as [|r l IH]; [reflexivity|]. cbn.
  destruct (Hq r) as (task & -> & _); [by left|]. cbn.
  rewrite IH; [reflexivity|]. intros r' Hin. apply Hq. by right.
Qed.

Lemma addTasks_runningTasks tasks : forall q,
  runningTasks (snd (addTasks clock q tasks)) = runningTasks q.
Proof.
  induction tasks as [|task rest IH]; intros q; cbn [addTasks]; [reflexivity|].
  assert (H1 : runningTasks (snd (addTask clock q task)) = runningTasks q)
    by reflexivity.
  destruct (addTask clock q task) as [i q1]. specialize (IH q1).
  destruct (addTasks clock q1 rest) as [ids q2]. cbn [snd] in *. congruence.
Qed.

Lemma call_runningTasks_subseteq q c :
  is_dequeue c = false -> runningTasks (call clock q c) ⊆ runningTasks q.
Proof.
  destruct c; cbn [is_dequeue call]; try discriminate; intros _.
  - reflexivity.
  - by rewrite addTasks_runningTasks.
  - unfold completeTask.
    destruct (runningTasks q !! taskId0) as [r|]; [|reflexivity].
    destruct (objects q !! r); [|reflexivity]. cbn. apply delete_subseteq.
  - unfold failTask.
    destruct (runningTasks q !! taskId0) as [r|]; [|reflexivity].
    destruct (objects q !! r) as [task|]; [|reflexivity].
    cbn [retryCount maxRetries set_retryCount].
    destruct (retryCount task + 1 <? maxRetries task)%Z; cbn;
      apply delete_subseteq.
  - reflexivity.
  - cbn. apply map_empty_subseteq.
Qed.

(** A batch dequeue takes the first [count] pending tasks, in queue order:
    each leaves the pending queue and enters the running map, marked
    running and stamped with the clock reading of its own dequeue; nothing
    else enters the running map and no other object changes. *)
Lemma getNextTasks_state count : forall q,
  inv q ->
  let q' := snd (getNextTasks clock q count) in
  queue q' = drop count (queue q)
  /\ (forall k r,
        take count (queue q) !! k = Some r ->
        exists task task',
          objects q !! r = Some task /\ status task = pending
          /\ objects q' !! r = Some task'
          /\ id task' = id task
          /\ status task' = running
          /\ startedAt task' = Some (clock (World.dates (world q) + k))
          /\ runningTasks q' !! id task = Some r)
  /\ (forall i r,
        runningTasks q' !! i = Some r ->
        runningTasks q !! i = Some r \/ r ∈ take count (queue q))
  /\ (forall r, r ∉ take count (queue q) -> objects q' !! r = objects q !! r)
  /\ (forall i r,
        runningTasks q !! i = Some r -> runningTasks q' !! i = Some r).
Proof.
  induction count as [|count IH]; intros q Hinv; cbn [getNextTasks].
  - cbn. repeat apply conj; auto. intros k r Hk. discriminate.
  - destruct (queue q) as [|r rest] eqn:Eq.
    { cbn. rewrite Eq. repeat apply conj; auto. intros k r Hk. discriminate. }
    destruct (getNextTask_pending q r rest Hinv Eq) as (task & Ht & Hs & Hget).
    pose proof (getNextTask_continues q Hinv) as [Hinv1 _].
    pose proof (inv_queue_nodup q Hinv) as Hnd. rewrite Eq in Hnd.
    apply NoDup_cons in Hnd as [Hnotin Hnd].
    destruct (inv_queue_allocated q Hinv r) as (t0 & Ht0 & _ & Hnone);
      [rewrite Eq; by left|].
    assert (t0 = task) as -> by congruence.
    rewrite Hget in *. cbn [snd] in Hinv1.
    set (q1 := mk _ _ _ _ _ _) in *.
    destruct (IH q1 Hinv1) as (Hq & Hrs & Hnew & Hframe & Hkept).
    destruct (getNextTasks clock q1 count) as [tasks q2]. cbn [snd] in *.
    cbn [queue q1] in Hq, Hrs, Hnew, Hframe. cbn [drop take].
    repeat apply conj.
    + exact Hq.
    + intros [|k] r0 Hk.
      * injection Hk as <-.
        exists task, (set_startedAt (Some (clock (World.dates (world q))))
                        (set_status running task)).
        rewrite Nat.add_0_r. repeat apply conj; auto.
        -- rewrite Hframe.
           ++ apply lookup_insert_eq.
           ++ intros Hin. apply Hnotin. by apply (subseteq_take count rest).
        -- apply Hkept. apply lookup_insert_eq.
      * cbn in Hk. destruct (Hrs k r0 Hk)
          as (t1 & t1' & Ht1 & Hs1 & Ht1' & Hid1 & Hs1' & Hst1 & Hrun1).
        assert (r <> r0).
        { intros <-. apply Hnotin. apply (subseteq_take count rest).
          eapply list_elem_of_lookup_2, Hk. }
        cbn in Ht1. rewrite lookup_insert_ne in Ht1 by assumption.
        exists t1, t1'. repeat apply conj; auto.
        rewrite Hst1. cbn. do 2 f_equal. lia.
    + intros i r0 Hrun. destruct (Hnew i r0 Hrun) as [Hold | Hin].
      * cbn in Hold. destruct (decide (id task = i)) as [<-|Hne].
        -- rewrite lookup_insert_eq in Hold. injection Hold as <-.
           right. by left.
        -- rewrite lookup_insert_ne in Hold by assumption. by left.
      * right. by right.
    + intros r0 Hr0. apply not_elem_of_cons in Hr0 as [Hne Hr0].
      rewrite (Hframe r0 Hr0). cbn. by rewrite lookup_insert_ne.
    + intros i r0 Hrun. apply Hkept. cbn.
      rewrite lookup_insert_ne; [assumption|]. congruence.
Qed.

(** C9: in every reachable state the identifiers of the pending tasks are
    distinct and none of them is in the running map; a call that is not a
    dequeue adds nothing to the running map; [getNextTask] moves the head of
    the pending queue to the running map, marking it running and stamping
    [startedAt]; and a batch dequeue hands out the first tasks of the
    pending queue, each once, and moves exactly these from the pending
    queue to the running map, each marked running and stamped with the
    reading of the clock at its own dequeue. *)
Theorem pending_and_running_disjoint (q : t) (Hreach : reachable clock q) :
  NoDup (pending_ids q)
  /\ length (pending_ids q) = length (queue q)
  /\ (forall i, i ∈ pending_ids q -> runningTasks q !! i = None)
  /\ (forall c, is_dequeue c = false ->
        runningTasks (call clock q c) ⊆ runningTasks q)
  /\ (forall r rest,
        queue q = r :: rest ->
        let q' := snd (getNextTask clock q) in
        exists task task',
          objects q !! r = Some task /\ status task = pending
          /\ fst (getNextTask clock q) = Some r
          /\ queue q' = rest
          /\ runningTasks q' = <[id task := r]> (runningTasks q)
          /\ objects q' !! r = Some task'
          /\ id task' = id task
          /\ status task' = running
          /\ startedAt task' = Some (clock (World.dates (world q))))
  /\ (forall count,
        let q' := snd (getNextTasks clock q count) in
        fst (getNextTasks clock q count) = take count (queue q)
        /\ NoDup (fst (getNextTasks clock q count))
        /\ queue q' = drop count (queue q)
        /\ (forall k r,
              fst (getNextTasks clock q count) !! k = Some r ->
              exists task task',
                objects q !! r = Some task /\ status task = pending
                /\ objects q' !! r = Some task'
                /\ id task' = id task
                /\ status task' = running
                /\ startedAt task' = Some (clock (World.dates (world q) + k))
                /\ runningTasks q' !! id task = Some r
                /\ r ∉ queue q')
        /\ (forall i r,
              runningTasks q' !! i = Some r ->
              runningTasks q !! i = Some r
              \/ r ∈ fst (getNextTasks clock q count))).
Proof.
  pose proof (reachable_inv q Hreach) as Hinv.
  repeat apply conj.
  - by apply pending_ids_NoDup.
  - by apply pending_ids_length.
  - intros i (r & task & Hin & Ht & <-)%pending_ids_spec.
    destruct (inv_queue_allocated q Hinv r Hin) as (t0 & Ht0 & _ & Hrun).
    congruence.
  - apply call_runningTasks_subseteq.
  - intros r rest Eq.
    destruct (getNextTask_pending q r rest Hinv Eq) as (task & Ht & Hs & ->).
    cbn. eexists task, _. rewrite lookup_insert_eq.
    repeat apply conj; auto.
  - intros count. cbn zeta.
    destruct (getNextTasks_state count q Hinv) as (Hq & Hrs & Hnew & _ & _).
    rewrite getNextTasks_take by assumption.
    pose proof (inv_queue_nodup q Hinv) as Hnd.
    repeat apply conj.
    + reflexivity.
    + eapply sublist_NoDup; [exact Hnd | apply sublist_take].
    + exact Hq.
    + intros k r Hk.
      destruct (Hrs k r Hk)
        as (task & task' & Ht & Hs & Ht' & Hid & Hs' & Hst & Hrun).
      exists task, task'. repeat apply conj; auto.
      rewrite Hq. intros Hin.
      rewrite <- (take_drop count (queue q)) in Hnd.
      apply NoDup_app in Hnd as (_ & Hdisj & _).
      apply (Hdisj r); [eapply list_elem_of_lookup_2, Hk | exact Hin].
    + exact Hnew.
Qed.

(** C2, amended: [failTask] on a running task first increments
    [retryCount].  If the incremented count is below [maxRetries] the task
    goes back to the pending queue as pending, with [startedAt] cleared and
    the error recorded.  Otherwise it is marked failed, its failure is
    stored in the completed-results map with the error, and no later
    dequeue returns it. *)
Theorem failTask_requeues_or_fails (q : t) (i r : nat) (err : string)
    (Hreach : reachable clock q) (Hrun : runningTasks q !! i = Some r) :
  exists task,
    objects q !! r = Some task /\ id task = i /\ status task = running
    /\ let q' := failTask clock q i err in
       ((retryCount task + 1 < maxRetries task)%Z ->
          exists task',
            objects q' !! r = Some task'
            /\ id task' = i
            /\ status task' = pending
            /\ retryCount task' = (retryCount task + 1)%Z
            /\ startedAt task' = None
            /\ error task' = Some err
            /\ r ∈ queue q'
            /\ i ∈ pending_ids q'
            /\ runningTasks q' !! i = None
            /\ completedTasks q' = completedTasks q)
       /\ ((maxRetries task <= retryCount task + 1)%Z ->
             exists task',
               objects q' !! r = Some task'
               /\ id task' = i
               /\ status task' = failed
               /\ retryCount task' = (retryCount task + 1)%Z
               /\ error task' = Some err
               /\ completedAt task' = Some (clock (World.dates (world q)))
               /\ completedTasks q' !! i
                  = Some {| taskId := i; success := false; data := None;
                            result_error := Some err;
                            duration := elapsed (clock (World.dates (world q))) task |}
               /\ runningTasks q' !! i = None
               /\ (r ∉ queue q')
               /\ (i ∉ pending_ids q')
               /\ forall cs c, r ∉ dispatched clock (calls clock q' cs) c).
Proof.
  pose proof (reachable_inv q Hreach) as Hinv.
  destruct (inv_running q Hinv i r Hrun) as (task & Ht & Hid & Hs & Hnq).
  exists task. repeat apply conj; auto.
  - intros Hlt. apply Z.ltb_lt in Hlt.
    unfold failTask. rewrite Hrun, Ht.
    cbn [retryCount maxRetries set_retryCount]. rewrite Hlt. cbn.
    eexists. rewrite lookup_insert_eq. split; [reflexivity|].
    repeat apply conj; auto.
    + apply elem_of_requeue. by right.
    + apply list_elem_of_omap. exists r. split.
      * apply elem_of_requeue. by right.
      * rewrite lookup_insert_eq. cbn. by rewrite Hid.
    + apply lookup_delete_eq.
  - intros Hge. apply Z.ltb_ge in Hge.
    pose proof (failTask_continues q i err Hinv) as Hcont.
    unfold failTask in *. rewrite Hrun, Ht in *.
    cbn [retryCount maxRetries set_retryCount] in *. rewrite Hge in *.
    cbn in *. set (q' := TaskQueue.mk _ _ _ _ _ _) in *.
    assert (Hnl : ~ live q' r).
    { intros [Hin | [j Hj]]; cbn in *; [contradiction|].
      destruct (decide (i = j)) as [<-|Hne].
      - rewrite lookup_delete_eq in Hj. discriminate.
      - rewrite lookup_delete_ne in Hj by assumption.
        destruct (inv_running q Hinv j r Hj) as (t1 & Ht1 & Hid1 & _).
        congruence. }
    eexists. rewrite lookup_insert_eq. split; [reflexivity|].
    repeat apply conj; auto.
    + apply lookup_insert_eq.
    + apply lookup_delete_eq.
    + intros (r' & Hin & Hi')%list_elem_of_omap.
      destruct (decide (r = r')) as [<-|Hne]; [contradiction|].
      rewrite lookup_insert_ne in Hi' by assumption.
      destruct (objects q !! r') as [task'|] eqn:Ht'; [|discriminate].
      injection Hi' as Hi'.
      apply Hne. eapply (inv_ids_distinct q Hinv); eauto. congruence.
    + intros cs c Hin.
      pose proof (calls_continues cs q' (proj1 Hcont)) as Hcs.
      destruct (continues_retired q' (calls clock q' cs) r Hcs) as [_ Hdead];
        [|exact Hnl|].
      { unfold allocated. subst q'. cbn. rewrite lookup_insert_eq. eauto. }
      apply Hdead. left.
      eapply dispatched_pending; [exact (proj1 Hcs)|exact Hin].
Qed.

(** C10: [completeTask] and [failTask] on an identifier that is not in the
    running map leave the whole queue state as it is. *)
Theorem complete_fail_unknown_noop (q : t) (i : nat) (result : TaskOutcome)
    (err : string) (Hnot : runningTasks q !! i = None) :
  completeTask clock q i result = q /\ failTask clock q i err = q.
Proof.
  unfold completeTask, failTask. rewrite Hnot. auto.
Qed.

End TaskQueueFacts.

(** ** Concrete runs *)

Section Scenarios.

Import TaskQueue.

Lemma one_running_reachable maxRetries :
  reachable sample_clock (one_running maxRetries).
Proof. apply reachable_calls, reachable_create. Qed.

(** C2, as stated, fails: a running task with [retryCount = 0] and
    [maxRetries = 1] has [retryCount < maxRetries] when [failTask] is
    called, yet it is not put back into the pending queue: it is marked
    failed. *)
Lemma failTask_compares_after_increment_counterexample :
  ~ (forall (q : t) (i r : nat) (task : Task) (err : string),
       reachable sample_clock q ->
       runningTasks q !! i = Some r ->
       objects q !! r = Some task ->
       (retryCount task < maxRetries task)%Z ->
       r ∈ queue (failTask sample_clock q i err)
       /\ status <$> objects (failTask sample_clock q i err) !! r = Some pending).
Proof.
  intros H.
  destruct (H (one_running 1) 0 0
              (mkTask 0 product "B08N5WRWNW" DE 1 1000 None (Some 2000%Z) None
                 running 0 1 None)
              "timeout"%string) as [Hin _].
  - apply one_running_reachable.
  - reflexivity.
  - reflexivity.
  - reflexivity.
  - vm_compute in Hin. by apply not_elem_of_nil in Hin.
Qed.

Example failTask_last_retry_fails :
  let q' := failTask sample_clock (one_running 1) 0 "timeout" in
  status <$> objects q' !! 0 = Some failed
  /\ retryCount <$> objects q' !! 0 = Some 1%Z
  /\ queue q' = []
  /\ result_error <$> completedTasks q' !! 0 = Some (Some "timeout"%string).
Proof. vm_compute. auto. Qed.

Lemma failTask_requeues_or_fails_witness :
  0 ∈ queue (failTask sample_clock (one_running 3) 0 "timeout")
  /\ 0 ∉ queue (failTask sample_clock (one_running 1) 0 "timeout").
Proof.
  split.
  - destruct (failTask_requeues_or_fails sample_clock (one_running 3) 0 0
                "timeout" (one_running_reachable 3) eq_refl)
      as (task & Ht & _ & _ & Hretry & _).
    vm_compute in Ht. injection Ht as <-.
    destruct Hretry as (task' & _ & _ & _ & _ & _ & _ & Hin & _);
      [reflexivity | exact Hin].
  - destruct (failTask_requeues_or_fails sample_clock (one_running 1) 0 0
                "timeout" (one_running_reachable 1) eq_refl)
      as (task & Ht & _ & _ & _ & Hfail).
    vm_compute in Ht. injection Ht as <-.
    destruct Hfail as (task' & _ & _ & _ & _ & _ & _ & _ & _ & Hnotin & _);
      [discriminate | exact Hnotin].
Defined.

Lemma pending_and_running_disjoint_witness :
  NoDup (pending_ids busy_queue)
  /\ (forall i, i ∈ pending_ids busy_queue -> runningTasks busy_queue !! i = None)
  /\ queue (snd (getNextTasks sample_clock busy_queue 1))
     = drop 1 (queue busy_queue).
Proof.
  destruct (pending_and_running_disjoint sample_clock busy_queue)
    as (Hnd & _ & Hdisj & _ & _ & Hbatch).
  - apply reachable_calls, reachable_create.
  - split; [exact Hnd|]. split; [exact Hdisj|].
    destruct (Hbatch 1%nat) as (_ & _ & Hqueue & _). exact Hqueue.
Defined.

Lemma complete_fail_unknown_noop_witness :
  completeTask sample_clock busy_queue 7 (mkOutcome true None None 12) = busy_queue
  /\ failTask sample_clock busy_queue 7 "timeout" = busy_queue.
Proof.
  apply (complete_fail_unknown_noop sample_clock busy_queue 7). reflexivity.
Defined.

End Scenarios.

(** * Further properties of the code *)

(** ** Fee calculator: fee components *)

Section FeeComponentFacts.

Local Open Scope Q_scope.

Import FeeCalculator.

Lemma Qle_bool_false x y : Qle_bool x y = false <-> y < x.
Proof.
  rewrite <- not_true_iff_false, Qle_bool_iff.
  split; [apply Qnot_le_lt | apply Qlt_not_le].
Qed.

(** Every boolean comparison in the context becomes an inequality. *)
Ltac q_props :=
  unfold Decimal.lte, Decimal.gt, Decimal.lt, Decimal.zero in *;
  repeat match goal with
  | H : negb _ = true |- _ => apply negb_true_iff in H
  | H : negb _ = false |- _ => apply negb_false_iff in H
  | H : Qle_bool _ _ = true |- _ => apply Qle_bool_iff in H
  | H : Qle_bool _ _ = false |- _ => apply Qle_bool_false in H
  end.

(** Case analysis on every comparison that a goal branches on. *)
Ltac q_cases :=
  unfold Decimal.lte, Decimal.gt, Decimal.lt, Decimal.zero in *;
  repeat match goal with
  | |- context [Qle_bool ?a ?b] =>
      let E := fresh "E" in destruct (Qle_bool a b) eqn:E; cbn [negb andb orb]
  end;
  q_props.

Lemma default_rate_range category :
  7 # 100 <= default (15 # 100) (lookup_rate REFERRAL_FEES category) <= 17 # 100.
Proof.
  destruct (lookup_rate REFERRAL_FEES category) as [r|] eqn:E; cbn [default].
  - destruct (REFERRAL_FEES_range r (lookup_rate_In _ _ _ E)) as (H1 & H2 & _).
    auto.
  - lra.
Qed.

(** When [calculateFees] returns, the rate it read is a number between 7%
    and 17%. *)
Lemma calculateFees_rate params fb :
  calculateFees params = inr fb ->
  exists rate,
    getReferralFeeRate (category params) = Number rate
    /\ 7 # 100 <= rate <= 17 # 100.
Proof.
  unfold calculateFees. intros Hfb.
  destruct (inherited_name (category params)) eqn:E.
  - by rewrite (getReferralFeeRate_inherited _ E) in Hfb.
  - rewrite (getReferralFeeRate_own _ E). eexists. split; [reflexivity|].
    apply default_rate_range.
Qed.

(** X1: on a category that names no property inherited from
    [Object.prototype], the referral rate is the rate listed for it, and 15%
    when it is not listed; the fallback never replaces a listed rate, and
    the rate lies between 7% and 17%.  On the name of an inherited property
    the function returns that inherited member, which is no number. *)
Theorem getReferralFeeRate_listed_or_default (category : string) :
  match getReferralFeeRate category with
  | Number rate =>
      inherited_name category = false
      /\ rate = default (15 # 100) (lookup_rate REFERRAL_FEES category)
      /\ 7 # 100 <= rate <= 17 # 100
  | Inherited name =>
      name = category /\ inherited_name category = true
      /\ lookup_rate REFERRAL_FEES category = None
  | Undefined => False
  end.
Proof.
  destruct (inherited_name category) eqn:E.
  - rewrite (getReferralFeeRate_inherited _ E).
    auto using lookup_rate_inherited.
  - rewrite (getReferralFeeRate_own _ E).
    split; [reflexivity|]. split; [reflexivity | apply default_rate_range].
Qed.

Lemma calculateFBAFee_base marketplace weight dimensions :
  250 # 100 <= calculateFBAFee marketplace weight dimensions.
Proof.
  unfold calculateFBAFee, Decimal.add, Decimal.mul, Decimal.minus, FBA_WEIGHT_FEE,
    Decimal.gt, Decimal.lte, Decimal.zero.
  destruct marketplace; cbn;
    (destruct weight as [wt|];
     [destruct (Qle_bool wt 1) eqn:E; cbn [negb]; q_props|]);
    (destruct dimensions as [d|]; [|lra]);
    repeat match goal with
    | |- context [if ?c then _ else _] => destruct c
    end; lra.
Qed.

Lemma calculateShippingCost_base weight dimensions :
  350 # 100 <= calculateShippingCost weight dimensions.
Proof.
  unfold calculateShippingCost, Decimal.add, Decimal.mul, Decimal.minus.
  destruct weight as [wt|]; [|lra].
  destruct (Decimal.gt wt (5 # 10)) eqn:E; q_props; lra.
Qed.

(** X2: in a breakdown that [calculateFees] returns, a merchant-fulfilled
    sale pays no fulfilment and no storage fee and at least 3.50 shipping; a
    network-fulfilled sale pays no shipping and at least 2.50 fulfilment
    fee. *)
Theorem calculateFees_by_fulfillment (params : FeeCalculationParams)
    (fb : FeeBreakdown.t) (Hfb : calculateFees params = inr fb) :
  match fulfillmentType params with
  | FBM =>
      FeeBreakdown.fulfillmentFee fb == 0 /\ FeeBreakdown.storageFee fb == 0
      /\ 350 # 100 <= FeeBreakdown.shippingCost fb
  | FBA =>
      FeeBreakdown.shippingCost fb == 0
      /\ 250 # 100 <= FeeBreakdown.fulfillmentFee fb
  end.
Proof.
  unfold calculateFees in Hfb.
  destruct (getReferralFeeRate (category params)) as [rate| |];
    [|discriminate..].
  injection Hfb as <-. cbn.
  destruct (fulfillmentType params); cbn.
  - split; [reflexivity | apply calculateFBAFee_base].
  - split; [reflexivity|]. split; [reflexivity | apply calculateShippingCost_base].
Qed.

Lemma calculateFees_by_fulfillment_witness :
  exists fb,
    calculateFees (mkParams 100 "Books" FBM DE (Some (2 # 1)) None None) = inr fb
    /\ FeeBreakdown.fulfillmentFee fb == 0
    /\ FeeBreakdown.storageFee fb == 0
    /\ 350 # 100 <= FeeBreakdown.shippingCost fb.
Proof.
  eexists. split; [reflexivity|].
  apply (calculateFees_by_fulfillment
           (mkParams 100 "Books" FBM DE (Some (2 # 1)) None None)).
  reflexivity.
Defined.

Lemma calculateStorageFee_nonneg fulfillmentType dimensions :
  dims_nonneg dimensions -> 0 <= calculateStorageFee fulfillmentType dimensions.
Proof.
  intros Hd. unfold calculateStorageFee, Decimal.mul, Decimal.div, Decimal.zero.
  destruct fulfillmentType; [|lra].
  destruct dimensions as [d|]; [|lra].
  destruct Hd as (Hl & Hw & Hh).
  assert (Hv : 0 <= Dimensions.length d * Dimensions.width d * Dimensions.height d).
  { apply Qmult_le_0_compat; [apply Qmult_le_0_compat|]; assumption. }
  cbn zeta. apply Qmult_le_0_compat; [|lra].
  unfold Qdiv. apply Qmult_le_0_compat; [assumption|]. discriminate.
Qed.

(** X3: for a sale price that is not negative and a package whose edges are
    not negative, no component of a breakdown that [calculateFees] returns
    is negative, and the total is at least the referral fee plus VAT. *)
Theorem calculateFees_nonneg (params : FeeCalculationParams)
    (fb : FeeBreakdown.t)
    (Hfb : calculateFees params = inr fb)
    (Hprice : 0 <= salePrice params)
    (Hdims : dims_nonneg (productDimensions params)) :
  0 <= FeeBreakdown.referralFee fb
  /\ 0 <= FeeBreakdown.fulfillmentFee fb
  /\ 0 <= FeeBreakdown.storageFee fb
  /\ 0 <= FeeBreakdown.vat fb
  /\ 0 <= FeeBreakdown.shippingCost fb
  /\ FeeBreakdown.referralFee fb + FeeBreakdown.vat fb <= FeeBreakdown.total fb.
Proof.
  destruct (calculateFees_rate params fb Hfb) as (rate & Hrate & Hlo & _).
  unfold calculateFees in Hfb. rewrite Hrate in Hfb. injection Hfb as <-.
  cbn [FeeBreakdown.referralFee FeeBreakdown.fulfillmentFee
       FeeBreakdown.storageFee FeeBreakdown.vat FeeBreakdown.shippingCost
       FeeBreakdown.total].
  assert (Hr : 0 <= Decimal.mul (salePrice params) rate).
  { apply Qmult_le_0_compat; [assumption | lra]. }
  assert (Hv : 0 <= Decimal.mul (salePrice params) (VAT_RATES (marketplace params))).
  { apply Qmult_le_0_compat; [assumption|].
    destruct (marketplace params); cbn; lra. }
  assert (Hf : 0 <= match fulfillmentType params with
                    | FBA => calculateFBAFee (marketplace params)
                               (productWeight params) (productDimensions params)
                    | FBM => Decimal.zero
                    end).
  { destruct (fulfillmentType params).
    - pose proof (calculateFBAFee_base (marketplace params) (productWeight params)
                    (productDimensions params)). lra.
    - unfold Decimal.zero. lra. }
  assert (Hs : 0 <= calculateStorageFee (fulfillmentType params)
                      (productDimensions params))
    by by apply calculateStorageFee_nonneg.
  assert (Hsh : 0 <= match fulfillmentType params with
                     | FBM => calculateShippingCost (productWeight params)
                                (productDimensions params)
                     | FBA => Decimal.zero
                     end).
  { destruct (fulfillmentType params).
    - unfold Decimal.zero. lra.
    - pose proof (calculateShippingCost_base (productWeight params)
                    (productDimensions params)). lra. }
  assert (Hc : 0 <= closingFee params).
  { unfold closingFee. destruct (truthy (isMedia params)).
    - destruct (marketplace params); cbn; lra.
    - unfold Decimal.zero. lra. }
  repeat apply conj; try assumption.
  revert Hr Hv Hf Hs Hsh Hc. unfold Decimal.add.
  generalize (closingFee params). intros.
  destruct (fulfillmentType params); unfold Decimal.mul, Decimal.zero in *; lra.
Qed.

Lemma calculateFees_nonneg_witness :
  exists fb,
    calculateFees (mkParams 100 "default" FBA DE (Some (2 # 1))
                     (Some sample_box) None)
    = inr fb
    /\ 0 <= FeeBreakdown.storageFee fb.
Proof.
  eexists. split; [reflexivity|].
  apply (calculateFees_nonneg
           (mkParams 100 "default" FBA DE (Some (2 # 1)) (Some sample_box) None)).
  - reflexivity.
  - cbn. lra.
  - cbn. repeat split; lra.
Defined.

(** ** Fee calculator: size and weight *)

Lemma lte_longest l w h c :
  Decimal.lte (Decimal.max3 l w h) c
  = Decimal.lte l c && Decimal.lte w c && Decimal.lte h c.
Proof.
  unfold Decimal.lte, Decimal.max3. apply eq_true_iff_eq.
  rewrite !andb_true_iff, !Qle_bool_iff, !Q.max_lub_iff. tauto.
Qed.

(** Which of the sorted edges passes a threshold, in terms of the edges as
    given: the shortest when one edge passes, the median when two do. *)
Lemma lte_shortest l w h c :
  Decimal.lte (nth 0 (sort_asc [l; w; h]) Decimal.zero) c
  = Decimal.lte l c || Decimal.lte w c || Decimal.lte h c.
Proof.
  unfold sort_asc. cbn [foldl insert_asc].
  destruct (Decimal.lt w l) eqn:E1; cbn [insert_asc];
    repeat match goal with
    | |- context [if Decimal.lt ?a ?b then _ else _] =>
        let E := fresh "E" in destruct (Decimal.lt a b) eqn:E
    end; cbn [nth];
    destruct (Decimal.lte l c) eqn:Hl, (Decimal.lte w c) eqn:Hw,
      (Decimal.lte h c) eqn:Hh; cbn [orb]; q_props;
    first [reflexivity | exfalso; lra].
Qed.

Lemma lte_median l w h c :
  Decimal.lte (nth 1 (sort_asc [l; w; h]) Decimal.zero) c
  = (Decimal.lte l c && Decimal.lte w c) || (Decimal.lte l c && Decimal.lte h c)
    || (Decimal.lte w c && Decimal.lte h c).
Proof.
  unfold sort_asc. cbn [foldl insert_asc].
  destruct (Decimal.lt w l) eqn:E1; cbn [insert_asc];
    repeat match goal with
    | |- context [if Decimal.lt ?a ?b then _ else _] =>
        let E := fresh "E" in destruct (Decimal.lt a b) eqn:E
    end; cbn [nth];
    destruct (Decimal.lte l c) eqn:Hl, (Decimal.lte w c) eqn:Hw,
      (Decimal.lte h c) eqn:Hh; cbn [orb andb]; q_props;
    first [reflexivity | exfalso; lra].
Qed.

Lemma lte_volume_comp (v v' c : Q) :
  v == v' -> Decimal.lte v c = Decimal.lte v' c.
Proof. intros H. unfold Decimal.lte. by rewrite H. Qed.

Lemma lte_longest_swap l w h c :
  Decimal.lte (Decimal.max3 l w h) c = Decimal.lte (Decimal.max3 w l h) c
  /\ Decimal.lte (Decimal.max3 l w h) c = Decimal.lte (Decimal.max3 l h w) c.
Proof.
  rewrite !lte_longest.
  destruct (Decimal.lte l c), (Decimal.lte w c), (Decimal.lte h c); auto.
Qed.

Lemma lte_median_swap l w h c :
  Decimal.lte (nth 1 (sort_asc [l; w; h]) Decimal.zero) c
  = Decimal.lte (nth 1 (sort_asc [w; l; h]) Decimal.zero) c
  /\ Decimal.lte (nth 1 (sort_asc [l; w; h]) Decimal.zero) c
     = Decimal.lte (nth 1 (sort_asc [l; h; w]) Decimal.zero) c.
Proof.
  rewrite !lte_median.
  destruct (Decimal.lte l c), (Decimal.lte w c), (Decimal.lte h c); auto.
Qed.

Lemma lte_shortest_swap l w h c :
  Decimal.lte (nth 0 (sort_asc [l; w; h]) Decimal.zero) c
  = Decimal.lte (nth 0 (sort_asc [w; l; h]) Decimal.zero) c
  /\ Decimal.lte (nth 0 (sort_asc [l; w; h]) Decimal.zero) c
     = Decimal.lte (nth 0 (sort_asc [l; h; w]) Decimal.zero) c.
Proof.
  rewrite !lte_shortest.
  destruct (Decimal.lte l c), (Decimal.lte w c), (Decimal.lte h c); auto.
Qed.

(** X4: the fulfilment fee and the storage fee do not depend on the order
    in which the three edges of the package are given: exchanging the first
    two or the last two (and so any reordering) leaves both unchanged. *)
Theorem fees_ignore_dimension_order (marketplace : MarketplaceCode)
    (weight : option Decimal.t) (l w h : Decimal.t) :
  calculateFBAFee marketplace weight (Some (Dimensions.mk l w h))
  = calculateFBAFee marketplace weight (Some (Dimensions.mk w l h))
  /\ calculateFBAFee marketplace weight (Some (Dimensions.mk l w h))
     = calculateFBAFee marketplace weight (Some (Dimensions.mk l h w))
  /\ calculateStorageFee FBA (Some (Dimensions.mk l w h))
     == calculateStorageFee FBA (Some (Dimensions.mk w l h))
  /\ calculateStorageFee FBA (Some (Dimensions.mk l w h))
     == calculateStorageFee FBA (Some (Dimensions.mk l h w)).
Proof.
  repeat apply conj.
  - unfold calculateFBAFee.
    cbn [Dimensions.length Dimensions.width Dimensions.height].
    rewrite !(proj1 (lte_longest_swap l w h _)),
      !(proj1 (lte_median_swap l w h _)), !(proj1 (lte_shortest_swap l w h _)).
    rewrite (lte_volume_comp (Decimal.mul (Decimal.mul l w) h)
               (Decimal.mul (Decimal.mul w l) h));
      [reflexivity | unfold Decimal.mul; ring].
  - unfold calculateFBAFee.
    cbn [Dimensions.length Dimensions.width Dimensions.height].
    rewrite !(proj2 (lte_longest_swap l w h _)),
      !(proj2 (lte_median_swap l w h _)), !(proj2 (lte_shortest_swap l w h _)).
    rewrite (lte_volume_comp (Decimal.mul (Decimal.mul l w) h)
               (Decimal.mul (Decimal.mul l h) w));
      [reflexivity | unfold Decimal.mul; ring].
  - unfold calculateStorageFee, Decimal.mul, Decimal.div. cbn. unfold Qdiv. ring.
  - unfold calculateStorageFee, Decimal.mul, Decimal.div. cbn. unfold Qdiv. ring.
Qed.

(** X5: a heavier parcel is never cheaper: with everything else equal, the
    shipping cost and the fulfilment fee do not decrease when the weight
    grows. *)
Theorem heavier_never_cheaper (marketplace : MarketplaceCode)
    (dimensions : option Dimensions.t) (w1 w2 : Decimal.t) (Hw : w1 <= w2) :
  calculateShippingCost (Some w1) dimensions
  <= calculateShippingCost (Some w2) dimensions
  /\ calculateFBAFee marketplace (Some w1) dimensions
     <= calculateFBAFee marketplace (Some w2) dimensions.
Proof.
  split.
  - unfold calculateShippingCost, Decimal.add, Decimal.mul, Decimal.minus.
    destruct (Decimal.gt w1 (5 # 10)) eqn:E1, (Decimal.gt w2 (5 # 10)) eqn:E2;
      q_props; lra.
  - unfold calculateFBAFee.
    unfold Decimal.add, Decimal.mul, Decimal.minus, FBA_WEIGHT_FEE, Decimal.zero.
    destruct dimensions as [d|];
      [|destruct marketplace; cbn; q_cases; lra].
    generalize (Decimal.max3 (Dimensions.length d) (Dimensions.width d)
                  (Dimensions.height d)).
    generalize (nth 1 (sort_asc [Dimensions.length d; Dimensions.width d;
                                 Dimensions.height d]) 0).
    generalize (nth 0 (sort_asc [Dimensions.length d; Dimensions.width d;
                                 Dimensions.height d]) 0).
    generalize (Dimensions.length d * Dimensions.width d * Dimensions.height d).
    intros V S M L. cbn zeta.
    destruct marketplace; cbn; q_cases; lra.
Qed.

Lemma heavier_never_cheaper_witness :
  calculateFBAFee DE (Some (1 # 2)) (Some sample_box)
  <= calculateFBAFee DE (Some (3 # 1)) (Some sample_box).
Proof.
  apply (heavier_never_cheaper DE (Some sample_box) (1 # 2) (3 # 1)). lra.
Defined.

End FeeComponentFacts.

(** ** Deal classifier: reasons *)

Section ClassifierReasonFacts.

Local Open Scope Q_scope.

Import DealClassifier.

Lemma band_satisfiedb_minimums config margin roi :
  band_satisfiedb config margin roi = true ->
  num_ge margin (DealTierConfig.minMargin config) = true
  /\ num_ge roi (DealTierConfig.minRoi config) = true.
Proof.
  unfold band_satisfiedb, num_ge. rewrite !andb_true_iff. tauto.
Qed.

Lemma getDisqualificationReasons_nil tierConfigs margin roi :
  getDisqualificationReasons tierConfigs margin roi = []
  <-> DealTierConfig.minMargin (tierConfigs low) <= margin
      /\ DealTierConfig.minRoi (tierConfigs low) <= roi.
Proof.
  unfold getDisqualificationReasons.
  rewrite <- !num_lt_false.
  destruct (num_lt margin _), (num_lt roi _); cbn; split;
    first [ discriminate | intros [? ?]; discriminate | auto ].
Qed.

Lemma getDisqualificationReasons_cases tierConfigs margin roi :
  let minMargin := DealTierConfig.minMargin (tierConfigs low) in
  let minRoi := DealTierConfig.minRoi (tierConfigs low) in
  let reasons := getDisqualificationReasons tierConfigs margin roi in
  (margin < minMargin /\ roi < minRoi ->
   reasons = [MarginBelowMinimum margin minMargin; RoiBelowMinimum roi minRoi])
  /\ (margin < minMargin /\ minRoi <= roi ->
      reasons = [MarginBelowMinimum margin minMargin])
  /\ (minMargin <= margin /\ roi < minRoi ->
      reasons = [RoiBelowMinimum roi minRoi])
  /\ (minMargin <= margin /\ minRoi <= roi -> reasons = []).
Proof.
  cbn zeta. unfold getDisqualificationReasons.
  repeat apply conj; intros [Hm Hr].
  - apply num_lt_spec in Hm, Hr. by rewrite Hm, Hr.
  - apply num_lt_spec in Hm. apply num_lt_false in Hr. by rewrite Hm, Hr.
  - apply num_lt_false in Hm. apply num_lt_spec in Hr. by rewrite Hm, Hr.
  - apply num_lt_false in Hm, Hr. by rewrite Hm, Hr.
Qed.

(** X6: a deal that qualifies carries exactly two reasons, the margin and
    the ROI minimum of its tier, both met.  A deal that does not qualify
    carries exactly one reason for each minimum of the low tier that it
    misses, the margin before the ROI, each with the value and the minimum
    it missed; it carries none at all when it reaches both minimums and
    misses the low tier only through an upper bound. *)
Theorem classify_reasons (tierConfigs : DealTier -> DealTierConfig.t)
    (deal : Deal.t) :
  let margin := DealMetrics.margin (Deal.metrics deal) in
  let roi := DealMetrics.roi (Deal.metrics deal) in
  let minMargin := DealTierConfig.minMargin (tierConfigs low) in
  let minRoi := DealTierConfig.minRoi (tierConfigs low) in
  let result := classify tierConfigs deal in
  if qualifies result then
    reasons result
    = [MarginMeetsMinimum margin
         (DealTierConfig.minMargin (tierConfigs (tier result)));
       RoiMeetsMinimum roi (DealTierConfig.minRoi (tierConfigs (tier result)))]
  else
    (margin < minMargin /\ roi < minRoi ->
     reasons result
     = [MarginBelowMinimum margin minMargin; RoiBelowMinimum roi minRoi])
    /\ (margin < minMargin /\ minRoi <= roi ->
        reasons result = [MarginBelowMinimum margin minMargin])
    /\ (minMargin <= margin /\ roi < minRoi ->
        reasons result = [RoiBelowMinimum roi minRoi])
    /\ (minMargin <= margin /\ minRoi <= roi -> reasons result = [])
    /\ (reasons result = [] <-> minMargin <= margin /\ minRoi <= roi).
Proof.
  intros margin roi minMargin minRoi result. subst result. unfold classify.
  rewrite !checkTier_band. fold margin roi.
  assert (Hmeets : forall t,
             band_satisfiedb (tierConfigs t) margin roi = true ->
             getTierReasons tierConfigs t margin roi
             = [MarginMeetsMinimum margin (DealTierConfig.minMargin (tierConfigs t));
                RoiMeetsMinimum roi (DealTierConfig.minRoi (tierConfigs t))]).
  { intros t [H1 H2]%band_satisfiedb_minimums. unfold getTierReasons.
    rewrite H1, H2. reflexivity. }
  destruct (band_satisfiedb (tierConfigs high) margin roi) eqn:Eh; cbn.
  { by apply Hmeets. }
  destruct (band_satisfiedb (tierConfigs medium) margin roi) eqn:Em; cbn.
  { by apply Hmeets. }
  destruct (band_satisfiedb (tierConfigs low) margin roi) eqn:El; cbn.
  { by apply Hmeets. }
  destruct (getDisqualificationReasons_cases tierConfigs margin roi)
    as (H1 & H2 & H3 & H4).
  repeat apply conj; try assumption.
  all: apply getDisqualificationReasons_nil.
Qed.

(** A deal below both minimums of the low band: two reasons, the margin
    first. *)
Example classify_two_reasons :
  reasons (classify overlapping_bands (mk_deal 5 10))
  = [MarginBelowMinimum 5 (DealTierConfig.minMargin (overlapping_bands low));
     RoiBelowMinimum 10 (DealTierConfig.minRoi (overlapping_bands low))].
Proof. reflexivity. Qed.

(** A deal above the low band's upper bound: not qualified, and no reason. *)
Example classify_no_reason :
  let bands tier :=
    match tier with
    | high => DealTierConfig.mk 80 None 300 None "high-role" 65280
    | medium => DealTierConfig.mk 70 None 200 None "medium-role" 16776960
    | low => DealTierConfig.mk 25 (Some 35) 50 None "low-role" 16711680
    end in
  qualifies (classify bands (mk_deal 40 100)) = false
  /\ reasons (classify bands (mk_deal 40 100)) = [].
Proof. vm_compute. auto. Qed.

End ClassifierReasonFacts.

(** ** Deal analyzer: what a deal carries *)

Section AnalyzeFacts.

Local Open Scope Q_scope.

Import DealAnalyzer.

Variable clock : nat -> Z.
Variable tierConfigs : DealTier -> DealTierConfig.t.

(** The deal that [analyze] returns and what the call consumes: one
    identifier, one clock reading, one log line. *)
Lemma analyze_effects (env env' : Env) (product : ProductData.t)
    (options : AnalysisOptions) (deal : Deal.t) :
  analyze clock tierConfigs env product options = (env', inr deal) ->
  Deal.product deal = product
  /\ Deal.fulfillmentType deal = fulfillmentType options
  /\ Deal.id deal = World.uuids (world env)
  /\ Deal.detectedAt deal = clock (World.dates (world env))
  /\ world env'
     = World.mk (S (World.uuids (world env))) (S (World.dates (world env)))
  /\ log env' = log env ++ [line_of deal].
Proof.
  unfold analyze. destruct (FeeCalculator.calculateFees _) as [e|fb];
    [discriminate|].
  cbn. intros [= <- <-]. cbn. auto 10.
Qed.

Lemma analyze_each_effects pairs : forall env,
  let k := plain_prefix pairs.*2 in
  exists env' result lines,
    analyze_each clock tierConfigs env pairs = (env', result)
    /\ world env'
       = World.mk (World.uuids (world env) + k) (World.dates (world env) + k)
    /\ log env' = log env ++ lines
    /\ length lines = k
    /\ match result with
       | inr deals =>
           k = length pairs /\ Deal.product <$> deals = pairs.*1
           /\ lines = line_of <$> deals
       | inl e =>
           exists options,
             pairs.*2 !! k = Some options
             /\ e = FeeError
                      (FeeCalculator.InvalidArgument
                         (FeeCalculator.Inherited (category_of options)))
       end.
Proof.
  induction pairs as [|[product options] rest IH]; intros env; cbn zeta.
  - exists env, (inr []), []. cbn. rewrite app_nil_r, !Nat.add_0_r.
    destruct (world env). repeat apply conj; reflexivity.
  - cbn [fmap list_fmap snd plain_prefix analyze_each].
    destruct (FeeCalculator.inherited_name (category_of options)) eqn:E.
    + rewrite analyze_inherited by (unfold plain_category; congruence).
      exists env, (inl (FeeError (FeeCalculator.InvalidArgument
                                   (FeeCalculator.Inherited (category_of options))))), [].
      rewrite app_nil_r, !Nat.add_0_r. destruct (world env).
      repeat apply conj; auto. exists options. auto.
    + destruct (analyze_plain clock tierConfigs env product options E)
        as (deal & env1 & Ha).
      rewrite Ha.
      destruct (analyze_effects _ _ _ _ _ Ha) as (Hp & _ & _ & _ & Hw & Hl).
      destruct (IH env1) as (env2 & result & lines & Hrun & Hw2 & Hl2 & Hn & Hres).
      rewrite Hrun. rewrite Hw in Hw2. cbn in Hw2.
      destruct result as [e|deals].
      * exists env2, (inl e), (line_of deal :: lines).
        repeat apply conj.
        -- reflexivity.
        -- rewrite Hw2. f_equal; lia.
        -- rewrite Hl2, Hl, <- app_assoc. reflexivity.
        -- cbn. by rewrite Hn.
        -- exact Hres.
      * destruct Hres as (Hk & Hps & Hlines).
        exists env2, (inr (deal :: deals)), (line_of deal :: lines).
        repeat apply conj.
        -- reflexivity.
        -- rewrite Hw2. f_equal; lia.
        -- rewrite Hl2, Hl, <- app_assoc. reflexivity.
        -- cbn. by rewrite Hn.
        -- cbn. by rewrite Hk.
        -- cbn. by rewrite Hp, Hps.
        -- cbn. by rewrite Hlines.
Qed.

(** X7: once the lengths agree a batch is not all-or-nothing.  It analyses
    the products in order up to the first options whose category names an
    inherited property; for each deal analysed it draws one identifier,
    reads the clock once and appends the log line of that deal, and these
    effects stay when a later call throws.  When no call throws the deals
    returned are those of the products, in order, and the log has grown by
    exactly their lines. *)
Theorem analyzeBatch_effects (env : Env) (products : list ProductData.t)
    (optionsList : list AnalysisOptions)
    (Hlen : length products = length optionsList) :
  let k := plain_prefix optionsList in
  exists env' result lines,
    analyzeBatch clock tierConfigs env products optionsList = (env', result)
    /\ world env'
       = World.mk (World.uuids (world env) + k) (World.dates (world env) + k)
    /\ log env' = log env ++ lines
    /\ length lines = k
    /\ match result with
       | inr deals =>
           k = length products /\ Deal.product <$> deals = products
           /\ lines = line_of <$> deals
       | inl e =>
           exists options,
             optionsList !! k = Some options
             /\ e = FeeError
                      (FeeCalculator.InvalidArgument
                         (FeeCalculator.Inherited (category_of options)))
       end.
Proof.
  cbn zeta. unfold analyzeBatch. pose proof Hlen as Heq.
  apply Nat.eqb_eq in Heq. rewrite Heq. cbn [negb].
  rewrite map_analyze_each by lia. rewrite drop_0.
  destruct (analyze_each_effects (zip products optionsList) env)
    as (env' & result & lines & Hrun & Hw & Hl & Hn & Hres).
  rewrite snd_zip in Hw, Hn, Hres by lia.
  exists env', result, lines. repeat apply conj; auto.
  destruct result as [e|deals]; [exact Hres|].
  rewrite fst_zip, length_zip in Hres by lia.
  destruct Hres as (Hk & Hps & Hlines). repeat apply conj; auto. lia.
Qed.

(** X29: on arrays of unequal length [analyzeBatch] raises its error at
    once, leaving the environment as it found it (no identifier drawn, no
    clock read, nothing logged).  On arrays of equal length n it applies
    [analyze] to the pairs in turn.  When no category names an inherited
    property every call returns and so does the batch; whenever it returns,
    it returns n deals, the i-th being [analyze] applied to the i-th product
    and the i-th options; and when it throws, the error is the one that a
    call of [analyze] threw. *)
Theorem analyzeBatch_sequential (env : Env) (products : list ProductData.t)
    (optionsList : list AnalysisOptions) :
  (length products <> length optionsList ->
   analyzeBatch clock tierConfigs env products optionsList
   = (env, inl (ErrorMessage "Products and options lists must have the same length")))
  /\ (length products = length optionsList ->
      let pairs := zip products optionsList in
      let env_before i :=
        fst (analyze_each clock tierConfigs env (take i pairs)) in
      (Forall plain_category optionsList ->
       exists deals env',
         analyzeBatch clock tierConfigs env products optionsList
         = (env', inr deals))
      /\ (forall deals env',
            analyzeBatch clock tierConfigs env products optionsList
            = (env', inr deals) ->
            length deals = length products
            /\ forall i product options,
                 products !! i = Some product ->
                 optionsList !! i = Some options ->
                 exists deal,
                   deals !! i = Some deal
                   /\ snd (analyze clock tierConfigs (env_before i)
                             product options)
                      = inr deal)
      /\ (forall e env',
            analyzeBatch clock tierConfigs env products optionsList
            = (env', inl e) ->
            exists i product options,
              products !! i = Some product
              /\ optionsList !! i = Some options
              /\ analyze clock tierConfigs (env_before i) product options
                 = (env', inl e))).
Proof.
  unfold analyzeBatch. split; intros Hlen.
  - apply Nat.eqb_neq in Hlen. rewrite Hlen. reflexivity.
  - pose proof Hlen as Heq. apply Nat.eqb_eq in Heq. rewrite Heq. cbn [negb].
    rewrite map_analyze_each by lia. rewrite drop_0. cbn zeta.
    split; [|split].
    + intros Hall. apply analyze_each_plain.
      apply Forall_forall. intros [p o] Hin.
      apply elem_of_zip_r in Hin. cbn.
      rewrite Forall_forall in Hall. by apply Hall.
    + intros deals env' Hrun.
      destruct (analyze_each_inr _ _ _ _ _ _ Hrun) as [Hl Hith].
      split; [rewrite Hl, length_zip; lia|].
      intros i product options Hp Ho. apply Hith.
      rewrite lookup_zip_with, Hp. cbn. by rewrite Ho.
    + intros e env' Hrun.
      destruct (analyze_each_inl _ _ _ _ _ _ Hrun)
        as (i & product & options & Hi & Ha).
      exists i, product, options.
      apply lookup_zip_with_Some in Hi as (p & o & [= -> ->] & Hp & Ho).
      auto.
Qed.

(** X8: with a positive sale price the margin has the sign of the profit and
    does not exceed 100% as long as cost plus fees are not negative; with a
    positive cost price as well, margin and ROI describe the same profit:
    margin x sale price = ROI x cost price. *)
Theorem calculateMetrics_margin_roi (salePrice costPrice totalFees : Decimal.t)
    (Hsale : 0 < salePrice) :
  let m := calculateMetrics salePrice costPrice totalFees in
  (0 < DealMetrics.margin m <-> 0 < DealMetrics.profit m)
  /\ (0 <= costPrice + totalFees -> DealMetrics.margin m <= 100)
  /\ (0 < costPrice ->
      DealMetrics.margin m * salePrice == DealMetrics.roi m * costPrice).
Proof.
  unfold calculateMetrics. cbn.
  assert (Hs : Decimal.gt salePrice 0 = true) by by apply Decimal_gt_spec.
  rewrite Hs. unfold Decimal.toNumber, Decimal.mul, Decimal.div, Decimal.minus.
  set (profit := salePrice - costPrice - totalFees).
  assert (Hq : profit / salePrice * salePrice == profit).
  { field. intros E. rewrite E in Hsale. lra. }
  split; [|split].
  - split; intros H.
    + assert (0 < profit / salePrice) by lra.
      rewrite <- Hq. apply Qmult_lt_0_compat; assumption.
    + assert (0 < profit / salePrice); [|lra].
      apply Qlt_shift_div_l; lra.
  - intros Hc. assert (profit / salePrice <= 1); [|lra].
    apply Qle_shift_div_r; [assumption|]. subst profit. lra.
  - intros Hcost.
    assert (Hc : Decimal.gt costPrice 0 = true) by by apply Decimal_gt_spec.
    rewrite Hc. field. split; intros E; [rewrite E in Hcost | rewrite E in Hsale]; lra.
Qed.

End AnalyzeFacts.

(** ** Price history: queries and clearing *)

Section PriceHistoryQueryFacts.

Local Open Scope Q_scope.

Import PriceHistoryManager.

Lemma getKey_code a m : PriceHistoryQueries.getKey a (code m) = getKey a m.
Proof. reflexivity. Qed.

Lemma most_recent_most_recent {A} (a b : nat) (l : list A) :
  most_recent a (most_recent b l) = most_recent (a `min` b) l.
Proof.
  unfold most_recent. rewrite length_drop, drop_drop. f_equal. lia.
Qed.

Lemma slice_from_neg {A} (n : Z) (l : list A) :
  (0 < n)%Z -> JsArray.slice_from (- n) l = most_recent (Z.to_nat n) l.
Proof.
  intros Hn. unfold JsArray.slice_from, most_recent.
  destruct (Z.ltb_spec (- n) 0); [|lia]. f_equal. lia.
Qed.

Lemma slice_from_nonneg {A} (n : Z) (l : list A) :
  (0 <= n)%Z -> JsArray.slice_from n l = drop (Z.to_nat n) l.
Proof.
  intros Hn. unfold JsArray.slice_from.
  destruct (Z.ltb_spec n 0); [lia | reflexivity].
Qed.

(** X9: after any sequence of [addPriceEntry] calls on a new manager,
    [getPriceHistory] with a positive limit n returns the n most recent
    entries recorded for the key (at most the 1,000 stored), oldest first;
    with no limit or limit 0 it returns the whole stored series; a negative
    limit -k skips the k oldest stored entries. *)
Theorem getPriceHistory_limit (entries : list PriceHistoryEntry)
    (a : string) (m : MarketplaceCode) (n : Z) :
  let st := snd (addPriceEntries empty entries) in
  let stored := most_recent 1000 (entries_for a m entries) in
  PriceHistoryQueries.getPriceHistory st a (code m) None = stored
  /\ PriceHistoryQueries.getPriceHistory st a (code m) (Some n)
     = if (n =? 0)%Z then stored
       else if (0 <? n)%Z
            then most_recent (Z.to_nat n `min` 1000) (entries_for a m entries)
            else drop (Z.to_nat (- n)) stored.
Proof.
  intros st stored. unfold PriceHistoryQueries.getPriceHistory.
  rewrite getKey_code. subst st. rewrite history_addPriceEntries.
  change (most_recent MAX_HISTORY (entries_for a m entries)) with stored.
  split; [reflexivity|].
  destruct (Z.eqb_spec n 0) as [->|Hne]; [reflexivity|].
  destruct (Z.ltb_spec 0 n) as [Hpos|Hneg].
  - rewrite slice_from_neg by assumption. subst stored.
    apply most_recent_most_recent.
  - rewrite slice_from_nonneg by lia. reflexivity.
Qed.

Lemma last_push_capped cap (h : list PriceHistoryEntry) e :
  (1 <= cap)%nat -> last (push_capped cap h e) = Some e.
Proof.
  intros Hcap. unfold push_capped.
  destruct (Nat.ltb_spec cap (length (h ++ [e]))) as [Hlt|Hge].
  - rewrite length_app in Hlt. cbn in Hlt.
    destruct h as [|x h]; [cbn in Hlt; lia|]. cbn. apply last_snoc.
  - apply last_snoc.
Qed.

Lemma push_capped_nonempty cap (h : list PriceHistoryEntry) e :
  (1 <= cap)%nat -> push_capped cap h e <> [].
Proof.
  intros Hcap Heq. pose proof (last_push_capped cap h e Hcap) as H.
  rewrite Heq in H. discriminate.
Qed.

Lemma MAX_HISTORY_pos : (1 <= MAX_HISTORY)%nat.
Proof. unfold MAX_HISTORY. lia. Qed.

Lemma call_coherent st c :
  coherent st -> coherent (PriceHistoryQueries.call st c).
Proof.
  intros Hst key. destruct (Hst key) as [Hlast Hne]. destruct c as [e|a m|]; cbn.
  - destruct (decide (getKey (asin e) (marketplace e) = key)) as [<-|Hk].
    + rewrite !lookup_insert_eq. cbn.
      rewrite last_push_capped by apply MAX_HISTORY_pos. split; [reflexivity|].
      intros [= H]. by apply push_capped_nonempty in H; [|apply MAX_HISTORY_pos].
    + by rewrite !lookup_insert_ne.
  - destruct (decide (PriceHistoryQueries.getKey a m = key)) as [<-|Hk].
    + rewrite !lookup_delete_eq. split; [reflexivity | discriminate].
    + by rewrite !lookup_delete_ne.
  - rewrite !lookup_empty. split; [reflexivity | discriminate].
Qed.

Lemma calls_coherent cs : forall st,
  coherent st -> coherent (PriceHistoryQueries.calls st cs).
Proof.
  induction cs as [|c cs IH]; intros st Hst; [assumption|].
  cbn. apply IH, call_coherent, Hst.
Qed.

Lemma empty_coherent : coherent empty.
Proof. intros key. cbn. rewrite !lookup_empty. split; [reflexivity | discriminate]. Qed.

(** X10: however entries are added and histories cleared, the last-price
    cache and the stored series agree: the last price of a key is the price
    of the last entry of its series, and a key has a last price exactly
    when its series is not empty. *)
Theorem lastPrice_matches_history (cs : list PriceHistoryQueries.Call)
    (a m : string) :
  let st := PriceHistoryQueries.calls empty cs in
  PriceHistoryQueries.getLastPrice st a m
  = price <$> last (PriceHistoryQueries.getPriceHistory st a m None)
  /\ (PriceHistoryQueries.getLastPrice st a m = None
      <-> PriceHistoryQueries.getPriceHistory st a m None = []).
Proof.
  intros st.
  destruct (calls_coherent cs empty empty_coherent (PriceHistoryQueries.getKey a m))
    as [Hlast Hne].
  fold st in Hlast, Hne.
  unfold PriceHistoryQueries.getLastPrice, PriceHistoryQueries.getPriceHistory.
  rewrite Hlast.
  destruct (history st !! PriceHistoryQueries.getKey a m) as [h|]; cbn.
  - split; [reflexivity|].
    destruct h as [|x h] using rev_ind; [congruence|].
    rewrite last_snoc. cbn. split; [discriminate|].
    intros H. by apply app_eq_nil in H as [_ H].
  - split; [reflexivity | tauto].
Qed.

(** X11: clearing a key forgets it: its series is empty, it has no last
    price, and the next observation of it returns no alert, as a first
    observation does.  Every other (asin, marketplace) keeps its series and
    its last price. *)
Theorem clearHistory_forgets_key (st : t) (e : PriceHistoryEntry)
    (limit : option Z) :
  let st' := PriceHistoryQueries.clearHistory st (asin e) (code (marketplace e)) in
  fst (addPriceEntry st' e) = None
  /\ PriceHistoryQueries.getPriceHistory st' (asin e) (code (marketplace e)) limit = []
  /\ PriceHistoryQueries.getLastPrice st' (asin e) (code (marketplace e)) = None
  /\ forall a m,
       (a, m) <> (asin e, marketplace e) ->
       PriceHistoryQueries.getPriceHistory st' a (code m) limit
       = PriceHistoryQueries.getPriceHistory st a (code m) limit
       /\ PriceHistoryQueries.getLastPrice st' a (code m)
          = PriceHistoryQueries.getLastPrice st a (code m).
Proof.
  intros st'. subst st'.
  unfold PriceHistoryQueries.clearHistory, PriceHistoryQueries.getPriceHistory,
    PriceHistoryQueries.getLastPrice, addPriceEntry.
  cbn. rewrite !getKey_code. rewrite !lookup_delete_eq. cbn.
  repeat apply conj; try reflexivity.
  - destruct limit as [n|]; [|reflexivity].
    destruct (n =? 0)%Z; [reflexivity|].
    unfold JsArray.slice_from. destruct (- n <? 0)%Z; apply drop_nil.
  - intros a m Hne.
    assert (Hk : getKey (asin e) (marketplace e) <> getKey a m).
    { intros [? ?]%getKey_inj. apply Hne. congruence. }
    rewrite !getKey_code. by rewrite !lookup_delete_ne.
Qed.

Lemma fold_lowest (l : list PriceHistoryEntry) : forall init,
  let r := foldl (fun min entry =>
                    if Decimal.lt (price entry) min then price entry else min)
             init l in
  r <= init
  /\ (forall e, e ∈ l -> r <= price e)
  /\ (r = init \/ exists e, e ∈ l /\ r = price e).
Proof.
  induction l as [|x l IH]; intros init; cbn.
  - split; [lra|]. split; [|by left]. intros e He. by apply not_elem_of_nil in He.
  - specialize (IH (if Decimal.lt (price x) init then price x else init)).
    cbn zeta in IH. destruct IH as (H1 & H2 & H3).
    destruct (Decimal.lt (price x) init) eqn:E;
      [apply Decimal_lt_spec in E | apply Decimal_lt_false in E].
    + split; [lra|]. split.
      * intros e [->|He]%elem_of_cons; [assumption | by apply H2].
      * right. destruct H3 as [->|(e & He & ->)].
        -- exists x. split; [by left | reflexivity].
        -- exists e. split; [by right | reflexivity].
    + split; [assumption|]. split.
      * intros e [->|He]%elem_of_cons; [lra | by apply H2].
      * destruct H3 as [->|(e & He & ->)]; [by left|].
        right. exists e. split; [by right | reflexivity].
Qed.

Lemma fold_highest (l : list PriceHistoryEntry) : forall init,
  let r := foldl (fun max entry =>
                    if Decimal.gt (price entry) max then price entry else max)
             init l in
  init <= r
  /\ (forall e, e ∈ l -> price e <= r)
  /\ (r = init \/ exists e, e ∈ l /\ r = price e).
Proof.
  induction l as [|x l IH]; intros init; cbn.
  - split; [lra|]. split; [|by left]. intros e He. by apply not_elem_of_nil in He.
  - specialize (IH (if Decimal.gt (price x) init then price x else init)).
    cbn zeta in IH. destruct IH as (H1 & H2 & H3).
    destruct (Decimal.gt (price x) init) eqn:E;
      [apply Decimal_gt_spec in E | apply Decimal_gt_false in E].
    + split; [lra|]. split.
      * intros e [->|He]%elem_of_cons; [assumption | by apply H2].
      * right. destruct H3 as [->|(e & He & ->)].
        -- exists x. split; [by left | reflexivity].
        -- exists e. split; [by right | reflexivity].
    + split; [assumption|]. split.
      * intros e [->|He]%elem_of_cons; [lra | by apply H2].
      * destruct H3 as [->|(e & He & ->)]; [by left|].
        right. exists e. split; [by right | reflexivity].
Qed.

Lemma inject_Z_S (n : nat) :
  inject_Z (Z.of_nat (S n)) == inject_Z (Z.of_nat n) + 1.
Proof. rewrite Nat2Z.inj_succ, <- Z.add_1_r, inject_Z_plus. reflexivity. Qed.

Lemma fold_sum_bounds (l : list PriceHistoryEntry) (lo hi : Q) :
  (forall e, e ∈ l -> lo <= price e <= hi) ->
  forall acc,
    acc + inject_Z (Z.of_nat (length l)) * lo
    <= foldl (fun acc entry => Decimal.add acc (price entry)) acc l
    /\ foldl (fun acc entry => Decimal.add acc (price entry)) acc l
       <= acc + inject_Z (Z.of_nat (length l)) * hi.
Proof.
  induction l as [|x l IH]; intros Hb acc.
  - cbn [foldl length]. change (inject_Z (Z.of_nat 0)) with 0. lra.
  - cbn [foldl length]. rewrite inject_Z_S.
    destruct (Hb x) as [Hx1 Hx2]; [by left|].
    destruct (IH (fun e He => Hb e (list_elem_of_further _ _ _ He))
                (Decimal.add acc (price x))) as [H1 H2].
    unfold Decimal.add in *.
    revert H1 H2. generalize (inject_Z (Z.of_nat (length l))). intros n H1 H2.
    split; lra.
Qed.

Section WindowedFacts.

Variable clock : nat -> Z.
Variable daysBefore : Z -> Z -> Z.

(** X12: over the window of the last [days] days (30 when omitted) the
    lowest, average and highest price of a key are defined together, namely
    when the window holds at least one stored entry.  Then lowest <= average
    <= highest, the lowest and the highest are prices of entries in the
    window, and every price in the window lies between them. *)
Theorem windowed_prices_ordered (w : World.t) (st : t) (a m : string)
    (days : option Z) :
  let cutoff := daysBefore (clock (World.dates w)) (default 30%Z days) in
  let window :=
    PriceHistoryQueries.recentEntries cutoff
      (default [] (history st !! PriceHistoryQueries.getKey a m)) in
  match fst (PriceHistoryQueries.getLowestPrice clock daysBefore w st a m days),
        fst (PriceHistoryQueries.getAveragePrice clock daysBefore w st a m days),
        fst (PriceHistoryQueries.getHighestPrice clock daysBefore w st a m days)
  with
  | Some lowest, Some average, Some highest =>
      window <> []
      /\ lowest <= average <= highest
      /\ (forall e, e ∈ window -> lowest <= price e <= highest)
      /\ (exists e, e ∈ window /\ price e = lowest)
      /\ (exists e, e ∈ window /\ price e = highest)
  | None, None, None => window = []
  | _, _, _ => False
  end.
Proof.
  intros cutoff window. subst window.
  unfold PriceHistoryQueries.getLowestPrice, PriceHistoryQueries.getAveragePrice,
    PriceHistoryQueries.getHighestPrice.
  destruct (history st !! PriceHistoryQueries.getKey a m) as [[|x h]|];
    [reflexivity| |reflexivity].
  change (default [] (Some (x :: h))) with (x :: h).
  cbn [World.newDate]. fold cutoff.
  destruct (PriceHistoryQueries.recentEntries cutoff (x :: h)) as [|first rest] eqn:E;
    cbn [fst]; [reflexivity|].
  set (window := first :: rest).
  pose proof (fold_lowest window (price first)) as (L1 & L2 & L3).
  pose proof (fold_highest window (price first)) as (H1 & H2 & H3).
  set (lowest := foldl (fun min entry =>
                          if Decimal.lt (price entry) min then price entry else min)
                   (price first) window) in *.
  set (highest := foldl (fun max entry =>
                           if Decimal.gt (price entry) max then price entry else max)
                    (price first) window) in *.
  assert (Hb : forall e, e ∈ window -> lowest <= price e <= highest).
  { intros e He. split; [by apply L2 | by apply H2]. }
  pose proof (fold_sum_bounds window lowest highest Hb Decimal.zero) as [S1 S2].
  set (sum := foldl (fun acc entry => Decimal.add acc (price entry))
                Decimal.zero window) in *.
  assert (Hn : 0 < inject_Z (Z.of_nat (length window))).
  { cbn [length window]. rewrite inject_Z_S.
    assert (0 <= inject_Z (Z.of_nat (length rest))); [|lra].
    change 0 with (inject_Z 0). rewrite <- Zle_Qle. lia. }
  repeat apply conj.
  - discriminate.
  - unfold Decimal.div. apply Qle_shift_div_l; [assumption|].
    unfold Decimal.zero in S1. lra.
  - unfold Decimal.div. apply Qle_shift_div_r; [assumption|].
    unfold Decimal.zero in S2. lra.
  - exact Hb.
  - destruct L3 as [->|(e & He & ->)]; [|eauto].
    exists first. split; [by left | reflexivity].
  - destruct H3 as [->|(e & He & ->)]; [|eauto].
    exists first. split; [by left | reflexivity].
Qed.

End WindowedFacts.

Lemma dom_history_addPriceEntries (entries : list PriceHistoryEntry) :
  dom (history (snd (addPriceEntries empty entries)))
  = list_to_set ((fun e => getKey (asin e) (marketplace e)) <$> entries)
      :> gset string.
Proof.
  induction entries as [|e es IH] using rev_ind.
  - cbn. apply dom_empty_L.
  - rewrite addPriceEntries_snoc. cbn [snd]. unfold addPriceEntry. cbn [snd history].
    rewrite dom_insert_L, IH, fmap_app, list_to_set_app_L. cbn.
    rewrite union_empty_r_L. apply (comm_L (∪)).
Qed.

Lemma length_remove_dups_fmap {A B} `{EqDecision A, EqDecision B} (f : A -> B)
    `{!Inj (=) (=) f} (l : list A) :
  length (remove_dups (f <$> l)) = length (remove_dups l).
Proof.
  induction l as [|x l IH]; [reflexivity|]. cbn.
  destruct (decide_rel elem_of (f x) (f <$> l)) as [Hin|Hnin],
           (decide_rel elem_of x l) as [Hin'|Hnin']; cbn.
  - exact IH.
  - exfalso. apply Hnin'. by apply (list_elem_of_fmap_inj f).
  - exfalso. apply Hnin. by apply (list_elem_of_fmap_inj f).
  - by rewrite IH.
Qed.

Lemma size_list_to_set_remove_dups (l : list string) :
  size (list_to_set l : gset string) = length (remove_dups l).
Proof.
  rewrite <- (size_list_to_set (C := gset string) (remove_dups l))
    by apply NoDup_remove_dups.
  f_equal. apply set_eq. intros x.
  by rewrite !elem_of_list_to_set, elem_of_remove_dups.
Qed.

(** X13: after any sequence of [addPriceEntry] calls on a new manager the
    number of tracked products is the number of distinct
    (asin, marketplace) pairs observed, however often each was observed. *)
Theorem getTrackedProductsCount_distinct (entries : list PriceHistoryEntry) :
  PriceHistoryQueries.getTrackedProductsCount (snd (addPriceEntries empty entries))
  = length (observed_keys entries).
Proof.
  unfold PriceHistoryQueries.getTrackedProductsCount, observed_keys.
  rewrite <- (size_dom (D := gset string)), dom_history_addPriceEntries.
  rewrite size_list_to_set_remove_dups.
  assert (Hinj : Inj (=) (=) (fun p : string * MarketplaceCode => getKey p.1 p.2)).
  { intros [a m] [a' m'] H. cbn in H. by apply getKey_inj in H as [-> ->]. }
  rewrite <- (length_remove_dups_fmap
                (fun p : string * MarketplaceCode => getKey p.1 p.2)).
  rewrite <- list_fmap_compose. reflexivity.
Qed.

End PriceHistoryQueryFacts.

(** ** Sorting *)

Section SortFacts.

Local Open Scope Q_scope.

Context {A : Type}.
Variable compareFn : A -> A -> Q.

(** The comparator orders by a rank: it is positive on [(y, x)] exactly when
    [x] has the smaller rank. *)
Variable rank : A -> Q.
Hypothesis compareFn_rank :
  forall y x, num_gt (compareFn y x) 0 = true <-> rank x < rank y.

Let before (a b : A) : Prop := rank a <= rank b.

Lemma insert_sorted_perm x l : JsArray.insert_sorted compareFn x l ≡ₚ x :: l.
Proof.
  induction l as [|y l IH]; cbn; [reflexivity|].
  destruct (num_gt (compareFn y x) 0); [reflexivity|].
  rewrite IH. apply Permutation_swap.
Qed.

Lemma sort_fold_perm l : forall acc,
  foldl (fun acc x => JsArray.insert_sorted compareFn x acc) acc l ≡ₚ acc ++ l.
Proof.
  induction l as [|x l IH]; intros acc; cbn.
  - by rewrite app_nil_r.
  - rewrite IH, insert_sorted_perm. by rewrite <- Permutation_middle.
Qed.

Lemma sort_perm l : JsArray.sort compareFn l ≡ₚ l.
Proof. apply (sort_fold_perm l []). Qed.

Lemma insert_sorted_sorted x l :
  StronglySorted before l ->
  StronglySorted before (JsArray.insert_sorted compareFn x l).
Proof using compareFn_rank.
  induction 1 as [|y l Hsorted IH Hy]; cbn.
  - repeat constructor.
  - destruct (num_gt (compareFn y x) 0) eqn:E.
    + apply compareFn_rank in E. constructor; [by constructor|].
      constructor; [unfold before; lra|].
      eapply Forall_impl; [exact Hy|]. unfold before. intros z Hz. cbn in Hz. lra.
    + constructor; [exact IH|].
      rewrite insert_sorted_perm. constructor; [|exact Hy].
      unfold before. apply Qnot_lt_le. intros Hlt.
      apply compareFn_rank in Hlt. congruence.
Qed.

Lemma sort_fold_sorted l : forall acc,
  StronglySorted before acc ->
  StronglySorted before
    (foldl (fun acc x => JsArray.insert_sorted compareFn x acc) acc l).
Proof using compareFn_rank.
  induction l as [|x l IH]; intros acc Hacc; cbn; [assumption|].
  apply IH, insert_sorted_sorted, Hacc.
Qed.

Lemma sort_sorted l : StronglySorted before (JsArray.sort compareFn l).
Proof using compareFn_rank. apply sort_fold_sorted. constructor. Qed.

(** Where an element lands in a sorted list: behind everything of its rank
    or less, before everything of greater rank. *)
Lemma insert_sorted_split x l :
  StronglySorted before l ->
  exists l1 l2,
    l = l1 ++ l2
    /\ JsArray.insert_sorted compareFn x l = l1 ++ x :: l2
    /\ Forall (fun y => rank y <= rank x) l1
    /\ Forall (fun y => rank x < rank y) l2.
Proof using compareFn_rank.
  induction 1 as [|y l Hsorted IH Hy]; cbn.
  - exists [], []. repeat split; constructor.
  - destruct (num_gt (compareFn y x) 0) eqn:E.
    + apply compareFn_rank in E. exists [], (y :: l).
      repeat split; [constructor|]. constructor; [assumption|].
      eapply Forall_impl; [exact Hy|]. unfold before. intros z Hz. cbn in Hz. lra.
    + destruct IH as (l1 & l2 & -> & Hins & H1 & H2).
      exists (y :: l1), l2. rewrite Hins. repeat split; [|assumption].
      constructor; [|assumption].
      apply Qnot_lt_le. intros Hlt. apply compareFn_rank in Hlt. congruence.
Qed.

Lemma filter_insert_sorted (P : A -> bool) x l :
  (forall y, rank x < rank y -> P x = true -> P y = false) ->
  StronglySorted before l ->
  List.filter P (JsArray.insert_sorted compareFn x l) = List.filter P (l ++ [x]).
Proof using compareFn_rank.
  intros HP Hsorted.
  destruct (insert_sorted_split x l Hsorted) as (l1 & l2 & -> & -> & H1 & H2).
  rewrite <- !app_assoc, !List.filter_app. f_equal. cbn.
  destruct (P x) eqn:Ex; [|by rewrite app_nil_r].
  assert (Hnone : List.filter P l2 = []).
  { clear -H2 HP. induction H2 as [|y l2 Hy _ IH]; [reflexivity|].
    cbn. by rewrite (HP y Hy eq_refl). }
  by rewrite Hnone.
Qed.

Lemma sort_fold_stable (P : A -> bool) l :
  (forall x y, rank x < rank y -> P x = true -> P y = false) ->
  forall acc,
    StronglySorted before acc ->
    List.filter P (foldl (fun acc x => JsArray.insert_sorted compareFn x acc) acc l)
    = List.filter P (acc ++ l).
Proof using compareFn_rank.
  intros HP. induction l as [|x l IH]; intros acc Hacc; cbn.
  - by rewrite app_nil_r.
  - rewrite IH; [|apply insert_sorted_sorted; exact Hacc].
    rewrite !List.filter_app, filter_insert_sorted; [|intros y; apply HP|exact Hacc].
    rewrite List.filter_app. cbn. destruct (P x); cbn; by rewrite <- app_assoc.
Qed.

Lemma sort_stable (P : A -> bool) l :
  (forall x y, rank x < rank y -> P x = true -> P y = false) ->
  List.filter P (JsArray.sort compareFn l) = List.filter P l.
Proof using compareFn_rank.
  intros HP. apply (sort_fold_stable P l HP []). constructor.
Qed.

(** An element of greatest rank goes to the end, and a sorted list stays
    as it is. *)
Lemma insert_sorted_last x l :
  Forall (fun y => rank y <= rank x) l ->
  JsArray.insert_sorted compareFn x l = l ++ [x].
Proof using compareFn_rank.
  induction 1 as [|y l Hy _ IH]; cbn; [reflexivity|].
  destruct (num_gt (compareFn y x) 0) eqn:E; [|by rewrite IH].
  apply compareFn_rank in E. lra.
Qed.

Lemma sort_fold_sorted_id l : forall acc,
  StronglySorted before (acc ++ l) ->
  foldl (fun acc x => JsArray.insert_sorted compareFn x acc) acc l = acc ++ l.
Proof using compareFn_rank.
  induction l as [|x l IH]; intros acc Hs; cbn; [by rewrite app_nil_r|].
  rewrite insert_sorted_last.
  - rewrite IH; [by rewrite <- app_assoc|]. by rewrite <- app_assoc.
  - apply Forall_forall. intros y Hy.
    eapply (StronglySorted_app_1_elem_of _ acc (x :: l) y x Hs); [assumption | by left].
Qed.

Lemma sort_sorted_id l :
  StronglySorted before l -> JsArray.sort compareFn l = l.
Proof using compareFn_rank. intros H. apply (sort_fold_sorted_id l [] H). Qed.

End SortFacts.

(** ** Deal ordering and selection *)

Section DealRankingFacts.

Local Open Scope Q_scope.

Import DealRanking.

Lemma inject_Z_diff_pos (x y : Z) :
  0 < inject_Z (x - y) <-> inject_Z y < inject_Z x.
Proof.
  change 0 with (inject_Z 0). rewrite <- !Zlt_Qlt. lia.
Qed.

(** Each of the six orderings is [sort] with a comparator that orders by
    the rank of its metric. *)
Lemma sortBy_is_sort metric deals direction :
  exists compareFn,
    sortBy metric deals direction = JsArray.sort compareFn deals
    /\ forall y x,
         num_gt (compareFn y x) 0 = true
         <-> rank_of metric (runs_descending metric direction) x
             < rank_of metric (runs_descending metric direction) y.
Proof.
  destruct metric, direction as [[|]|]; cbn; eexists; (split; [reflexivity|]);
    intros y x; rewrite num_gt_spec; cbn;
    unfold rank_of, Decimal.toNumber, Decimal.minus; cbn;
    rewrite ?inject_Z_diff_pos; lra.
Qed.

Lemma StronglySorted_weaken {A} (R S : A -> A -> Prop) l :
  (forall a b, R a b -> S a b) -> StronglySorted R l -> StronglySorted S l.
Proof.
  intros HRS. induction 1 as [|x l Hl IH Hx]; constructor; [assumption|].
  eapply Forall_impl; [exact Hx | auto].
Qed.

Lemma rank_order metric descending a b :
  rank_of metric descending a <= rank_of metric descending b ->
  in_order metric descending a b.
Proof. unfold rank_of, in_order. destruct descending; lra. Qed.

Lemma sortBy_sorted metric deals direction :
  StronglySorted (in_order metric (runs_descending metric direction))
    (sortBy metric deals direction).
Proof.
  destruct (sortBy_is_sort metric deals direction) as (compareFn & -> & Hc).
  eapply StronglySorted_weaken; [|eapply sort_sorted, Hc].
  intros a b. apply rank_order.
Qed.

(** X14: each of the six sorts returns the same deals (a permutation of its
    input), running from the largest value to the smallest or the other way
    as its flag says, and is stable: deals of equal value keep the order
    they had in the input. *)
Theorem sortBy_stable_order (metric : Metric) (deals : list Deal.t)
    (direction : option bool) :
  sortBy metric deals direction ≡ₚ deals
  /\ StronglySorted (in_order metric (runs_descending metric direction))
       (sortBy metric deals direction)
  /\ forall v,
       with_value metric v (sortBy metric deals direction)
       = with_value metric v deals.
Proof.
  split; [|split].
  - destruct (sortBy_is_sort metric deals direction) as (compareFn & -> & _).
    apply sort_perm.
  - apply sortBy_sorted.
  - intros v.
    destruct (sortBy_is_sort metric deals direction) as (compareFn & -> & Hc).
    unfold with_value. eapply sort_stable; [exact Hc|].
    intros x y Hlt Hx. apply Qeq_bool_iff in Hx.
    apply not_true_iff_false. intros Hy. apply Qeq_bool_iff in Hy.
    unfold rank_of in Hlt. destruct (runs_descending metric direction); lra.
Qed.

Lemma getTopDeals_sortBy deals count sortBy' :
  getTopDeals deals count sortBy'
  = JsArray.slice_to count (sortBy (metric_of sortBy') deals None)
  /\ runs_descending (metric_of sortBy') None = true.
Proof. destruct sortBy' as [[| |]|]; auto. Qed.

(** X15: for a count that is not negative, [getTopDeals] returns
    min(count, number of deals) deals, from the best value down, and none
    of the deals it leaves out has a better value than one it returns. *)
Theorem getTopDeals_best (deals : list Deal.t) (count : Z)
    (sortBy' : option SortBy) (Hcount : (0 <= count)%Z) :
  let top := getTopDeals deals count sortBy' in
  let metric := metric_of sortBy' in
  length top = (Z.to_nat count `min` length deals)%nat
  /\ StronglySorted (in_order metric true) top
  /\ exists rest,
       top ++ rest ≡ₚ deals
       /\ forall d d', d ∈ top -> d' ∈ rest ->
            metric_value metric d' <= metric_value metric d.
Proof.
  intros top metric. subst top.
  destruct (getTopDeals_sortBy deals count sortBy') as [-> Hdesc].
  fold metric in Hdesc |- *.
  pose proof (sortBy_sorted metric deals None) as Hsorted.
  rewrite Hdesc in Hsorted.
  assert (Hperm : sortBy metric deals None ≡ₚ deals).
  { destruct (sortBy_is_sort metric deals None) as (compareFn & -> & _).
    apply sort_perm. }
  unfold JsArray.slice_to. destruct (Z.ltb_spec count 0); [lia|].
  rewrite <- (take_drop (Z.to_nat count) (sortBy metric deals None)) in Hsorted.
  split; [|split].
  - rewrite length_take, Hperm. reflexivity.
  - eapply StronglySorted_app_1_l, Hsorted.
  - exists (drop (Z.to_nat count) (sortBy metric deals None)). split.
    + by rewrite take_drop.
    + intros d d' Hd Hd'.
      apply (StronglySorted_app_1_elem_of _ _ _ d d' Hsorted Hd Hd').
Qed.

Lemma getTopDeals_best_witness :
  length (getTopDeals sample_deals 2 None) = 2%nat.
Proof.
  apply (getTopDeals_best sample_deals 2 None). discriminate.
Defined.

Example getTopDeals_ties :
  List.map (fun d => DealMetrics.roi (Deal.metrics d))
    (getTopDeals sample_deals 3 None)
  = [250; 200; 150].
Proof. vm_compute. reflexivity. Qed.

(** X16: the three tiers split a collection of deals: every deal is in the
    list of its own tier and in no other, and the three lists together
    hold the deals of the collection, each as often as the collection
    does. *)
Theorem getDealsByTier_partition (deals : list Deal.t) :
  (forall d tier, d ∈ getDealsByTier deals tier <-> d ∈ deals /\ Deal.tier d = tier)
  /\ getDealsByTier deals high ++ getDealsByTier deals medium
     ++ getDealsByTier deals low ≡ₚ deals.
Proof.
  split.
  - intros d tier. unfold getDealsByTier.
    rewrite list_elem_of_In, filter_In, <- list_elem_of_In, bool_decide_eq_true.
    reflexivity.
  - unfold getDealsByTier. induction deals as [|d deals IH]; [reflexivity|].
    cbn. destruct (Deal.tier d);
      repeat first [ rewrite bool_decide_eq_true_2 by reflexivity
                   | rewrite bool_decide_eq_false_2 by discriminate ].
    + rewrite app_assoc, <- Permutation_middle, <- app_assoc. by rewrite IH.
    + cbn [app]. rewrite <- Permutation_middle. by rewrite IH.
    + cbn [app]. by rewrite IH.
Qed.

(** X17: filters compose: applying two filters one after the other gives
    the same deals in the same order whichever comes first, and applying a
    filter to its own result changes nothing. *)
Theorem filter_compose (deals : list Deal.t) (f g : DealFilter.t) :
  DealFilterManager.filter (DealFilterManager.filter deals f) g
  = DealFilterManager.filter (DealFilterManager.filter deals g) f
  /\ DealFilterManager.filter (DealFilterManager.filter deals f) f
     = DealFilterManager.filter deals f
  /\ (forall d, d ∈ DealFilterManager.filter (DealFilterManager.filter deals f) g
        <-> d ∈ deals /\ DealFilterManager.passesFilter d f = true
            /\ DealFilterManager.passesFilter d g = true).
Proof.
  unfold DealFilterManager.filter. repeat apply conj.
  - induction deals as [|d deals IH]; [reflexivity|]. cbn.
    destruct (DealFilterManager.passesFilter d f) eqn:Ef,
             (DealFilterManager.passesFilter d g) eqn:Eg; cbn;
      rewrite ?Ef, ?Eg; by rewrite IH.
  - induction deals as [|d deals IH]; [reflexivity|]. cbn.
    destruct (DealFilterManager.passesFilter d f) eqn:Ef; cbn;
      rewrite ?Ef; by rewrite IH.
  - intros d. rewrite !list_elem_of_In, !filter_In. tauto.
Qed.

End DealRankingFacts.

(** ** Task queue: steps *)

Section TaskQueueStepFacts.

Import TaskQueue.

Variable clock : nat -> Z.

Lemma trace_app q evs1 q1 evs2 q2 :
  trace clock q evs1 q1 -> trace clock q1 evs2 q2 ->
  trace clock q (evs1 ++ evs2) q2.
Proof.
  induction 1 as [|q ev q' evs q1 Htr Hrest IH]; intros H2; [assumption|].
  cbn. econstructor; [exact Htr | by apply IH].
Qed.

Lemma trace_one q ev q' : transition clock q ev q' -> trace clock q [ev] q'.
Proof. intros H. econstructor; [exact H | constructor]. Qed.

Lemma getNextTask_trace q :
  exists evs,
    trace clock q evs (snd (getNextTask clock q))
    /\ Forall (fun ev => is_clear ev = false) evs.
Proof.
  destruct (queue q) as [|r rest] eqn:Eq.
  - exists []. unfold getNextTask. rewrite Eq. split; constructor.
  - destruct (objects q !! r) as [task|] eqn:Et.
    + exists [Started]. split; [|by repeat constructor].
      apply trace_one. by eapply tr_started.
    + exists []. unfold getNextTask. rewrite Eq, Et. split; constructor.
Qed.

Lemma addTasks_trace tasks : forall q,
  exists evs,
    trace clock q evs (snd (addTasks clock q tasks))
    /\ Forall (fun ev => is_clear ev = false) evs.
Proof.
  induction tasks as [|task rest IH]; intros q; cbn [addTasks].
  - exists []. split; constructor.
  - pose proof (tr_added clock q task) as H1.
    destruct (addTask clock q task) as [i q1]. cbn [snd] in H1.
    destruct (IH q1) as (evs & H2 & Hq).
    destruct (addTasks clock q1 rest) as [ids q2]. cbn [snd] in *.
    exists (Added :: evs). split; [by econstructor | by constructor].
Qed.

Lemma getNextTasks_trace count : forall q,
  exists evs,
    trace clock q evs (snd (getNextTasks clock q count))
    /\ Forall (fun ev => is_clear ev = false) evs.
Proof.
  induction count as [|count IH]; intros q; cbn [getNextTasks].
  - exists []. split; constructor.
  - destruct (queue q) as [|r rest] eqn:Eq; [exists []; split; constructor|].
    destruct (getNextTask_trace q) as (evs1 & H1 & Hq1).
    destruct (getNextTask clock q) as [task q1]. cbn [snd] in H1.
    destruct (IH q1) as (evs2 & H2 & Hq2).
    destruct (getNextTasks clock q1 count) as [tasks q2]. cbn [snd] in *.
    exists (evs1 ++ evs2). split; [by eapply trace_app | by apply Forall_app].
Qed.

(** Every call is a sequence of steps, and only the clearing calls clear. *)
Lemma call_trace q c :
  exists evs,
    trace clock q evs (call clock q c)
    /\ (is_clear_call c = false -> Forall (fun ev => is_clear ev = false) evs).
Proof.
  destruct c; cbn [call is_clear_call].
  - exists [Added]. split; [apply trace_one, tr_added | by repeat constructor].
  - destruct (addTasks_trace tasks q) as (evs & H & Hq). eauto.
  - destruct (getNextTask_trace q) as (evs & H & Hq). eauto.
  - destruct (getNextTasks_trace count q) as (evs & H & Hq). eauto.
  - destruct (runningTasks q !! taskId0) as [r|] eqn:Hrun.
    + destruct (objects q !! r) as [task|] eqn:Ht.
      * exists [Completed]. split; [|by repeat constructor].
        apply trace_one. by eapply tr_completed.
      * exists []. unfold completeTask. rewrite Hrun, Ht. split; constructor.
    + exists []. unfold completeTask. rewrite Hrun. split; constructor.
  - destruct (runningTasks q !! taskId0) as [r|] eqn:Hrun.
    + destruct (objects q !! r) as [task|] eqn:Ht.
      * destruct (Z.lt_ge_cases (retryCount task + 1) (maxRetries task)).
        -- exists [Requeued]. split; [|by repeat constructor].
           apply trace_one. by eapply tr_requeued.
        -- exists [Failed]. split; [|by repeat constructor].
           apply trace_one. by eapply tr_failed.
      * exists []. unfold failTask. rewrite Hrun, Ht. split; constructor.
    + exists []. unfold failTask. rewrite Hrun. split; constructor.
  - exists [ClearedCompleted]. split; [apply trace_one, tr_clearedCompleted|].
    discriminate.
  - exists [ClearedAll]. split; [apply trace_one, tr_clearedAll | discriminate].
Qed.

Lemma calls_trace cs : forall q,
  exists evs,
    trace clock q evs (calls clock q cs)
    /\ (Forall (fun c => is_clear_call c = false) cs ->
        Forall (fun ev => is_clear ev = false) evs).
Proof.
  induction cs as [|c cs IH]; intros q; cbn.
  - exists []. split; constructor.
  - destruct (call_trace q c) as (evs1 & H1 & Hq1).
    destruct (IH (call clock q c)) as (evs2 & H2 & Hq2).
    exists (evs1 ++ evs2). split; [by eapply trace_app|].
    intros [Hc Hcs]%Forall_cons. apply Forall_app. auto.
Qed.

(** A step is a call, so it keeps the invariant of the queue. *)
Lemma transition_inv q ev q' :
  inv q -> transition clock q ev q' -> inv q'.
Proof.
  intros Hinv Htr. destruct Htr.
  - apply (call_continues clock q (AddTask task) Hinv).
  - apply (call_continues clock q GetNextTask Hinv).
  - apply (call_continues clock q (CompleteTask i result) Hinv).
  - apply (call_continues clock q (FailTask i err) Hinv).
  - apply (call_continues clock q (FailTask i err) Hinv).
  - apply (call_continues clock q ClearCompleted Hinv).
  - apply (call_continues clock q ClearAll Hinv).
Qed.

(** A property that the new queue has and that every step (or every step
    that does not clear) keeps holds after any trace. *)
Lemma trace_invariant (P : t -> Prop) (keep : Event -> bool) :
  (forall q ev q', inv q -> P q -> keep ev = true ->
                   transition clock q ev q' -> P q') ->
  forall q evs q',
    inv q -> P q -> Forall (fun ev => keep ev = true) evs ->
    trace clock q evs q' -> inv q' /\ P q'.
Proof.
  intros Hstep q evs q' Hinv HP Hkeep Htr.
  induction Htr as [|q ev q1 evs q2 Htr Hrest IH]; [auto|].
  apply Forall_cons in Hkeep as [Hev Hevs].
  apply IH; [by eapply transition_inv | by eapply Hstep | assumption].
Qed.

End TaskQueueStepFacts.

(** ** Task queue: priority order *)

Section TaskQueueOrderFacts.

Local Open Scope Q_scope.

Import TaskQueue.

Variable clock : nat -> Z.

Lemma priority_compare_rank objs y x :
  num_gt (priority_compare objs y x) 0 = true
  <-> priority_rank objs x < priority_rank objs y.
Proof.
  unfold priority_compare, priority_rank.
  rewrite num_gt_spec, inject_Z_diff_pos. lra.
Qed.

Lemma insert_desc_insert_sorted objs r l :
  insert_desc objs r l = JsArray.insert_sorted (priority_compare objs) r l.
Proof.
  induction l as [|y l IH]; cbn; [reflexivity|]. rewrite IH.
  replace (priorityOf objs y <? priorityOf objs r)%Z
    with (num_gt (priority_compare objs y r) 0); [reflexivity|].
  apply eq_true_iff_eq.
  rewrite num_gt_spec, Z.ltb_lt. unfold priority_compare.
  rewrite inject_Z_diff_pos, <- Zlt_Qlt. reflexivity.
Qed.

Lemma sort_desc_sort objs l :
  sort_desc objs l = JsArray.sort (priority_compare objs) l.
Proof.
  unfold sort_desc, JsArray.sort. generalize (@nil nat).
  induction l as [|x l IH]; intros acc; cbn; [reflexivity|].
  by rewrite insert_desc_insert_sorted, IH.
Qed.

Lemma priority_rank_order objs a b :
  priority_rank objs a <= priority_rank objs b
  <-> (priorityOf objs b <= priorityOf objs a)%Z.
Proof. unfold priority_rank. rewrite Zle_Qle. split; lra. Qed.

Lemma priority_rank_lt objs a b :
  priority_rank objs a < priority_rank objs b
  <-> (priorityOf objs b < priorityOf objs a)%Z.
Proof. unfold priority_rank. rewrite Zlt_Qlt. split; lra. Qed.

Lemma sort_desc_sorted objs l :
  StronglySorted
    (fun r1 r2 => (priorityOf objs r2 <= priorityOf objs r1)%Z) (sort_desc objs l).
Proof.
  rewrite sort_desc_sort.
  eapply StronglySorted_weaken;
    [|apply (sort_sorted _ _ (priority_compare_rank objs))].
  intros a b. apply priority_rank_order.
Qed.

Lemma priorityOf_insert_same (objs : gmap nat Task) r task task' x :
  objs !! r = Some task -> priority task' = priority task ->
  priorityOf (<[r := task']> objs) x = priorityOf objs x.
Proof.
  intros Ht Hp. unfold priorityOf. destruct (decide (r = x)) as [<-|Hne].
  - by rewrite lookup_insert_eq, Ht.
  - by rewrite lookup_insert_ne.
Qed.

Lemma priorityOf_insert_fresh (objs : gmap nat Task) r task' x :
  objs !! r = None -> is_Some (objs !! x) ->
  priorityOf (<[r := task']> objs) x = priorityOf objs x.
Proof.
  intros Hr [t Hx]. unfold priorityOf.
  rewrite lookup_insert_ne; [reflexivity | congruence].
Qed.

Lemma transition_sorted q ev q' :
  StronglySorted (by_priority q) (queue q) ->
  transition clock q ev q' ->
  StronglySorted (by_priority q') (queue q').
Proof.
  intros Hs Htr. destruct Htr as [q task|q r rest task Eq Ht|q i r task result Hrun Ht
                                  |q i r task err Hrun Ht Hlt|q i r task err Hrun Ht Hge
                                  |q|q].
  - cbn. apply sort_desc_sorted.
  - unfold getNextTask. rewrite Eq, Ht. cbn. rewrite Eq in Hs.
    apply StronglySorted_inv in Hs as [Hs _].
    eapply StronglySorted_weaken; [|exact Hs].
    intros a b. unfold by_priority. cbn.
    by rewrite !(priorityOf_insert_same _ r task).
  - unfold completeTask. rewrite Hrun, Ht. cbn.
    eapply StronglySorted_weaken; [|exact Hs].
    intros a b. unfold by_priority. cbn.
    by rewrite !(priorityOf_insert_same _ r task).
  - unfold failTask. rewrite Hrun, Ht. cbn [retryCount maxRetries set_retryCount].
    apply Z.ltb_lt in Hlt. rewrite Hlt. cbn. apply sort_desc_sorted.
  - unfold failTask. rewrite Hrun, Ht. cbn [retryCount maxRetries set_retryCount].
    apply Z.ltb_ge in Hge. rewrite Hge. cbn.
    eapply StronglySorted_weaken; [|exact Hs].
    intros a b. unfold by_priority. cbn.
    by rewrite !(priorityOf_insert_same _ r task).
  - exact Hs.
  - constructor.
Qed.

Lemma reachable_trace q :
  reachable clock q -> exists w evs, trace clock (create w) evs q.
Proof.
  induction 1 as [w|q c _ (w & evs & Htr)].
  - exists w, []. constructor.
  - destruct (call_trace clock q c) as (evs' & Htr' & _).
    exists w, (evs ++ evs'). by eapply trace_app.
Qed.

Lemma reachable_sorted q :
  reachable clock q -> StronglySorted (by_priority q) (queue q).
Proof.
  intros (w & evs & Htr)%reachable_trace.
  edestruct (trace_invariant clock
               (fun q => StronglySorted (by_priority q) (queue q)) (fun _ => true))
    as [_ H]; [| | | |exact Htr|exact H].
  - intros q0 ev q1 _ Hs _ Hstep. eapply transition_sorted; eassumption.
  - apply create_inv.
  - constructor.
  - by apply Forall_forall.
Qed.

(** X18: in every reachable state the pending queue runs from the highest
    priority to the lowest, so that [getNextTask] hands out a pending task
    that no other pending task outranks. *)
Theorem getNextTask_highest_priority (q : t) (Hreach : reachable clock q) :
  StronglySorted (by_priority q) (queue q)
  /\ forall r rest,
       queue q = r :: rest ->
       fst (getNextTask clock q) = Some r
       /\ forall r', r' ∈ queue q ->
            (priorityOf (objects q) r' <= priorityOf (objects q) r)%Z.
Proof.
  pose proof (reachable_sorted q Hreach) as Hs. split; [exact Hs|].
  intros r rest Eq. split.
  - destruct (getNextTask_pending clock q r rest (reachable_inv clock q Hreach) Eq)
      as (task & _ & _ & ->). reflexivity.
  - rewrite Eq in Hs |- *. apply StronglySorted_inv in Hs as [_ Hr].
    intros r' [->|Hin]%elem_of_cons; [lia|].
    rewrite Forall_forall in Hr. apply Hr, Hin.
Qed.

Lemma StronglySorted_weaken_in {A} (R S : A -> A -> Prop) l :
  (forall a b, a ∈ l -> b ∈ l -> R a b -> S a b) ->
  StronglySorted R l -> StronglySorted S l.
Proof.
  intros HRS Hs. induction Hs as [|x l Hl IH Hx]; constructor.
  - apply IH. intros a b Ha Hb. apply HRS; by right.
  - apply Forall_forall. intros y Hy. rewrite Forall_forall in Hx.
    apply HRS; [by left | by right | by apply Hx].
Qed.

(** Where a reference lands when it is pushed onto a sorted queue and the
    queue is sorted again: behind every task of its priority or higher. *)
Lemma requeue_placement objs l r :
  StronglySorted (fun a b => (priorityOf objs b <= priorityOf objs a)%Z) l ->
  exists ahead behind,
    l = ahead ++ behind
    /\ sort_desc objs (l ++ [r]) = ahead ++ r :: behind
    /\ Forall (fun x => (priorityOf objs r <= priorityOf objs x)%Z) ahead
    /\ Forall (fun x => (priorityOf objs x < priorityOf objs r)%Z) behind.
Proof.
  intros Hs.
  assert (Hs' : StronglySorted
                  (fun a b => priority_rank objs a <= priority_rank objs b) l).
  { eapply StronglySorted_weaken; [|exact Hs].
    intros a b. apply priority_rank_order. }
  rewrite sort_desc_sort. unfold JsArray.sort. rewrite foldl_app. cbn.
  fold (JsArray.sort (priority_compare objs) l).
  rewrite (sort_sorted_id _ _ (priority_compare_rank objs) l Hs').
  destruct (insert_sorted_split _ _ (priority_compare_rank objs) r l Hs')
    as (l1 & l2 & -> & -> & H1 & H2).
  exists l1, l2. repeat split.
  - eapply Forall_impl; [exact H1|]. intros x. apply priority_rank_order.
  - eapply Forall_impl; [exact H2|]. intros x. apply priority_rank_lt.
Qed.

(** X19: a new task takes its place behind every pending task of the same
    or a higher priority and before every pending task of lower priority;
    the tasks already pending keep their order.  A failed task that is
    retried re-enters the pending queue in the same way. *)
Theorem addTask_placement (q : t) (task : TaskSpec)
    (Hreach : reachable clock q) :
  (exists ahead behind,
     queue q = ahead ++ behind
     /\ queue (snd (addTask clock q task))
        = ahead ++ fresh_ref (objects q) :: behind
     /\ Forall (fun x => (spec_priority task <= priorityOf (objects q) x)%Z) ahead
     /\ Forall (fun x => (priorityOf (objects q) x < spec_priority task)%Z) behind)
  /\ forall i r running_task err,
       runningTasks q !! i = Some r ->
       objects q !! r = Some running_task ->
       (retryCount running_task + 1 < maxRetries running_task)%Z ->
       exists ahead behind,
         queue q = ahead ++ behind
         /\ queue (failTask clock q i err) = ahead ++ r :: behind
         /\ Forall (fun x => (priority running_task <= priorityOf (objects q) x)%Z)
              ahead
         /\ Forall (fun x => (priorityOf (objects q) x < priority running_task)%Z)
              behind.
Proof.
  pose proof (reachable_sorted q Hreach) as Hs.
  pose proof (reachable_inv clock q Hreach) as Hinv.
  split.
  - unfold addTask. cbn.
    pose proof (fresh_ref_unallocated (objects q)) as Hfresh.
    set (r := fresh_ref (objects q)) in *.
    set (objs := <[r := _]> (objects q)).
    assert (Hsame : forall x, x ∈ queue q -> priorityOf objs x = priorityOf (objects q) x).
    { intros x Hx. apply priorityOf_insert_fresh; [assumption|].
      destruct (inv_queue_allocated q Hinv x Hx) as (t0 & -> & _). eauto. }
    assert (Hr : priorityOf objs r = spec_priority task).
    { unfold priorityOf, objs. by rewrite lookup_insert_eq. }
    destruct (requeue_placement objs (queue q) r) as (ahead & behind & Eq & -> & H1 & H2).
    { eapply StronglySorted_weaken_in; [|exact Hs].
      intros a b Ha Hb. unfold by_priority. by rewrite !Hsame. }
    exists ahead, behind. rewrite Hr in H1, H2.
    assert (Hin : forall x, x ∈ ahead ++ behind -> x ∈ queue q) by by rewrite Eq.
    repeat split; [assumption| |].
    + apply Forall_forall. intros x Hx. rewrite Forall_forall in H1.
      rewrite <- Hsame; [by apply H1|]. apply Hin, elem_of_app. by left.
    + apply Forall_forall. intros x Hx. rewrite Forall_forall in H2.
      rewrite <- Hsame; [by apply H2|]. apply Hin, elem_of_app. by right.
  - intros i r running_task err Hrun Ht Hlt.
    unfold failTask. rewrite Hrun, Ht. cbn [retryCount maxRetries set_retryCount].
    apply Z.ltb_lt in Hlt. rewrite Hlt. cbn.
    set (objs := <[r := _]> (objects q)).
    assert (Hsame : forall x, priorityOf objs x = priorityOf (objects q) x).
    { intros x. by apply (priorityOf_insert_same _ r running_task). }
    assert (Hr : priorityOf (objects q) r = priority running_task).
    { unfold priorityOf. by rewrite Ht. }
    destruct (requeue_placement objs (queue q) r) as (ahead & behind & Eq & -> & H1 & H2).
    { eapply StronglySorted_weaken; [|exact Hs].
      intros a b. unfold by_priority. by rewrite !Hsame. }
    exists ahead, behind. rewrite !Hsame, Hr in H1, H2.
    repeat split; [assumption| |].
    + eapply Forall_impl; [exact H1|]. intros x. cbn. by rewrite Hsame.
    + eapply Forall_impl; [exact H2|]. intros x. cbn. by rewrite Hsame.
Qed.

End TaskQueueOrderFacts.

(** ** Task queue: accounting and look-up *)

Section TaskQueueAccountFacts.

Import TaskQueue TaskQueueQueries.

Variable clock : nat -> Z.

Lemma size_delete_lookup {A} (m : gmap nat A) i x :
  m !! i = Some x -> size m = S (size (delete i m)).
Proof.
  intros H. rewrite <- (insert_delete_id m i x H) at 1.
  apply map_size_insert_None, lookup_delete_eq.
Qed.

(** Overwriting an object by one with the same identifier keeps the
    identifiers of the pending tasks. *)
Lemma pending_ids_overwrite q q' r task task' i :
  i ∈ pending_ids q' ->
  objects q' = <[r := task']> (objects q) ->
  objects q !! r = Some task -> id task' = id task ->
  (forall x, x ∈ queue q' -> x ∈ queue q) ->
  i ∈ pending_ids q.
Proof.
  rewrite !pending_ids_spec. intros (r' & t' & Hin & Ht' & <-) Eo Ht Hid Hsub.
  rewrite Eo in Ht'.
  destruct (ids_preserved _ _ _ _ Ht Hid _ _ Ht') as (t1 & Ht1 & E).
  exists r', t1. auto.
Qed.

Lemma transition_settled q ev q' :
  inv q -> settled q -> transition clock q ev q' -> settled q'.
Proof.
  intros Hinv Hdone Htr. pose proof Hinv as [Hnd Hq Hr Hi Hd].
  destruct Htr as [q task|q r rest task Eq Ht|q i r task result Hrun Ht
                  |q i r task err Hrun Ht Hlt|q i r task err Hrun Ht Hge|q|q].
  - unfold addTask. cbn.
    pose proof (fresh_ref_unallocated (objects q)) as Hfresh.
    set (r := fresh_ref (objects q)) in *.
    intros i Hi'. cbn in Hi'. destruct (Hdone i Hi') as (Hlt & Hrun & Hpend).
    cbn [world runningTasks World.uuids]. repeat apply conj; [lia | assumption |].
    rewrite pending_ids_spec. cbn.
    intros (r' & t' & [Hin| ->]%(elem_of_requeue clock) & Ht' & Hid).
    + rewrite lookup_insert_ne in Ht'.
      * apply Hpend, pending_ids_spec. eauto.
      * intros <-. destruct (Hq _ Hin) as (? & ? & _). congruence.
    + rewrite lookup_insert_eq in Ht'. injection Ht' as <-. cbn in Hid. lia.
  - unfold getNextTask. rewrite Eq, Ht. cbn.
    intros i Hi'. cbn in Hi'. destruct (Hdone i Hi') as (Hlt & Hrun & Hpend).
    cbn [world runningTasks World.uuids]. repeat apply conj; [assumption | |].
    + rewrite lookup_insert_ne; [assumption|].
      intros <-. apply Hpend, pending_ids_spec.
      exists r, task. rewrite Eq. repeat split; [by left | assumption].
    + intros Hin. apply Hpend.
      eapply (pending_ids_overwrite q _ r task _ i Hin);
        [reflexivity | exact Ht | reflexivity |].
      intros x Hx. rewrite Eq. by right.
  - unfold completeTask. rewrite Hrun, Ht. cbn.
    destruct (Hr i r Hrun) as (t0 & Ht0 & Hid0 & Hs0 & Hnq0).
    assert (t0 = task) as -> by congruence.
    intros j Hj. cbn in Hj. cbn [world runningTasks World.uuids].
    destruct (decide (i = j)) as [<-|Hne].
    + repeat apply conj.
      * rewrite <- Hid0. eapply Hi, Ht.
      * apply lookup_delete_eq.
      * intros Hin.
        assert (Hin' : i ∈ pending_ids q).
        { eapply (pending_ids_overwrite q _ r task _ i Hin);
            [reflexivity | exact Ht | reflexivity | auto]. }
        apply pending_ids_spec in Hin' as (r' & t' & Hin' & Ht' & Hid').
        destruct (Hq r' Hin') as (t1 & Ht1 & _ & Hnone). congruence.
    + rewrite lookup_insert_ne in Hj by assumption.
      destruct (Hdone j Hj) as (Hlt & Hrunj & Hpend).
      repeat apply conj; [assumption | |].
      * by rewrite lookup_delete_ne.
      * intros Hin. apply Hpend.
        eapply (pending_ids_overwrite q _ r task _ j Hin);
          [reflexivity | exact Ht | reflexivity | auto].
  - unfold failTask. rewrite Hrun, Ht. cbn [retryCount maxRetries set_retryCount].
    apply Z.ltb_lt in Hlt. rewrite Hlt. cbn.
    destruct (Hr i r Hrun) as (t0 & Ht0 & Hid0 & Hs0 & Hnq0).
    assert (t0 = task) as -> by congruence.
    intros j Hj. cbn in Hj. destruct (Hdone j Hj) as (Hltj & Hrunj & Hpend).
    assert (i <> j) by congruence.
    cbn [world runningTasks World.uuids]. repeat apply conj; [assumption | |].
    + by rewrite lookup_delete_ne.
    + rewrite pending_ids_spec. cbn.
      intros (r' & t' & [Hin| ->]%(elem_of_requeue clock) & Ht' & Hid').
      * edestruct (ids_preserved (objects q) r task) as (t1 & Ht1 & E);
          [exact Ht | | exact Ht' |]; [reflexivity|].
        apply Hpend, pending_ids_spec. exists r', t1. split; [assumption|].
        split; [assumption | congruence].
      * rewrite lookup_insert_eq in Ht'. injection Ht' as <-. cbn in Hid'.
        congruence.
  - unfold failTask. rewrite Hrun, Ht. cbn [retryCount maxRetries set_retryCount].
    apply Z.ltb_ge in Hge. rewrite Hge. cbn.
    destruct (Hr i r Hrun) as (t0 & Ht0 & Hid0 & Hs0 & Hnq0).
    assert (t0 = task) as -> by congruence.
    intros j Hj. cbn in Hj. cbn [world runningTasks World.uuids].
    destruct (decide (i = j)) as [<-|Hne].
    + repeat apply conj.
      * rewrite <- Hid0. eapply Hi, Ht.
      * apply lookup_delete_eq.
      * intros Hin.
        assert (Hin' : i ∈ pending_ids q).
        { eapply (pending_ids_overwrite q _ r task _ i Hin);
            [reflexivity | exact Ht | reflexivity | auto]. }
        apply pending_ids_spec in Hin' as (r' & t' & Hin' & Ht' & Hid').
        destruct (Hq r' Hin') as (t1 & Ht1 & _ & Hnone). congruence.
    + rewrite lookup_insert_ne in Hj by assumption.
      destruct (Hdone j Hj) as (Hlt & Hrunj & Hpend).
      repeat apply conj; [assumption | |].
      * by rewrite lookup_delete_ne.
      * intros Hin. apply Hpend.
        eapply (pending_ids_overwrite q _ r task _ j Hin);
          [reflexivity | exact Ht | reflexivity | auto].
  - intros i [x Hx]. cbn in Hx. by rewrite lookup_empty in Hx.
  - intros i [x Hx]. cbn in Hx. by rewrite lookup_empty in Hx.
Qed.

Lemma transition_accounted q ev q' :
  inv q -> settled q -> accounted q -> is_clear ev = false ->
  transition clock q ev q' -> accounted q'.
Proof.
  intros Hinv Hdone Hc Hev Htr. pose proof Hinv as [Hnd Hq Hr Hi Hd].
  unfold accounted in *.
  destruct Htr as [q task|q r rest task Eq Ht|q i r task result Hrun Ht
                  |q i r task err Hrun Ht Hlt|q i r task err Hrun Ht Hge|q|q];
    try discriminate.
  - unfold addTask. cbn.
    rewrite map_size_insert_None by apply fresh_ref_unallocated.
    rewrite (Permutation_length (sort_desc_perm _ _)), length_app. cbn. lia.
  - unfold getNextTask. rewrite Eq, Ht. cbn.
    destruct (Hq r) as (t0 & Ht0 & _ & Hnone); [rewrite Eq; by left|].
    assert (t0 = task) as -> by congruence.
    rewrite map_size_insert_None by assumption.
    rewrite (map_size_insert_Some r _ (objects q)) by eauto.
    rewrite Eq in Hc. cbn in Hc. lia.
  - unfold completeTask. rewrite Hrun, Ht. cbn.
    rewrite (map_size_insert_Some r _ (objects q)) by eauto.
    rewrite map_size_insert_None.
    + rewrite (size_delete_lookup _ _ _ Hrun) in Hc. cbn in Hc |- *. lia.
    + destruct (completedTasks q !! i) eqn:E; [|reflexivity].
      destruct (Hdone i) as (_ & Hnone & _); [eauto | congruence].
  - unfold failTask. rewrite Hrun, Ht. cbn [retryCount maxRetries set_retryCount].
    apply Z.ltb_lt in Hlt. rewrite Hlt. cbn.
    rewrite (map_size_insert_Some r _ (objects q)) by eauto.
    rewrite (Permutation_length (sort_desc_perm _ _)), length_app. cbn.
    rewrite (size_delete_lookup _ _ _ Hrun) in Hc. lia.
  - unfold failTask. rewrite Hrun, Ht. cbn [retryCount maxRetries set_retryCount].
    apply Z.ltb_ge in Hge. rewrite Hge. cbn.
    rewrite (map_size_insert_Some r _ (objects q)) by eauto.
    rewrite map_size_insert_None.
    + rewrite (size_delete_lookup _ _ _ Hrun) in Hc. cbn in Hc |- *. lia.
    + destruct (completedTasks q !! i) eqn:E; [|reflexivity].
      destruct (Hdone i) as (_ & Hnone & _); [eauto | congruence].
Qed.

Lemma transition_issued w q ev q' :
  issued_since w q -> transition clock q ev q' -> issued_since w q'.
Proof.
  unfold issued_since. intros Hc Htr.
  destruct Htr as [q task|q r rest task Eq Ht|q i r task result Hrun Ht
                  |q i r task err Hrun Ht Hlt|q i r task err Hrun Ht Hge|q|q].
  - unfold addTask. cbn.
    rewrite map_size_insert_None by apply fresh_ref_unallocated. lia.
  - unfold getNextTask. rewrite Eq, Ht. cbn.
    by rewrite (map_size_insert_Some r _ (objects q)) by eauto.
  - unfold completeTask. rewrite Hrun, Ht. cbn.
    by rewrite (map_size_insert_Some r _ (objects q)) by eauto.
  - unfold failTask. rewrite Hrun, Ht. cbn [retryCount maxRetries set_retryCount].
    apply Z.ltb_lt in Hlt. rewrite Hlt. cbn.
    by rewrite (map_size_insert_Some r _ (objects q)) by eauto.
  - unfold failTask. rewrite Hrun, Ht. cbn [retryCount maxRetries set_retryCount].
    apply Z.ltb_ge in Hge. rewrite Hge. cbn.
    by rewrite (map_size_insert_Some r _ (objects q)) by eauto.
  - exact Hc.
  - exact Hc.
Qed.

Lemma reachable_settled q : reachable clock q -> settled q.
Proof.
  intros Hreach. apply (reachable_trace clock) in Hreach as (w & evs & Htr).
  edestruct (trace_invariant clock settled (fun _ => true))
    as [_ H]; [| | | |exact Htr|exact H].
  - intros q0 ev q1 Hinv Hs _ Hstep. eapply transition_settled; eassumption.
  - apply create_inv.
  - intros i [x Hx]. cbn in Hx. by rewrite lookup_empty in Hx.
  - by apply Forall_forall.
Qed.

(** X20: as long as nothing is cleared, no task is lost or counted twice:
    the pending, the running and the finished tasks together are as many as
    the identifiers the queue has drawn. *)
Theorem tasks_accounted (w : World.t) (cs : list Call)
    (Hcs : Forall (fun c => is_clear_call c = false) cs) :
  let q := calls clock (create w) cs in
  getQueueLength q + getRunningTaskCount q + getCompletedTaskCount q
  = World.uuids (world q) - World.uuids w.
Proof.
  cbn zeta. destruct (calls_trace clock cs (create w)) as (evs & Htr & Hevs).
  specialize (Hevs Hcs).
  edestruct (trace_invariant clock
               (fun q => settled q /\ accounted q /\ issued_since w q)
               (fun ev => negb (is_clear ev)))
    as [_ (_ & Hacc & Hiss)]; [| | | |exact Htr|].
  - intros q0 ev q1 Hinv (Hs & Ha & Hi) Hev Hstep.
    apply negb_true_iff in Hev. split; [|split].
    + eapply transition_settled; eassumption.
    + eapply transition_accounted; eassumption.
    + eapply transition_issued; eassumption.
  - apply create_inv.
  - split; [|split].
    + intros i [x Hx]. cbn in Hx. by rewrite lookup_empty in Hx.
    + reflexivity.
    + unfold issued_since. cbn. rewrite map_size_empty. lia.
  - eapply Forall_impl; [exact Hevs|]. intros ev ->. reflexivity.
  - unfold getQueueLength, getRunningTaskCount, getCompletedTaskCount.
    unfold accounted, issued_since in *. lia.
Qed.

Lemma find_has_id q i r :
  inv q ->
  List.find (has_id q i) (queue q) = Some r
  <-> r ∈ queue q /\ exists task, objects q !! r = Some task /\ id task = i.
Proof.
  intros Hinv. unfold has_id. split.
  - intros [Hin Hid]%find_some. apply list_elem_of_In in Hin.
    split; [assumption|].
    destruct (objects q !! r) as [task|]; [|discriminate].
    apply Nat.eqb_eq in Hid. eauto.
  - intros (Hin & task & Ht & Hid).
    destruct (List.find _ (queue q)) as [r'|] eqn:E.
    + apply find_some in E as [Hin' Hid']. apply list_elem_of_In in Hin'.
      destruct (objects q !! r') as [task'|] eqn:Ht'; [|discriminate].
      apply Nat.eqb_eq in Hid'. f_equal.
      eapply (inv_ids_distinct q Hinv); [exact Ht' | exact Ht | congruence].
    + apply list_elem_of_In in Hin.
      pose proof (find_none _ _ E r Hin) as Hno. cbn in Hno.
      rewrite Ht in Hno. apply Nat.eqb_neq in Hno. contradiction.
Qed.

Lemma getTask_live q i r :
  inv q ->
  getTask q i = Some r
  <-> live q r /\ exists task, objects q !! r = Some task /\ id task = i.
Proof.
  intros Hinv. unfold getTask. split.
  - destruct (runningTasks q !! i) as [r0|] eqn:Hrun.
    + intros [= <-]. split; [right; eauto|].
      destruct (inv_running q Hinv i r0 Hrun) as (task & Ht & Hid & _). eauto.
    + intros [Hin Hid]%find_has_id; [|assumption]. split; [by left | assumption].
  - intros ([Hin | [j Hrun]] & task & Ht & Hid).
    + destruct (inv_queue_allocated q Hinv r Hin) as (t0 & Ht0 & _ & Hnone).
      assert (t0 = task) as -> by congruence. rewrite Hid in Hnone.
      rewrite Hnone. apply find_has_id; eauto.
    + destruct (inv_running q Hinv j r Hrun) as (t0 & Ht0 & Hid0 & _).
      assert (t0 = task) as -> by congruence.
      assert (j = i) as -> by congruence. by rewrite Hrun.
Qed.

Lemma settled_not_live q i :
  inv q -> settled q -> is_Some (completedTasks q !! i) -> getTask q i = None.
Proof.
  intros Hinv Hs Hi. destruct (Hs i Hi) as (_ & Hrun & Hpend).
  destruct (getTask q i) as [r|] eqn:E; [|reflexivity].
  apply getTask_live in E as ([Hin | [j Hj]] & task & Ht & Hid); [| |assumption].
  - exfalso. apply Hpend, pending_ids_spec. eauto.
  - destruct (inv_running q Hinv j r Hj) as (t0 & Ht0 & Hid0 & _).
    congruence.
Qed.

(** X21: [getTask] finds the one task with the identifier that is pending
    or running, and no other: what it returns is in the pending queue with
    status [pending] or in the running map with status [running], and an
    identifier that has a stored result is never found. *)
Theorem getTask_finds_live (q : t) (i : nat) (Hreach : reachable clock q) :
  (forall r,
     getTask q i = Some r
     <-> live q r /\ exists task, objects q !! r = Some task /\ id task = i)
  /\ (forall r,
        getTask q i = Some r ->
        exists task,
          objects q !! r = Some task /\ id task = i
          /\ (r ∈ queue q /\ status task = pending
              \/ runningTasks q !! i = Some r /\ status task = running))
  /\ (is_Some (getTaskResult q i) -> getTask q i = None).
Proof.
  pose proof (reachable_inv clock q Hreach) as Hinv.
  split; [|split].
  - intros r. by apply getTask_live.
  - intros r ([Hin | [j Hrun]] & task & Ht & Hid)%getTask_live; [| |assumption].
    + destruct (inv_queue_allocated q Hinv r Hin) as (t0 & Ht0 & Hs & _).
      assert (t0 = task) as -> by congruence. eauto 10.
    + destruct (inv_running q Hinv j r Hrun) as (t0 & Ht0 & Hid0 & Hs & _).
      assert (t0 = task) as -> by congruence.
      assert (j = i) as -> by congruence. eauto 10.
  - apply settled_not_live; [assumption | by apply reachable_settled].
Qed.

(** X22: [addTask] returns an identifier that was unknown to the queue, and
    [getTask] on it then finds the new task: pending, never retried, created
    at the current clock reading and otherwise as the caller gave it.  The
    look-up of every other identifier is as before. *)
Theorem addTask_then_getTask (q : t) (task : TaskSpec)
    (Hreach : reachable clock q) :
  let i := fst (addTask clock q task) in
  let q' := snd (addTask clock q task) in
  getTask q i = None /\ getTaskResult q i = None
  /\ (exists r,
        getTask q' i = Some r
        /\ objects q' !! r
           = Some (mkTask i (spec_type task) (spec_target task)
                     (spec_marketplace task) (spec_priority task)
                     (clock (World.dates (world q))) (spec_scheduledAt task)
                     (spec_startedAt task) (spec_completedAt task) pending 0
                     (spec_maxRetries task) (spec_error task)))
  /\ (forall j, j <> i -> getTask q' j = getTask q j)
  /\ forall j, getTaskResult q' j = getTaskResult q j.
Proof.
  pose proof (reachable_inv clock q Hreach) as Hinv.
  pose proof (reachable_settled q Hreach) as Hs.
  destruct (addTask_continues clock q task Hinv) as (Hinv' & _ & _).
  pose proof (fresh_ref_unallocated (objects q)) as Hfresh.
  unfold addTask in *. cbn in *.
  set (r := fresh_ref (objects q)) in *.
  set (new := mkTask _ _ _ _ _ _ _ _ _ _ _ _ _) in *.
  set (q' := mk _ _ _ _ _ _) in *.
  assert (Hold : forall x, is_Some (objects q !! x) ->
                           objects q' !! x = objects q !! x).
  { intros x [t0 Hx]. cbn. rewrite lookup_insert_ne; [reflexivity | congruence]. }
  repeat apply conj.
  - destruct (getTask q _) as [r0|] eqn:E; [|reflexivity].
    apply getTask_live in E as (_ & t0 & Ht0 & Hid); [|assumption].
    apply (inv_ids_issued q Hinv) in Ht0. lia.
  - unfold getTaskResult. destruct (completedTasks q !! _) as [x|] eqn:E;
      [|reflexivity].
    destruct (Hs (World.uuids (world q))) as (Hlt & _); [eauto | lia].
  - exists r. split; [|apply lookup_insert_eq].
    apply getTask_live; [assumption|]. split.
    + left. cbn. apply (elem_of_requeue clock). by right.
    + exists new. split; [apply lookup_insert_eq | reflexivity].
  - intros j Hj. apply option_eq. intros x.
    rewrite !getTask_live by assumption. split.
    + intros (Hlive & t0 & Ht0 & Hid). cbn in Ht0.
      destruct (decide (r = x)) as [<-|Hne].
      * rewrite lookup_insert_eq in Ht0. injection Ht0 as <-. cbn in Hid.
        congruence.
      * rewrite lookup_insert_ne in Ht0 by assumption.
        split; [|eauto].
        destruct Hlive as [[Hin | ->]%(elem_of_requeue clock) | Hrun];
          [by left | contradiction | by right].
    + intros (Hlive & t0 & Ht0 & Hid). split.
      * destruct Hlive as [Hin | Hrun]; [left | by right].
        cbn. apply (elem_of_requeue clock). by left.
      * exists t0. rewrite Hold by eauto. auto.
  - reflexivity.
Qed.

Lemma find_pointwise {A} (f g : A -> bool) l :
  (forall x, f x = g x) -> List.find f l = List.find g l.
Proof.
  intros Hfg. induction l as [|x l IH]; [reflexivity|].
  cbn. by rewrite Hfg, IH.
Qed.

Lemma last_push_duration ds d : last (push_duration ds d) = Some d.
Proof.
  unfold push_duration. destruct (Nat.ltb _ _) eqn:E; [|apply last_snoc].
  destruct ds as [|x ds]; [discriminate E|]. cbn. apply last_snoc.
Qed.

(** X23: completing a running task stores a result under its identifier
    that carries the caller's outcome but the duration the queue measured
    itself, from the start of the task to the current clock reading; that
    duration becomes the latest of the recorded durations, the task is no
    longer found by [getTask], and every other identifier is left alone. *)
Theorem completeTask_then_getTaskResult (q : t) (i r : nat)
    (result : TaskOutcome) (Hreach : reachable clock q)
    (Hrun : runningTasks q !! i = Some r) :
  exists task,
    objects q !! r = Some task /\ id task = i
    /\ let q' := completeTask clock q i result in
       let d := elapsed (clock (World.dates (world q))) task in
       getTaskResult q' i
       = Some (mkTaskResult i (outcome_success result) (outcome_data result)
                 (outcome_error result) d)
       /\ getTask q' i = None
       /\ last (taskDurations q') = Some d
       /\ forall j, j <> i ->
            getTaskResult q' j = getTaskResult q j
            /\ getTask q' j = getTask q j.
Proof.
  pose proof (reachable_inv clock q Hreach) as Hinv.
  assert (Hreach' : reachable clock (completeTask clock q i result))
    by apply (reachable_call clock q (CompleteTask i result) Hreach).
  pose proof (reachable_inv clock _ Hreach') as Hinv'.
  pose proof (reachable_settled _ Hreach') as Hs'.
  destruct (inv_running q Hinv i r Hrun) as (task & Ht & Hid & _).
  exists task. split; [assumption|]. split; [assumption|]. cbn zeta.
  assert (Hres : getTaskResult (completeTask clock q i result) i
                 = Some (mkTaskResult i (outcome_success result)
                           (outcome_data result) (outcome_error result)
                           (elapsed (clock (World.dates (world q))) task))).
  { unfold completeTask, getTaskResult. rewrite Hrun, Ht. cbn.
    apply lookup_insert_eq. }
  split; [exact Hres|]. split; [|split].
  - apply settled_not_live; [assumption | assumption |].
    unfold getTaskResult in Hres. rewrite Hres. eauto.
  - unfold completeTask. rewrite Hrun, Ht. cbn. apply last_push_duration.
  - intros j Hj. unfold completeTask, getTaskResult, getTask.
    rewrite Hrun, Ht. cbn.
    rewrite lookup_insert_ne by congruence.
    rewrite lookup_delete_ne by congruence. split; [reflexivity|].
    destruct (runningTasks q !! j); [reflexivity|].
    apply find_pointwise. intros x. unfold has_id. cbn.
    destruct (decide (r = x)) as [<-|Hne].
    + by rewrite lookup_insert_eq, Ht.
    + by rewrite lookup_insert_ne.
Qed.

Lemma length_push_duration ds d :
  length ds <= MAX_DURATIONS -> length (push_duration ds d) <= MAX_DURATIONS.
Proof.
  intros Hlen. unfold push_duration.
  destruct (Nat.ltb_spec MAX_DURATIONS (length (ds ++ [d]))) as [Hlt|Hge];
    [|assumption].
  rewrite length_app in Hlt. cbn in Hlt.
  destruct ds as [|x ds]; cbn in *; [lia|]. rewrite length_app. cbn. lia.
Qed.

Lemma push_duration_most_recent ds d :
  length ds <= MAX_DURATIONS ->
  push_duration ds d = most_recent MAX_DURATIONS (ds ++ [d]).
Proof.
  intros Hlen. unfold push_duration, most_recent. rewrite !length_app. cbn [length].
  destruct (Nat.ltb_spec MAX_DURATIONS (length ds + 1)) as [Hlt|Hge].
  - replace (length ds + 1 - MAX_DURATIONS) with 1 by lia.
    destruct ds; reflexivity.
  - replace (length ds + 1 - MAX_DURATIONS) with 0 by lia. reflexivity.
Qed.

Lemma transition_durations q ev q' :
  length (taskDurations q) <= MAX_DURATIONS ->
  transition clock q ev q' ->
  length (taskDurations q') <= MAX_DURATIONS.
Proof.
  intros Hlen Htr.
  destruct Htr as [q task|q r rest task Eq Ht|q i r task result Hrun Ht
                  |q i r task err Hrun Ht Hlt|q i r task err Hrun Ht Hge|q|q].
  - exact Hlen.
  - unfold getNextTask. by rewrite Eq, Ht.
  - unfold completeTask. rewrite Hrun, Ht. cbn. by apply length_push_duration.
  - unfold failTask. rewrite Hrun, Ht. cbn [retryCount maxRetries set_retryCount].
    apply Z.ltb_lt in Hlt. by rewrite Hlt.
  - unfold failTask. rewrite Hrun, Ht. cbn [retryCount maxRetries set_retryCount].
    apply Z.ltb_ge in Hge. by rewrite Hge.
  - exact Hlen.
  - cbn. lia.
Qed.

Lemma reachable_durations q :
  reachable clock q -> length (taskDurations q) <= MAX_DURATIONS.
Proof.
  intros Hreach. apply (reachable_trace clock) in Hreach as (w & evs & Htr).
  edestruct (trace_invariant clock
               (fun q => length (taskDurations q) <= MAX_DURATIONS)
               (fun _ => true))
    as [_ H]; [| | | |exact Htr|exact H].
  - intros q0 ev q1 _ Hlen _ Hstep. eapply transition_durations; eassumption.
  - apply create_inv.
  - cbn. lia.
  - by apply Forall_forall.
Qed.

(** X24: the queue never keeps more than 100 durations.  A completion
    appends its duration and keeps the 100 most recent; a task that fails,
    for good or to be retried, adds none, so that
    [getAverageTaskDuration] averages over completions only. *)
Theorem taskDurations_recent (q : t) (Hreach : reachable clock q) :
  length (taskDurations q) <= 100
  /\ (forall i r result,
        runningTasks q !! i = Some r ->
        exists task,
          objects q !! r = Some task
          /\ taskDurations (completeTask clock q i result)
             = most_recent 100
                 (taskDurations q
                  ++ [elapsed (clock (World.dates (world q))) task]))
  /\ forall i err,
       taskDurations (failTask clock q i err) = taskDurations q
       /\ getAverageTaskDuration (failTask clock q i err)
          = getAverageTaskDuration q.
Proof.
  pose proof (reachable_inv clock q Hreach) as Hinv.
  pose proof (reachable_durations q Hreach) as Hlen.
  split; [exact Hlen|]. split.
  - intros i r result Hrun.
    destruct (inv_running q Hinv i r Hrun) as (task & Ht & _).
    exists task. split; [assumption|].
    unfold completeTask. rewrite Hrun, Ht. cbn.
    by apply push_duration_most_recent.
  - intros i err.
    assert (E : taskDurations (failTask clock q i err) = taskDurations q).
    { unfold failTask. destruct (runningTasks q !! i) as [r|]; [|reflexivity].
      destruct (objects q !! r) as [task|]; [|reflexivity].
      cbn [retryCount maxRetries set_retryCount].
      by destruct (_ <? _)%Z. }
    split; [exact E|]. unfold getAverageTaskDuration. by rewrite E.
Qed.

Lemma live_call q c r :
  inv q -> live (call clock q c) r -> live q r \/ ~ allocated q r.
Proof. intros Hinv. apply (call_continues clock q c Hinv). Qed.

Lemma transition_retries q ev q' :
  inv q -> retries_left q -> transition clock q ev q' -> retries_left q'.
Proof.
  intros Hinv Hleft Htr. pose proof Hinv as [Hnd Hq Hr Hi Hd].
  unfold retries_left in *.
  destruct Htr as [q task|q r rest task Eq Ht|q i r task result Hrun Ht
                  |q i r task err Hrun Ht Hlt|q i r task err Hrun Ht Hge|q|q].
  - intros r0 t0 Hlive Ht0.
    apply (live_call q (AddTask task) r0 Hinv) in Hlive.
    unfold addTask in Ht0. cbn in Ht0.
    destruct (decide (fresh_ref (objects q) = r0)) as [<-|Hne].
    + rewrite lookup_insert_eq in Ht0. injection Ht0 as <-. cbn. lia.
    + rewrite lookup_insert_ne in Ht0 by assumption.
      destruct Hlive as [Hlive | Hno]; [eauto|].
      exfalso. apply Hno. red. eauto.
  - intros r0 t0 Hlive Ht0.
    apply (live_call q GetNextTask r0 Hinv) in Hlive.
    unfold getNextTask in Ht0. rewrite Eq, Ht in Ht0. cbn in Ht0.
    destruct (decide (r = r0)) as [<-|Hne].
    + rewrite lookup_insert_eq in Ht0. injection Ht0 as <-. cbn.
      apply (Hleft r task); [|assumption]. left. rewrite Eq. by left.
    + rewrite lookup_insert_ne in Ht0 by assumption.
      destruct Hlive as [Hlive | Hno]; [eauto|].
      exfalso. apply Hno. red. eauto.
  - intros r0 t0 Hlive Ht0.
    apply (live_call q (CompleteTask i result) r0 Hinv) in Hlive.
    unfold completeTask in Ht0. rewrite Hrun, Ht in Ht0. cbn in Ht0.
    destruct (decide (r = r0)) as [<-|Hne].
    + rewrite lookup_insert_eq in Ht0. injection Ht0 as <-. cbn.
      apply (Hleft r task); [|assumption]. right. eauto.
    + rewrite lookup_insert_ne in Ht0 by assumption.
      destruct Hlive as [Hlive | Hno]; [eauto|].
      exfalso. apply Hno. red. eauto.
  - intros r0 t0 Hlive Ht0.
    apply (live_call q (FailTask i err) r0 Hinv) in Hlive.
    unfold failTask in Ht0. rewrite Hrun, Ht in Ht0.
    cbn [retryCount maxRetries set_retryCount] in Ht0.
    pose proof Hlt as Hlt'. apply Z.ltb_lt in Hlt'. rewrite Hlt' in Ht0.
    cbn in Ht0.
    destruct (decide (r = r0)) as [<-|Hne].
    + rewrite lookup_insert_eq in Ht0. injection Ht0 as <-. cbn.
      destruct (Hleft r task) as [H0 _]; [right; eauto | assumption | lia].
    + rewrite lookup_insert_ne in Ht0 by assumption.
      destruct Hlive as [Hlive | Hno]; [eauto|].
      exfalso. apply Hno. red. eauto.
  - intros r0 t0 Hlive Ht0.
    destruct (inv_running q Hinv i r Hrun) as (t1 & Ht1 & Hid1 & _ & Hnq).
    assert (t1 = task) as -> by congruence.
    unfold failTask in Hlive, Ht0. rewrite Hrun, Ht in Hlive, Ht0.
    cbn [retryCount maxRetries set_retryCount] in Hlive, Ht0.
    pose proof Hge as Hge'. apply Z.ltb_ge in Hge'. rewrite Hge' in Hlive, Ht0.
    cbn in Ht0.
    assert (Hlive0 : live q r0 /\ r <> r0).
    { destruct Hlive as [Hin | [j Hj]].
      - cbn in Hin. split; [by left | congruence].
      - cbn in Hj. destruct (decide (i = j)) as [<-|Hne].
        + by rewrite lookup_delete_eq in Hj.
        + rewrite lookup_delete_ne in Hj by assumption.
          split; [right; eauto|]. intros <-.
          destruct (inv_running q Hinv j r Hj) as (t2 & Ht2 & Hid2 & _).
          congruence. }
    destruct Hlive0 as [Hlive0 Hne].
    rewrite lookup_insert_ne in Ht0 by assumption. eauto.
  - intros r0 t0 Hlive Ht0. apply (Hleft r0 t0); [|exact Ht0].
    destruct Hlive as [Hin | Hrun]; [by left | by right].
  - intros r0 t0 [Hin | [j Hj]]; cbn in *.
    + by apply elem_of_nil in Hin.
    + by rewrite lookup_empty in Hj.
Qed.

(** X25: a task that is pending or running has either never failed or has
    failed fewer times than its [maxRetries]: once the retries are used up
    the task is neither queued nor handed out again. *)
Theorem live_tasks_have_retries_left (q : t) (r : nat) (task : Task)
    (Hreach : reachable clock q) (Hlive : live q r)
    (Ht : objects q !! r = Some task) :
  (0 <= retryCount task)%Z
  /\ (retryCount task = 0 \/ retryCount task < maxRetries task)%Z.
Proof.
  apply (reachable_trace clock) in Hreach as (w & evs & Htr).
  edestruct (trace_invariant clock retries_left (fun _ => true))
    as [_ H]; [| | | |exact Htr|exact (H r task Hlive Ht)].
  - intros q0 ev q1 Hinv Hl _ Hstep. eapply transition_retries; eassumption.
  - apply create_inv.
  - intros r0 t0 _ Ht0. cbn in Ht0. by rewrite lookup_empty in Ht0.
  - by apply Forall_forall.
Qed.

End TaskQueueAccountFacts.

(** ** Deal tracker *)

Section JsMapFacts.

Context {V : Type}.

Implicit Types (m : list (string * V)) (key : string) (v : V).

#[local] Arguments JsMap.has_key : simpl never.

Lemma has_key_true key (kv : string * V) :
  JsMap.has_key key kv = true <-> fst kv = key.
Proof. apply String.eqb_eq. Qed.

Lemma has_key_false key (kv : string * V) :
  JsMap.has_key key kv = false <-> fst kv <> key.
Proof. apply String.eqb_neq. Qed.

Lemma get_set_eq m key v : JsMap.get (JsMap.set m key v) key = Some v.
Proof.
  unfold JsMap.get. induction m as [|kv m IH]; cbn.
  - unfold JsMap.has_key. cbn. by rewrite String.eqb_refl.
  - destruct (JsMap.has_key key kv) eqn:E; cbn.
    + unfold JsMap.has_key in *. cbn. by rewrite E.
    + by rewrite E.
Qed.

Lemma get_set_ne m key key' v :
  key <> key' -> JsMap.get (JsMap.set m key v) key' = JsMap.get m key'.
Proof.
  intros Hne. unfold JsMap.get. induction m as [|kv m IH]; cbn.
  - assert (E : JsMap.has_key key' (key, v) = false)
      by by apply has_key_false.
    by rewrite E.
  - destruct (JsMap.has_key key kv) eqn:E; cbn.
    + apply has_key_true in E.
      assert (E1 : JsMap.has_key key' kv = false)
        by (apply has_key_false; congruence).
      assert (E2 : JsMap.has_key key' (fst kv, v) = false)
        by (apply has_key_false; cbn; congruence).
      by rewrite E1, E2.
    + destruct (JsMap.has_key key' kv); [reflexivity | exact IH].
Qed.

Lemma get_delete_eq m key : JsMap.get (JsMap.delete m key) key = None.
Proof.
  unfold JsMap.get, JsMap.delete. induction m as [|kv m IH]; cbn; [reflexivity|].
  destruct (JsMap.has_key key kv) eqn:E; cbn; [exact IH|]. by rewrite E.
Qed.

Lemma get_delete_ne m key key' :
  key <> key' -> JsMap.get (JsMap.delete m key) key' = JsMap.get m key'.
Proof.
  intros Hne. unfold JsMap.get, JsMap.delete.
  induction m as [|kv m IH]; cbn; [reflexivity|].
  destruct (JsMap.has_key key kv) eqn:E; cbn.
  - apply has_key_true in E.
    assert (E1 : JsMap.has_key key' kv = false)
      by (apply has_key_false; congruence).
    by rewrite E1.
  - destruct (JsMap.has_key key' kv); [reflexivity | exact IH].
Qed.

Lemma get_Some_elem_of m key v : JsMap.get m key = Some v -> (key, v) ∈ m.
Proof.
  unfold JsMap.get. intros H.
  destruct (List.find _ m) as [[k v']|] eqn:E; [|discriminate].
  injection H as ->. apply find_some in E as [Hin Hk].
  apply has_key_true in Hk. cbn in Hk. subst k. by apply list_elem_of_In.
Qed.

Lemma get_None_keys m key : JsMap.get m key = None <-> key ∉ fst <$> m.
Proof.
  unfold JsMap.get. induction m as [|kv m IH]; cbn.
  - split; [intros _; apply not_elem_of_nil | reflexivity].
  - rewrite not_elem_of_cons. destruct (JsMap.has_key key kv) eqn:E; cbn.
    + apply has_key_true in E. split; [discriminate | intros [H _]; congruence].
    + apply has_key_false in E. rewrite IH. split; [auto | tauto].
Qed.

Lemma keys_set m key v :
  fst <$> JsMap.set m key v
  = match JsMap.get m key with
    | Some _ => fst <$> m
    | None => (fst <$> m) ++ [key]
    end.
Proof.
  unfold JsMap.get. induction m as [|kv m IH]; cbn; [reflexivity|].
  destruct (JsMap.has_key key kv) eqn:E; cbn; [reflexivity|].
  rewrite IH. by destruct (List.find _ m).
Qed.

Lemma elem_of_set m key v k d :
  (k, d) ∈ JsMap.set m key v -> (k, d) ∈ m \/ (k, d) = (key, v).
Proof.
  induction m as [|kv m IH]; cbn.
  - intros ->%list_elem_of_singleton. by right.
  - destruct (JsMap.has_key key kv) eqn:E.
    + apply has_key_true in E. intros [->|Hin]%elem_of_cons.
      * right. by rewrite E.
      * left. by right.
    + intros [->|Hin]%elem_of_cons; [left; by left|].
      destruct (IH Hin) as [H|H]; [left; by right | by right].
Qed.

Lemma elem_of_delete m key k d :
  (k, d) ∈ JsMap.delete m key <-> (k, d) ∈ m /\ k <> key.
Proof.
  unfold JsMap.delete. rewrite !list_elem_of_In, filter_In.
  rewrite negb_true_iff, has_key_false. reflexivity.
Qed.

Lemma keys_delete m key :
  fst <$> JsMap.delete m key = List.filter (fun k => negb (String.eqb k key)) (fst <$> m).
Proof.
  unfold JsMap.delete. induction m as [|kv m IH]; cbn; [reflexivity|].
  unfold JsMap.has_key at 1. destruct (String.eqb (fst kv) key); cbn; by rewrite IH.
Qed.

End JsMapFacts.

Section DealTrackerFacts.

Import PriceHistoryManager DealTracker.

Lemma create_well_keyed : well_keyed create.
Proof.
  constructor.
  - apply empty_coherent.
  - constructor.
  - intros key deal Hin. by apply elem_of_nil in Hin.
Qed.

Lemma NoDup_filter_keys (P : string -> bool) (l : list string) :
  NoDup l -> NoDup (List.filter P l).
Proof.
  induction 1 as [|x l Hx Hl IH]; cbn; [constructor|].
  destruct (P x); [|assumption]. constructor; [|assumption].
  rewrite list_elem_of_In, filter_In, <- list_elem_of_In. tauto.
Qed.

Lemma trackProduct_manager tr product :
  priceHistoryManager (snd (trackProduct tr product))
  = PriceHistoryQueries.call (priceHistoryManager tr)
      (PriceHistoryQueries.AddPriceEntry
         (mkEntry (ProductData.asin product) (ProductData.marketplace product)
            (ProductData.price product) (ProductData.timestamp product))).
Proof. reflexivity. Qed.

Lemma trackProduct_history tr product key :
  is_Some (history (priceHistoryManager tr) !! key) ->
  is_Some (history (priceHistoryManager (snd (trackProduct tr product))) !! key).
Proof.
  intros H. unfold trackProduct. cbn. apply lookup_insert_is_Some'. by right.
Qed.

Lemma call_well_keyed tr c : well_keyed tr -> well_keyed (call tr c).
Proof.
  intros [Hco Hnd Hown]. destruct c as [product|deal|a m|]; cbn [call].
  - constructor.
    + rewrite trackProduct_manager. by apply call_coherent.
    + exact Hnd.
    + intros key deal Hin. destruct (Hown key deal Hin) as [-> Hhist].
      split; [reflexivity|]. by apply trackProduct_history.
  - unfold trackDeal. constructor.
    + rewrite trackProduct_manager. by apply call_coherent.
    + unfold tracked_keys in *. cbn. rewrite keys_set.
      destruct (JsMap.get (trackedDeals tr) (getDealKey deal)) eqn:E;
        [assumption|].
      apply NoDup_app. split; [assumption|]. split; [|apply NoDup_singleton].
      intros k Hk ->%list_elem_of_singleton.
      by apply get_None_keys in E.
    + intros key d Hin. cbn in Hin. apply elem_of_set in Hin as [Hin | Heq].
      * destruct (Hown key d Hin) as [-> Hhist].
        split; [reflexivity|]. by apply trackProduct_history.
      * injection Heq as -> ->. split; [reflexivity|].
        unfold trackProduct. cbn. apply lookup_insert_is_Some'. by left.
  - unfold clearDeal. constructor.
    + apply (call_coherent _ (PriceHistoryQueries.ClearHistory a m) Hco).
    + unfold tracked_keys in *. cbn. rewrite keys_delete.
      by apply NoDup_filter_keys.
    + intros key d Hin. cbn in Hin. apply elem_of_delete in Hin as [Hin Hne].
      destruct (Hown key d Hin) as [-> Hhist].
      split; [reflexivity|]. cbn.
      unfold PriceHistoryQueries.getKey. by rewrite lookup_delete_ne.
  - unfold clearAllDeals. constructor.
    + apply (call_coherent _ PriceHistoryQueries.ClearAllHistory Hco).
    + constructor.
    + intros key d Hin. by apply elem_of_nil in Hin.
Qed.

Lemma calls_well_keyed cs : forall tr,
  well_keyed tr -> well_keyed (calls tr cs).
Proof.
  induction cs as [|c cs IH]; intros tr Hwk; [assumption|].
  cbn. apply IH. by apply call_well_keyed.
Qed.

(** X26: however a new tracker is driven, every deal it returns stands
    under the key of its own product, that product has a last price, and
    the tracker never holds more deals than it holds price series. *)
Theorem tracked_deals_have_prices (cs : list Call) :
  let tr := calls create cs in
  NoDup (tracked_keys tr)
  /\ (forall a m deal,
        getDeal tr a (code m) = Some deal ->
        ProductData.asin (Deal.product deal) = a
        /\ ProductData.marketplace (Deal.product deal) = m
        /\ deal ∈ getAllDeals tr
        /\ is_Some (getLastPrice tr a (code m))
        /\ getPriceHistory tr a (code m) None <> [])
  /\ getTrackedDealsCount tr <= getTrackedProductsCount tr.
Proof.
  cbn zeta. destruct (calls_well_keyed cs create create_well_keyed)
    as [Hco Hnd Hown].
  set (tr := calls create cs) in *. split; [exact Hnd|]. split.
  - intros a m deal Hget. unfold getDeal in Hget.
    apply get_Some_elem_of in Hget.
    destruct (Hown _ _ Hget) as [Hkey [h Hh]].
    change (a +:+ ":" +:+ code m) with (getKey a m) in *.
    assert (Hk : getKey (ProductData.asin (Deal.product deal))
                   (ProductData.marketplace (Deal.product deal)) = getKey a m)
      by (symmetry; exact Hkey).
    apply getKey_inj in Hk as [Ha Hm].
    destruct (Hco (getKey a m)) as [Hlast Hne].
    rewrite Hh in Hlast, Hne. cbn in Hlast.
    repeat apply conj; [assumption | assumption | | |].
    + unfold getAllDeals, JsMap.values. apply list_elem_of_fmap.
      exists (getKey a m, deal). split; [reflexivity | assumption].
    + unfold getLastPrice, PriceHistoryQueries.getLastPrice.
      change (PriceHistoryQueries.getKey a (code m)) with (getKey a m).
      rewrite Hlast. destruct h as [|e h] using rev_ind; [congruence|].
      rewrite last_snoc. cbn. eauto.
    + unfold getPriceHistory, PriceHistoryQueries.getPriceHistory.
      change (PriceHistoryQueries.getKey a (code m)) with (getKey a m).
      rewrite Hh. cbn. congruence.
  - unfold getTrackedDealsCount, getTrackedProductsCount,
      PriceHistoryQueries.getTrackedProductsCount.
    replace (length (trackedDeals tr)) with (length (tracked_keys tr))
      by apply length_fmap.
    rewrite <- (size_list_to_set (C := gset string) _ Hnd).
    rewrite <- size_dom. apply subseteq_size.
    intros k [[k' d] [-> Hin]]%elem_of_list_to_set%list_elem_of_fmap.
    apply elem_of_dom. by apply (Hown k' d).
Qed.

(** X27: after [trackDeal] the deal is found under its asin and
    marketplace and its price is the last price of the product.  A deal
    tracked before under the same key is replaced where it stood; otherwise
    the new deal is the last of all deals.  No other key is touched. *)
Theorem trackDeal_then_getDeal (tr : t) (deal : Deal.t) :
  let a := ProductData.asin (Deal.product deal) in
  let m := code (ProductData.marketplace (Deal.product deal)) in
  let tr' := trackDeal tr deal in
  getDeal tr' a m = Some deal
  /\ getLastPrice tr' a m = Some (ProductData.price (Deal.product deal))
  /\ last (getPriceHistory tr' a m None)
     = Some (mkEntry (ProductData.asin (Deal.product deal))
               (ProductData.marketplace (Deal.product deal))
               (ProductData.price (Deal.product deal))
               (ProductData.timestamp (Deal.product deal)))
  /\ (getDeal tr a m = None -> getAllDeals tr' = getAllDeals tr ++ [deal])
  /\ (is_Some (getDeal tr a m) ->
      tracked_keys tr' = tracked_keys tr
      /\ getTrackedDealsCount tr' = getTrackedDealsCount tr)
  /\ forall a' m',
       a' +:+ ":" +:+ m' <> a +:+ ":" +:+ m ->
       getDeal tr' a' m' = getDeal tr a' m'
       /\ getLastPrice tr' a' m' = getLastPrice tr a' m'
       /\ getPriceHistory tr' a' m' None = getPriceHistory tr a' m' None.
Proof.
  cbn zeta. unfold trackDeal, trackProduct, getDeal, getLastPrice,
    getPriceHistory, PriceHistoryQueries.getLastPrice,
    PriceHistoryQueries.getPriceHistory, PriceHistoryQueries.getKey, getDealKey.
  cbn.
  set (key := ProductData.asin (Deal.product deal) +:+ ":"
              +:+ code (ProductData.marketplace (Deal.product deal))).
  change (getKey (ProductData.asin (Deal.product deal))
            (ProductData.marketplace (Deal.product deal))) with key.
  repeat apply conj.
  - apply get_set_eq.
  - apply lookup_insert_eq.
  - rewrite lookup_insert_eq. cbn. apply last_push_capped, MAX_HISTORY_pos.
  - intros Hnone. unfold getAllDeals, JsMap.values. cbn.
    clear -Hnone. unfold JsMap.get in Hnone.
    induction (trackedDeals tr) as [|kv l IH]; cbn in *; [reflexivity|].
    destruct (JsMap.has_key key kv); [discriminate|]. cbn. f_equal. by apply IH.
  - intros [d Hd].
    assert (Hkeys : fst <$> JsMap.set (trackedDeals tr) key deal
                    = fst <$> trackedDeals tr)
      by by rewrite keys_set, Hd.
    split; [exact Hkeys|]. unfold getTrackedDealsCount. cbn.
    by rewrite <- !(length_fmap fst), Hkeys.
  - intros a' m' Hne.
    assert (Hne' : key <> a' +:+ ":" +:+ m') by congruence.
    repeat apply conj.
    + by apply get_set_ne.
    + by apply lookup_insert_ne.
    + by rewrite lookup_insert_ne.
Qed.

(** X28: [clearDeal] forgets the deal and the price series of its key, so
    that the next price of that product raises no alert; the other deals
    stay, in their order. *)
Theorem clearDeal_forgets (tr : t) (a m : string) :
  let tr' := clearDeal tr a m in
  getDeal tr' a m = None
  /\ getLastPrice tr' a m = None
  /\ getPriceHistory tr' a m None = []
  /\ (forall product,
        ProductData.asin product +:+ ":" +:+ code (ProductData.marketplace product)
        = a +:+ ":" +:+ m ->
        fst (trackProduct tr' product) = None)
  /\ getAllDeals tr' `sublist_of` getAllDeals tr
  /\ forall a' m',
       a' +:+ ":" +:+ m' <> a +:+ ":" +:+ m ->
       getDeal tr' a' m' = getDeal tr a' m'
       /\ getLastPrice tr' a' m' = getLastPrice tr a' m'.
Proof.
  cbn zeta. unfold clearDeal, trackProduct, getDeal, getLastPrice,
    getPriceHistory, PriceHistoryQueries.getLastPrice,
    PriceHistoryQueries.getPriceHistory, PriceHistoryQueries.clearHistory,
    PriceHistoryQueries.getKey.
  cbn. repeat apply conj.
  - apply get_delete_eq.
  - apply lookup_delete_eq.
  - by rewrite lookup_delete_eq.
  - intros product Hkey. unfold addPriceEntry, getKey. cbn.
    rewrite Hkey. by rewrite lookup_delete_eq.
  - unfold getAllDeals, JsMap.values, JsMap.delete. cbn.
    apply fmap_sublist. induction (trackedDeals tr) as [|kv l IH]; cbn;
      [constructor|].
    destruct (negb _); by constructor.
  - intros a' m' Hne.
    assert (Hne' : a +:+ ":" +:+ m <> a' +:+ ":" +:+ m') by congruence.
    split; [by apply get_delete_ne | by apply lookup_delete_ne].
Qed.

End DealTrackerFacts.

(** ** The further properties on concrete inputs *)

Section FurtherScenarios.

Import TaskQueue TaskQueueQueries.

Local Open Scope Q_scope.

Lemma busy_queue_reachable : reachable sample_clock busy_queue.
Proof. apply reachable_calls, reachable_create. Qed.

Lemma analyzeBatch_effects_witness :
  exists env' result lines,
    DealAnalyzer.analyzeBatch sample_clock overlapping_bands sample_env
      [sample_product 100; sample_product 50; sample_product 80]
      [sample_options 40; inherited_options 20; sample_options 30]
    = (env', result)
    /\ DealAnalyzer.world env' = World.mk 1 1
    /\ DealAnalyzer.log env' = lines
    /\ length lines = 1%nat.
Proof.
  destruct (analyzeBatch_effects sample_clock overlapping_bands sample_env
              [sample_product 100; sample_product 50; sample_product 80]
              [sample_options 40; inherited_options 20; sample_options 30]
              eq_refl)
    as (env' & result & lines & H & Hw & Hl & Hn & _).
  exists env', result, lines. auto.
Defined.

Lemma analyzeBatch_sequential_witness :
  DealAnalyzer.analyzeBatch sample_clock overlapping_bands sample_env
    [sample_product 100%Q; sample_product 80%Q] [sample_options 40%Q]
  = (sample_env,
     inl (DealAnalyzer.ErrorMessage
            "Products and options lists must have the same length"))
  /\ exists deals env',
       DealAnalyzer.analyzeBatch sample_clock overlapping_bands sample_env
         [sample_product 100%Q; sample_product 80%Q]
         [sample_options 40%Q; sample_options 30%Q]
       = (env', inr deals)
       /\ length deals = 2%nat.
Proof.
  split.
  - apply (analyzeBatch_sequential sample_clock overlapping_bands sample_env
             [sample_product 100%Q; sample_product 80%Q] [sample_options 40%Q]).
    discriminate.
  - destruct (analyzeBatch_sequential sample_clock overlapping_bands sample_env
                [sample_product 100%Q; sample_product 80%Q]
                [sample_options 40%Q; sample_options 30%Q]) as [_ Heq].
    destruct (Heq eq_refl) as (Hreturns & Hdeals & _).
    destruct Hreturns as (deals & env' & Hrun).
    { repeat constructor. }
    exists deals, env'. split; [exact Hrun|].
    apply (Hdeals deals env' Hrun).
Defined.

Lemma calculateMetrics_margin_roi_witness :
  DealMetrics.margin (DealAnalyzer.calculateMetrics 100 60 15) <= 100.
Proof.
  destruct (calculateMetrics_margin_roi 100 60 15) as (_ & H & _).
  - reflexivity.
  - apply H. discriminate.
Defined.

Lemma getNextTask_highest_priority_witness :
  StronglySorted (by_priority busy_queue) (queue busy_queue).
Proof.
  apply (getNextTask_highest_priority sample_clock busy_queue).
  apply reachable_calls, reachable_create.
Defined.

Lemma addTask_placement_witness :
  exists ahead behind,
    queue busy_queue = ahead ++ behind
    /\ queue (snd (addTask sample_clock busy_queue (sample_task 3 3)))
       = ahead ++ fresh_ref (objects busy_queue) :: behind.
Proof.
  destruct (addTask_placement sample_clock busy_queue (sample_task 3 3))
    as [(ahead & behind & H1 & H2 & _) _].
  - apply reachable_calls, reachable_create.
  - exists ahead, behind. split; [exact H1 | exact H2].
Defined.

Lemma tasks_accounted_witness :
  (getQueueLength busy_queue + getRunningTaskCount busy_queue
   + getCompletedTaskCount busy_queue
   = World.uuids (world busy_queue) - 0)%nat.
Proof.
  apply (tasks_accounted sample_clock (World.mk 0 0)
           [AddTask (sample_task 1 3); AddTask (sample_task 5 3);
            AddTask (sample_task 5 3); GetNextTask]).
  repeat constructor.
Defined.

Lemma getTask_finds_live_witness :
  getTask busy_queue 1 = Some 1%nat
  <-> live busy_queue 1
      /\ exists task, objects busy_queue !! 1%nat = Some task /\ id task = 1%nat.
Proof.
  destruct (getTask_finds_live sample_clock busy_queue 1) as [H _].
  - apply reachable_calls, reachable_create.
  - exact (H 1%nat).
Defined.

Lemma addTask_then_getTask_witness :
  getTask busy_queue (fst (addTask sample_clock busy_queue (sample_task 3 3)))
  = None.
Proof.
  apply (addTask_then_getTask sample_clock busy_queue (sample_task 3 3)).
  apply reachable_calls, reachable_create.
Defined.

Lemma completeTask_then_getTaskResult_witness :
  exists task,
    objects (one_running 3) !! 0%nat = Some task
    /\ getTask (completeTask sample_clock (one_running 3) 0 sample_outcome) 0
       = None.
Proof.
  destruct (completeTask_then_getTaskResult sample_clock (one_running 3) 0 0
              sample_outcome)
    as (task & Ht & _ & _ & Hnone & _).
  - apply reachable_calls, reachable_create.
  - reflexivity.
  - exists task. split; [exact Ht | exact Hnone].
Defined.

(** The hundred durations of [worked_queue] fill the record; the next
    completion pushes the oldest out. *)
Example worked_queue_full :
  length (taskDurations worked_queue) = 100%nat
  /\ runningTasks worked_queue !! 100%nat = Some 100%nat
  /\ length (taskDurations
               (completeTask sample_clock worked_queue 100 sample_outcome))
     = 100%nat.
Proof. vm_compute. auto. Qed.

Lemma taskDurations_recent_witness :
  (length (taskDurations worked_queue) <= 100)%nat
  /\ exists task,
       objects worked_queue !! 100%nat = Some task
       /\ taskDurations
            (completeTask sample_clock worked_queue 100 sample_outcome)
          = most_recent 100
              (taskDurations worked_queue
               ++ [elapsed (sample_clock (World.dates (world worked_queue)))
                     task]).
Proof.
  destruct (taskDurations_recent sample_clock worked_queue)
    as (Hlen & Hcomplete & _).
  - apply reachable_calls, reachable_create.
  - split; [exact Hlen|].
    apply (Hcomplete 100%nat 100%nat sample_outcome).
    vm_compute. reflexivity.
Defined.

Lemma live_tasks_have_retries_left_witness :
  (0 <= retryCount retried_task)%Z
  /\ (retryCount retried_task = 0
      \/ retryCount retried_task < maxRetries retried_task)%Z.
Proof.
  apply (live_tasks_have_retries_left sample_clock retried_queue 0 retried_task).
  - apply reachable_calls, reachable_create.
  - left. assert (E : queue retried_queue = [0]%nat) by reflexivity.
    rewrite E. by left.
  - vm_compute. reflexivity.
Defined.

End FurtherScenarios.
